(** * Af Analyzer: the tangent-method core, embedded and verified

    The numeric core of the analyzer lives in two Python modules,
    [core/preprocessing.py] (outlier removal, smoothing) and
    [core/tangent_analysis.py] (derivative, max-slope point, baselines,
    tangent, intersections, orchestration).  This file embeds those
    functions as Rocq functions and proves properties of them.

    - A numpy [float64] is an IEEE-754 binary64 number: [spec_float] with
      the operations of the Standard Library's [SpecFloat] at precision 53
      and maximal exponent 1024.  All values compute.
    - A Python [int] is a [Z]; a 1-D numpy array is a [list].
    - [raise ValueError(...)] is the [Err] result; the exception carries the
      kind of the check that failed.
    - [scipy.signal.savgol_filter] and [scipy.stats.linregress] are not code
      of this repository: they are fields of the [SciPy] interface. *)

From Stdlib Require Import ZArith QArith Qpower Qabs Lqa List Bool String Lia SpecFloat.
Import ListNotations.
Local Open Scope Z_scope.

(** ** IEEE-754 binary64 *)

Module F64.

Definition prec : Z := 53.
Definition emax : Z := 1024.

Definition add : spec_float -> spec_float -> spec_float := SFadd prec emax.
Definition sub : spec_float -> spec_float -> spec_float := SFsub prec emax.
Definition mul : spec_float -> spec_float -> spec_float := SFmul prec emax.
Definition div : spec_float -> spec_float -> spec_float := SFdiv prec emax.
Definition abs : spec_float -> spec_float := SFabs.
Definition eqb : spec_float -> spec_float -> bool := SFeqb.
Definition ltb : spec_float -> spec_float -> bool := SFltb.
Definition leb : spec_float -> spec_float -> bool := SFleb.

(** [a > b] of Python and C. *)
Definition gtb (a b : spec_float) : bool := ltb b a.

Definition nan : spec_float := S754_nan.
Definition zero : spec_float := S754_zero false.

(** Conversion of an integer, rounded to nearest even. *)
Definition of_Z (z : Z) : spec_float := binary_normalize prec emax z 0 false.

(** The double nearest to the quotient [n/d] of two integers: the value of
    a decimal literal such as [0.01] when [n] and [d] are exactly
    representable, the division being correctly rounded. *)
Definition ratio (n d : Z) : spec_float := div (of_Z n) (of_Z d).

Definition is_nan (x : spec_float) : bool :=
  match x with S754_nan => true | _ => false end.

Definition is_finite (x : spec_float) : bool :=
  match x with S754_zero _ | S754_finite _ _ _ => true | _ => false end.

(** Sign bit clear and not NaN: [+0], a positive number or [+inf]. *)
Definition is_nonneg (x : spec_float) : bool :=
  match x with
  | S754_zero false | S754_finite false _ _ | S754_infinity false => true
  | _ => false
  end.

End F64.

(** A numpy [float64]. *)
Notation float := spec_float (only parsing).

(** ** Exceptions *)

(** Every check of the core raises [ValueError]; the message tells which
    precondition failed.  [kind] names that precondition:
    - [LengthMismatch]: "Length mismatch: temps (..) != values (..)", "temps
      and values must have the same length", "temps, values, and derivatives
      must have the same length";
    - [InsufficientPoints]: "Need at least 2 points ...", "Need at least 10
      points for analysis ...";
    - [EmptyRange]: "No data points in temperature range ...";
    - [InvalidParameter]: "window_length (..) must be greater than polyorder
      (..)", "window_length (..) cannot be larger than data length (..)";
    - [OutOfBounds]: "Index .. out of bounds ...";
    - [EmptyInput]: "derivatives array cannot be empty";
    - [Library]: a [ValueError] raised inside scipy. *)
Inductive kind : Type :=
| LengthMismatch
| InsufficientPoints
| EmptyRange
| InvalidParameter
| OutOfBounds
| EmptyInput
| Library.

Inductive exn : Type :=
| ValueError (k : kind)
| IndexError
| ZeroDivisionError.

Inductive result (A : Type) : Type :=
| Ok (a : A)
| Err (e : exn).
Arguments Ok {A} a.
Arguments Err {A} e.

Definition bind {A B : Type} (r : result A) (f : A -> result B) : result B :=
  match r with
  | Ok a => f a
  | Err e => Err e
  end.

Notation "'do' x <- r ; k" := (bind r (fun x => k))
  (at level 10, x pattern, r at level 100, k at level 200).

Definition raise {A : Type} (k : kind) : result A := Err (ValueError k).

Definition is_ok {A : Type} (r : result A) : bool :=
  match r with Ok _ => true | Err _ => false end.

(** [len(a)] as a Python int. *)
Definition len {A : Type} (l : list A) : Z := Z.of_nat (List.length l).

(** ** Arrays *)

(** [range(n)]. *)
Definition range (n : nat) : list Z := map Z.of_nat (seq 0 n).

Fixpoint mapi_from {A B : Type} (f : Z -> A -> B) (i : Z) (l : list A) : list B :=
  match l with
  | [] => []
  | x :: l' => f i x :: mapi_from f (i + 1) l'
  end.

(** Elementwise map that also sees the index. *)
Definition mapi {A B : Type} (f : Z -> A -> B) (l : list A) : list B :=
  mapi_from f 0 l.

(** Elementwise binary operation on two arrays of the same shape. *)
Fixpoint map2 {A B C : Type} (f : A -> B -> C) (l : list A) (m : list B) : list C :=
  match l, m with
  | x :: l', y :: m' => f x y :: map2 f l' m'
  | _, _ => []
  end.

(** [a[mask]] for a boolean [mask] of the shape of [a]. *)
Fixpoint select {A : Type} (mask : list bool) (a : list A) : list A :=
  match mask, a with
  | b :: mask', x :: a' => if b then x :: select mask' a' else select mask' a'
  | _, _ => []
  end.

(** [a[mask]] as numpy checks it: the shapes must agree. *)
Definition getmask {A : Type} (a : list A) (mask : list bool) : result (list A) :=
  if len mask =? len a then Ok (select mask a) else Err IndexError.

(** [a[i]] for an integer [i], negative indices counting from the end. *)
Definition getitem {A : Type} (a : list A) (i : Z) : result A :=
  let j := if i <? 0 then i + len a else i in
  if (0 <=? j) && (j <? len a)
  then match nth_error a (Z.to_nat j) with
       | Some x => Ok x
       | None => Err IndexError
       end
  else Err IndexError.

(** [a[i] = v] for [0 <= i < len(a)]. *)
Fixpoint update {A : Type} (a : list A) (i : nat) (v : A) : list A :=
  match a, i with
  | [], _ => []
  | _ :: a', O => v :: a'
  | x :: a', S i' => x :: update a' i' v
  end.

(** [a[idx] = vs] for an array [idx] of indices and as many values. *)
Fixpoint assign {A : Type} (a : list A) (idx : list Z) (vs : list A) : list A :=
  match idx, vs with
  | i :: idx', v :: vs' => assign (update a (Z.to_nat i) v) idx' vs'
  | _, _ => a
  end.

(** [a[:b] = v] for [b > 0]. *)
Definition set_head {A : Type} (b : Z) (v : A) (a : list A) : list A :=
  mapi (fun i x => if i <? b then v else x) a.

(** [a[-b:] = v] for [b > 0]: the last [b] entries, all of them when
    [b >= len(a)]. *)
Definition set_tail {A : Type} (b : Z) (v : A) (a : list A) : list A :=
  mapi (fun i x => if len a - b <=? i then v else x) a.

(** [a[mask] = v]. *)
Definition set_where {A : Type} (mask : list bool) (v : A) (a : list A) : list A :=
  map2 (fun (m : bool) x => if m then v else x) mask a.

(** [a[start:stop]] for [0 <= start] and [0 <= stop]. *)
Definition slice {A : Type} (a : list A) (start stop : Z) : list A :=
  firstn (Z.to_nat (stop - start)) (skipn (Z.to_nat start) a).

(** ** numpy *)

Module np.

(** [rtol] and [atol], the defaults of [np.isclose]: the doubles nearest
    to 1e-5 and 1e-8. *)
Definition rtol : float := S754_finite false 5902958103587057 (-69).
Definition atol : float := S754_finite false 6044629098073146 (-79).

(** [np.isclose(a, b)] on scalars, with the default tolerances and
    [equal_nan=False]: within tolerance when both are finite, equal
    otherwise (so that equal infinities are close and NaN is close to
    nothing). *)
Definition isclose (a b : float) : bool :=
  if F64.is_finite a && F64.is_finite b
  then F64.leb (F64.abs (F64.sub a b))
               (F64.add atol (F64.mul rtol (F64.abs b)))
  else F64.eqb a b.

(** [np.where(mask)[0]]: the indices of the true entries. *)
Definition where_ (mask : list bool) : list Z :=
  select mask (range (List.length mask)).

(** [np.any]. *)
Definition any (mask : list bool) : bool := existsb (fun b => b) mask.

(** [np.sum] of a boolean array. *)
Definition count (mask : list bool) : Z := len (filter (fun b => b) mask).

(** [np.clip] on integers. *)
Definition clip (x lo hi : Z) : Z := Z.min (Z.max x lo) hi.

Fixpoint insert (x : float) (l : list float) : list float :=
  match l with
  | [] => [x]
  | y :: l' => if F64.leb x y then x :: l else y :: insert x l'
  end.

(** Ascending order of an array without NaN. *)
Definition sort (l : list float) : list float := fold_right insert [] l.

(** The middle of a sorted array: the middle element, or the mean of the
    two middle elements. *)
Definition middle (s : list float) : float :=
  let n := len s in
  if n =? 0 then F64.nan
  else if n mod 2 =? 1 then nth (Z.to_nat (n / 2)) s F64.nan
  else F64.div (F64.add (nth (Z.to_nat (n / 2 - 1)) s F64.nan)
                        (nth (Z.to_nat (n / 2)) s F64.nan))
               (F64.of_Z 2).

(** [np.median] of a 1-D array: NaN when the array is empty or holds a
    NaN. *)
Definition median (a : list float) : float :=
  if existsb F64.is_nan a then F64.nan else middle (sort a).

(** [np.fmax] and [np.fmin]: the other operand when one is NaN. *)
Definition fmax (a b : float) : float :=
  if F64.is_nan b then a
  else if F64.is_nan a then b
  else if F64.ltb a b then b else a.

Definition fmin (a b : float) : float :=
  if F64.is_nan b then a
  else if F64.is_nan a then b
  else if F64.ltb b a then b else a.

(** [np.nanmax] and [np.nanmin] of a 1-D array: NaN entries are ignored,
    an array of NaN only gives NaN. *)
Definition nanmax (a : list float) : float :=
  match a with
  | [] => F64.nan
  | x :: a' => fold_left fmax a' x
  end.

Definition nanmin (a : list float) : float :=
  match a with
  | [] => F64.nan
  | x :: a' => fold_left fmin a' x
  end.

(** The index [j] with [xp[j] <= key < xp[j+1]] in the ascending [xp]:
    [-1] below the first sample, [len(xp)] above the last. *)
Fixpoint first_above (key : float) (xp : list float) (i : Z) : Z :=
  match xp with
  | [] => i
  | x :: xp' => if F64.ltb key x then i else first_above key xp' (i + 1)
  end.

Definition search (key : float) (xp : list float) : Z :=
  if F64.gtb key (last xp F64.nan) then len xp
  else if F64.ltb key (hd F64.nan xp) then -1
  else first_above key xp 0 - 1.

(** One value of [np.interp(x, xp, fp)]: constant outside the samples,
    linear between two samples, with the fall-backs of numpy when the
    interpolation formula gives NaN. *)
Definition interp1 (xp fp : list float) (x : float) : float :=
  if F64.is_nan x then x
  else
    let j := search x xp in
    let dx := fun k : Z => nth (Z.to_nat k) xp F64.nan in
    let dy := fun k : Z => nth (Z.to_nat k) fp F64.nan in
    if j =? -1 then hd F64.nan fp
    else if j =? len xp then last fp F64.nan
    else if j =? len xp - 1 then dy j
    else if F64.eqb (dx j) x then dy j
    else
      let slope := F64.div (F64.sub (dy (j + 1)) (dy j))
                           (F64.sub (dx (j + 1)) (dx j)) in
      let dres := F64.add (F64.mul slope (F64.sub x (dx j))) (dy j) in
      if F64.is_nan dres
      then
        let dres' := F64.add (F64.mul slope (F64.sub x (dx (j + 1)))) (dy (j + 1)) in
        if F64.is_nan dres' && F64.eqb (dy j) (dy (j + 1)) then dy j else dres'
      else dres.

(** [np.interp(x, xp, fp)] at integer positions [x] and [xp]. *)
Definition interp (x xp : list Z) (fp : list float) : list float :=
  map (interp1 (map F64.of_Z xp) fp) (map F64.of_Z x).

(** The loop of [np.argmax] on doubles: the running maximum moves when an
    entry is not [<=] it, and a NaN ends the scan. *)
Fixpoint argmax_from (mp : float) (best i : Z) (l : list float) : Z :=
  match l with
  | [] => best
  | x :: l' =>
      if F64.leb x mp then argmax_from mp best (i + 1) l'
      else if F64.is_nan x then i
      else argmax_from x i (i + 1) l'
  end.

Definition argmax (a : list float) : Z :=
  match a with
  | [] => 0
  | x :: a' => if F64.is_nan x then 0 else argmax_from x 0 1 a'
  end.

End np.

(** ** pandas *)

Module pd.

(** [Series(values).rolling(window, center=True, min_periods).median()]:
    the window of entry [i] is [i + 1 + offset - window, i + 1 + offset)
    with [offset = (window - 1) // 2], cut to the array.  pandas replaces
    infinite entries by NaN before it rolls, so only the finite entries
    count as observations; fewer than [min_periods] observations give
    NaN. *)
Definition rolling_median (window min_periods : Z) (values : list float)
  : list float :=
  let n := len values in
  let offset := (window - 1) / 2 in
  map (fun i =>
         let stop := np.clip (i + 1 + offset) 0 n in
         let start := np.clip (i + 1 + offset - window) 0 n in
         let obs := filter F64.is_finite (slice values start stop) in
         if min_periods <=? len obs then np.middle (np.sort obs) else F64.nan)
      (range (List.length values)).

End pd.

(** ** scipy *)

(** The two scipy functions the core calls.  [savgol_filter x window_length
    polyorder] is the Savitzky-Golay filter and [linregress x y] gives the
    slope and the intercept of the least-squares line.  [None] stands for an
    exception raised inside scipy. *)
Record SciPy : Type := {
  savgol_filter : list float -> Z -> Z -> option (list float);
  linregress : list float -> list float -> option (float * float)
}.

(** A call into scipy: its exception propagates. *)
Definition call {A : Type} (r : option A) : result A :=
  match r with
  | Some a => Ok a
  | None => raise Library
  end.

(** ** core/preprocessing.py *)

(** The arrays the loop of [remove_outliers] updates. *)
Record outlier_state : Type := {
  working_values : list float;
  combined_mask : list bool
}.

(** One pass of the loop; [None] is [break]. *)
Definition outlier_pass (window : Z) (threshold : float) (values : list float)
    (st : outlier_state) : option outlier_state :=
  let working_values := st.(working_values) in
  let combined_mask := st.(combined_mask) in
  let rolling_med := pd.rolling_median window (window / 2 + 1) working_values in
  let deviations := map2 (fun v m => F64.abs (F64.sub v m)) working_values rolling_med in
  let boundary := Z.max (window / 2) 3 in
  let inner_mask := map (fun _ => true) working_values in
  let inner_mask := set_head boundary false inner_mask in
  let inner_mask := set_tail boundary false inner_mask in
  let inner_mask := set_where combined_mask false inner_mask in
  let valid_devs :=
    select (map2 andb inner_mask (map (fun d => negb (F64.is_nan d)) deviations))
           deviations in
  if len valid_devs =? 0 then None
  else
    let mad := np.median valid_devs in
    let mad :=
      if F64.eqb mad F64.zero || F64.is_nan mad
      then
        let data_range := F64.sub (np.nanmax working_values) (np.nanmin working_values) in
        let scaled := F64.mul data_range (F64.ratio 1 100) in
        if F64.gtb (F64.of_Z 1) scaled then F64.of_Z 1 else scaled
      else mad in
    let outlier_threshold := F64.mul threshold mad in
    let new_mask := map (fun d => F64.gtb d outlier_threshold) deviations in
    let new_mask := set_head boundary false new_mask in
    let new_mask := set_tail boundary false new_mask in
    let new_mask := set_where combined_mask false new_mask in
    if negb (np.any new_mask) then None
    else
      let combined_mask := map2 orb combined_mask new_mask in
      let normal_idx := np.where_ (map negb combined_mask) in
      let outlier_idx := np.where_ combined_mask in
      let working_values :=
        if 2 <=? len normal_idx
        then assign working_values outlier_idx
               (np.interp outlier_idx normal_idx (select (map negb combined_mask) values))
        else working_values in
      Some {| working_values := working_values; combined_mask := combined_mask |}.

(** [for iteration in range(max_iterations)]. *)
Fixpoint outlier_loop (iterations : nat) (window : Z) (threshold : float)
    (values : list float) (st : outlier_state) : outlier_state :=
  match iterations with
  | O => st
  | S iterations' =>
      match outlier_pass window threshold values st with
      | None => st
      | Some st' => outlier_loop iterations' window threshold values st'
      end
  end.

Definition remove_outliers (temps values : list float) (window : Z)
    (threshold : float) (max_iterations : Z)
  : result (list float * list float * list bool) :=
  if negb (len temps =? len values) then raise LengthMismatch
  else
    let n := len values in
    if n <? window + 2
    then Ok (temps, values, map (fun _ => false) values)
    else
      let window := Z.max window 11 in
      let window := if window mod 2 =? 0 then window + 1 else window in
      let st := outlier_loop (Z.to_nat max_iterations) window threshold values
                  {| working_values := values;
                     combined_mask := map (fun _ => false) values |} in
      Ok (temps, st.(working_values), st.(combined_mask)).

Definition smooth_data (sp : SciPy) (temps values : list float)
    (window_length polyorder : Z) : result (list float * list float) :=
  if negb (len temps =? len values) then raise LengthMismatch
  else if len temps =? 0 then Ok ([], [])
  else
    let window_length :=
      if window_length mod 2 =? 0 then window_length + 1 else window_length in
    if window_length <=? polyorder then raise InvalidParameter
    else if len values <? window_length then raise InvalidParameter
    else
      do smoothed_values <- call (savgol_filter sp values window_length polyorder);
      Ok (temps, smoothed_values).

(** ** core/tangent_analysis.py *)

(** The arithmetic [np.gradient] is written in.  The arrays of the analyzer
    hold doubles, and the program runs at [F64_arith].  At the rationals the
    same formulas give the differences without rounding: the reference the
    doubles are measured against. *)
Class Arith (A : Type) : Type := {
  plus : A -> A -> A;
  minus : A -> A -> A;
  times : A -> A -> A;
  divide : A -> A -> A;
  negate : A -> A;
  equal : A -> A -> bool;
  two : A
}.

#[export] Instance Q_arith : Arith Q := {
  plus := Qplus;
  minus := Qminus;
  times := Qmult;
  divide := Qdiv;
  negate := Qopp;
  equal := Qeq_bool;
  two := 2%Q
}.

#[export] Instance F64_arith : Arith float := {
  plus := F64.add;
  minus := F64.sub;
  times := F64.mul;
  divide := F64.div;
  negate := SFopp;
  equal := F64.eqb;
  two := F64.of_Z 2
}.

Section Gradient.

Context {A : Type} `{Arith A}.

(** [np.diff(x)]. *)
Definition diff (x : list A) : list A := map2 (fun a b => minus b a) x (tl x).

(** Interior points, uniform spacing [dx]:
    [(f[2:] - f[:-2]) / (2. * dx)]. *)
Definition interior_uniform (f : list A) (dx : A) : list A :=
  map2 (fun f0 f2 => divide (minus f2 f0) (times two dx)) f (tl (tl f)).

(** Interior points, spacings [dx1 = ax_dx[0:-1]] and [dx2 = ax_dx[1:]]:
    [a * f[:-2] + b * f[1:-1] + c * f[2:]]. *)
Fixpoint interior_nonuniform (f ax_dx : list A) : list A :=
  match f, ax_dx with
  | f0 :: ((f1 :: f2 :: _) as f'), dx1 :: ((dx2 :: _) as ax_dx') =>
      let a := divide (negate dx2) (times dx1 (plus dx1 dx2)) in
      let b := divide (minus dx2 dx1) (times dx1 dx2) in
      let c := divide dx1 (times dx2 (plus dx1 dx2)) in
      plus (plus (times a f0) (times b f1)) (times c f2)
        :: interior_nonuniform f' ax_dx'
  | _, _ => []
  end.

(** [np.gradient(f, x)] for 1-D arrays of the same length, at least 2,
    with [edge_order=1]: second-order differences inside, one-sided
    differences at both ends.  Constant spacing is reduced to the scalar
    case. *)
Definition gradient (f x : list A) : list A :=
  match f, diff x with
  | f0 :: f1 :: _, d0 :: _ =>
      let ax_dx := diff x in
      let uniform_spacing := forallb (fun d => equal d d0) ax_dx in
      let interior :=
        if uniform_spacing then interior_uniform f d0
        else interior_nonuniform f ax_dx in
      let dx_0 := d0 in
      let dx_n := if uniform_spacing then d0 else last ax_dx d0 in
      let fn1 := last f f0 in
      let fn2 := last (removelast f) f0 in
      [divide (minus f1 f0) dx_0] ++ interior ++ [divide (minus fn1 fn2) dx_n]
  | _, _ => []
  end.

Definition compute_derivative (temps values : list A) : result (list A) :=
  if negb (len temps =? len values) then raise LengthMismatch
  else if len temps <? 2 then raise InsufficientPoints
  else Ok (gradient values temps).

End Gradient.

Definition find_max_slope_index (derivatives : list float) (offset : Z) : result Z :=
  if len derivatives =? 0 then raise EmptyInput
  else
    let max_abs_idx := np.argmax (map F64.abs derivatives) in
    let adjusted_idx := max_abs_idx + offset in
    let n := len derivatives in
    let adjusted_idx := Z.max 0 (Z.min adjusted_idx (n - 1)) in
    Ok adjusted_idx.

Definition fit_baseline (sp : SciPy) (temps values : list float)
    (t_start t_end : float) : result (float * float) :=
  let mask := map (fun t => F64.leb t_start t && F64.leb t t_end) temps in
  let temps_range := select mask temps in
  do values_range <- getmask values mask;
  if len temps_range =? 0 then raise EmptyRange
  else if len temps_range <? 2 then raise InsufficientPoints
  else call (linregress sp temps_range values_range).

Definition compute_tangent_at_point (temps values derivatives : list float)
    (index : Z) : result (float * float) :=
  if negb ((0 <=? index) && (index <? len temps)) then raise OutOfBounds
  else if negb (len temps =? len values) || negb (len temps =? len derivatives)
  then raise LengthMismatch
  else
    do slope <- getitem derivatives index;
    do x0 <- getitem temps index;
    do y0 <- getitem values index;
    let intercept := F64.sub y0 (F64.mul slope x0) in
    Ok (slope, intercept).

(** [a / b] on Python floats: a zero divisor raises.  (On numpy doubles it
    gives an infinity or NaN.) *)
Definition truediv (a b : float) : result float :=
  if F64.eqb b F64.zero then Err ZeroDivisionError else Ok (F64.div a b).

Definition find_intersection (slope1 intercept1 slope2 intercept2 : float)
  : result float :=
  if np.isclose slope1 slope2 then Ok F64.nan
  else truediv (F64.sub intercept2 intercept1) (F64.sub slope1 slope2).

(** The values a result dictionary can hold. *)
Inductive pyval : Type :=
| PyFloat (x : float)
| PyInt (n : Z)
| PyTuple (a b : float)
| PyArray (a : list float).

(** A [dict] with string keys, in insertion order. *)
Definition dict : Type := list (string * pyval).

Definition get (d : dict) (key : string) : option pyval :=
  match find (fun kv => String.eqb (fst kv) key) d with
  | Some kv => Some (snd kv)
  | None => None
  end.

Definition keys (d : dict) : list string := map fst d.

Definition is_array (v : pyval) : bool :=
  match v with PyArray _ => true | _ => false end.

(** Steps 2 to 8 of [analyze_channel]: everything after the outlier
    removal.  None of them writes to an array. *)
Definition analyze_cleaned (sp : SciPy) (temps_clean values_clean : list float)
    (outlier_mask : list bool) (low_range high_range : float * float)
    (smooth_params : Z * Z) (slope_offset : Z) : result dict :=
  let outlier_count := np.count outlier_mask in
  let '(window_length, polyorder) := smooth_params in
  do (temps_smooth, values_smooth) <-
     smooth_data sp temps_clean values_clean window_length polyorder;
  do derivatives <- compute_derivative temps_smooth values_smooth;
  do max_slope_idx <- find_max_slope_index derivatives slope_offset;
  do max_slope_temp <- getitem temps_smooth max_slope_idx;
  do (tangent_slope, tangent_intercept) <-
     compute_tangent_at_point temps_smooth values_smooth derivatives max_slope_idx;
  let '(low_t_start, low_t_end) := low_range in
  do (low_slope, low_intercept) <-
     fit_baseline sp temps_smooth values_smooth low_t_start low_t_end;
  let '(high_t_start, high_t_end) := high_range in
  do (high_slope, high_intercept) <-
     fit_baseline sp temps_smooth values_smooth high_t_start high_t_end;
  do As <- find_intersection tangent_slope tangent_intercept low_slope low_intercept;
  do Af_tan <- find_intersection tangent_slope tangent_intercept high_slope high_intercept;
  Ok [("As", PyFloat As);
      ("Af_tan", PyFloat Af_tan);
      ("max_slope_temp", PyFloat max_slope_temp);
      ("low_baseline", PyTuple low_slope low_intercept);
      ("high_baseline", PyTuple high_slope high_intercept);
      ("tangent", PyTuple tangent_slope tangent_intercept);
      ("outlier_count", PyInt outlier_count)]%string.

Definition analyze_channel (sp : SciPy) (temps values : list float)
    (low_range high_range : float * float) (smooth_params : Z * Z)
    (slope_offset : Z) (outlier_params : Z * float) : result dict :=
  if negb (len temps =? len values) then raise LengthMismatch
  else if len temps <? 10 then raise InsufficientPoints
  else
    let '(outlier_window, outlier_threshold) := outlier_params in
    do (temps_clean, values_clean, outlier_mask) <-
       remove_outliers temps values outlier_window outlier_threshold 3;
    analyze_cleaned sp temps_clean values_clean outlier_mask
      low_range high_range smooth_params slope_offset.

(** ** The arrays as objects *)

(** The functions above take and return the contents of arrays.  In Python
    an array is an object that several names can share and that an indexed
    assignment changes in place.  Here the arrays of doubles live in a heap;
    a function takes the heap, and names its arrays by their locations. *)
Module Heap.

Definition loc : Type := nat.

Definition heap : Type := list (list float).

Definition load (h : heap) (l : loc) : list float := nth l h [].

(** A new array: [a.copy()], or the result of an array expression. *)
Definition alloc (h : heap) (a : list float) : heap * loc :=
  (h ++ [a], List.length h).

(** Assignment into the array at [l], which then holds [a]. *)
Definition store (h : heap) (l : loc) (a : list float) : heap := update h l a.

(** The loop of [remove_outliers].  Each pass reads the array of the
    original values and the array of the working values, and assigns into
    the latter; the masks are arrays of the function's own. *)
Fixpoint outlier_loop (iterations : nat) (window : Z) (threshold : float)
    (values working : loc) (mask : list bool) (h : heap) : list bool * heap :=
  match iterations with
  | O => (mask, h)
  | S iterations' =>
      match outlier_pass window threshold (load h values)
              {| working_values := load h working; combined_mask := mask |} with
      | None => (mask, h)
      | Some st' =>
          outlier_loop iterations' window threshold values working
            st'.(combined_mask) (store h working st'.(working_values))
      end
  end.

(** [np.asarray(x, dtype=float)] of an array of doubles is that array, so
    [temps] and [values] stay the caller's objects.  The short series is
    returned as two copies; otherwise the working values are a copy of
    [values], and [temps] itself is returned. *)
Definition remove_outliers (temps values : loc) (window : Z)
    (threshold : float) (max_iterations : Z) (h : heap)
  : result (loc * loc * list bool) * heap :=
  if negb (len (load h temps) =? len (load h values))
  then (raise LengthMismatch, h)
  else
    let n := len (load h values) in
    if n <? window + 2
    then
      let '(h, temps_copy) := alloc h (load h temps) in
      let '(h, values_copy) := alloc h (load h values) in
      (Ok (temps_copy, values_copy, map (fun _ => false) (load h values)), h)
    else
      let window := Z.max window 11 in
      let window := if window mod 2 =? 0 then window + 1 else window in
      let mask := map (fun _ => false) (load h values) in
      let '(h, working) := alloc h (load h values) in
      let '(mask, h) :=
        outlier_loop (Z.to_nat max_iterations) window threshold
          values working mask h in
      (Ok (temps, working, mask), h).

(** [analyze_channel] on the caller's arrays.  After the outlier removal no
    step assigns into an array. *)
Definition analyze_channel (sp : SciPy) (temps values : loc)
    (low_range high_range : float * float) (smooth_params : Z * Z)
    (slope_offset : Z) (outlier_params : Z * float) (h : heap)
  : result dict * heap :=
  if negb (len (load h temps) =? len (load h values))
  then (raise LengthMismatch, h)
  else if len (load h temps) <? 10 then (raise InsufficientPoints, h)
  else
    let '(outlier_window, outlier_threshold) := outlier_params in
    match remove_outliers temps values outlier_window outlier_threshold 3 h with
    | (Ok (temps_clean, values_clean, outlier_mask), h) =>
        (analyze_cleaned sp (load h temps_clean) (load h values_clean)
           outlier_mask low_range high_range smooth_params slope_offset, h)
    | (Err e, h) => (Err e, h)
    end.

End Heap.

(** ** Frames *)

(** A [DataFrame] all of whose columns are of dtype float64, as the loader
    leaves the temperature and the channels of a measurement file: the labels
    with their values, in column order.  A missing value is NaN.  The labels
    are distinct, and the columns have one length, the number of rows.
    Columns of another dtype are not modelled. *)
Definition DataFrame : Type := list (string * list float).

(** What the data layer raises: the [ValueError]s of its checks,
    - [ChannelNotFound]: "Channel '..' not found in DataFrame columns: ..",
    - [NoTemperatureColumn]: "DataFrame must contain 'Temperature' column",
    - [NoSpaceColumn]: "DataFrame must contain at least one Space column",
    and the [KeyError] of [df[col]] for a label the frame does not have. *)
Inductive data_error : Type :=
| ChannelNotFound
| NoTemperatureColumn
| NoSpaceColumn
| KeyError.

Inductive outcome (A : Type) : Type :=
| Returns (a : A)
| Raises (e : data_error).
Arguments Returns {A} a.
Arguments Raises {A} e.

(** The arithmetic pandas does inside [GroupBy.mean]: [group_mean obs] is
    the mean of the observations of one group, in row order; there is at
    least one, and none is NaN. *)
Record Pandas : Type := {
  group_mean : list float -> float
}.

Module frame.

(** [df.columns]. *)
Definition columns (df : DataFrame) : list string := map fst df.

(** [col in df.columns]. *)
Definition contains (df : DataFrame) (col : string) : bool :=
  existsb (String.eqb col) (columns df).

(** [df[col]]; [None] is [KeyError]. *)
Definition getitem (df : DataFrame) (col : string) : option (list float) :=
  match find (fun c => String.eqb (fst c) col) df with
  | Some c => Some (snd c)
  | None => None
  end.

(** [df.empty]: no column, or no row. *)
Definition empty (df : DataFrame) : bool :=
  match df with
  | [] => true
  | (_, a) :: _ => len a =? 0
  end.

(** [notna] on one entry. *)
Definition notna (x : float) : bool := negb (F64.is_nan x).

(** The keys of [groupby]: the distinct entries, in order of first
    appearance.  NaN is no key ([dropna=True]), and doubles that compare
    equal, [0.0] and [-0.0], are one key. *)
Fixpoint uniques (keys : list float) : list float :=
  match keys with
  | [] => []
  | k :: keys' =>
      if F64.is_nan k then uniques keys'
      else k :: filter (fun k' => negb (F64.eqb k' k)) (uniques keys')
  end.

(** [df.groupby(key, as_index=False)[col].mean()], as rows (key, mean): one
    row per key, keys ascending ([sort=True]); the mean of a group skips
    NaN, and is NaN when nothing is left. *)
Definition groupby_mean (pandas : Pandas) (keys values : list float)
  : list (float * float) :=
  map (fun k =>
         let group := select (map (fun t => F64.eqb t k) keys) values in
         let obs := filter notna group in
         (k, if len obs =? 0 then F64.nan else group_mean pandas obs))
      (np.sort (uniques keys)).

(** One row put in its place among rows sorted by key. *)
Fixpoint insert_row (r : float * float) (rows : list (float * float))
  : list (float * float) :=
  match rows with
  | [] => [r]
  | r' :: rows' =>
      if F64.leb (fst r) (fst r') then r :: rows else r' :: insert_row r rows'
  end.

(** [sort_values(key)] on rows whose keys are not NaN; rows of equal keys
    keep their order. *)
Definition sort_values (rows : list (float * float)) : list (float * float) :=
  fold_right insert_row [] rows.

(** [dropna(subset=[col])] on rows (key, col). *)
Definition dropna (rows : list (float * float)) : list (float * float) :=
  filter (fun r => notna (snd r)) rows.

End frame.

(** ** core/preprocessing.py: the grouping *)

(** The frame returned has the two columns [Temperature] and [channel];
    [reset_index] renumbers the rows, which a list does by itself.  The model
    is that of a channel other than [Temperature]: what pandas returns when
    the grouping column is also the column selected is not part of it. *)
Definition group_by_temperature (pandas : Pandas) (df : DataFrame)
    (channel : string) : outcome DataFrame :=
  if negb (frame.contains df channel) then Raises ChannelNotFound
  else if negb (frame.contains df "Temperature") then Raises NoTemperatureColumn
  else
    match frame.getitem df "Temperature", frame.getitem df channel with
    | Some temperature, Some values =>
        let grouped := frame.groupby_mean pandas temperature values in
        let grouped := frame.sort_values grouped in
        let grouped := frame.dropna grouped in
        Returns [("Temperature"%string, map fst grouped); (channel, map snd grouped)]
    | _, _ => Raises KeyError
    end.

(** ** core/data_loader.py *)

Definition CHANNEL_COLUMNS : list string :=
  ["Space1"; "Space2"; "Space3"; "Space4"; "Space5"; "Space6"]%string.

(** The loop over [space_cols] is a fold on the list of valid channels; a
    [df[col]] that fails ends it. *)
Definition detect_valid_channels (df : DataFrame) : outcome (list string) :=
  if frame.empty df then Returns []
  else
    let space_cols := filter (frame.contains df) CHANNEL_COLUMNS in
    if len space_cols =? 0 then Raises NoSpaceColumn
    else
      fold_left
        (fun valid_channels col =>
           match valid_channels, frame.getitem df col with
           | Returns valid_channels, Some a =>
               if existsb frame.notna a
               then Returns (valid_channels ++ [col])
               else Returns valid_channels
           | Returns _, None => Raises KeyError
           | Raises e, _ => Raises e
           end)
        space_cols (Returns []).

(** ** ui/sidebar.py and ui/analysis_chart.py *)

Module st.

(** The entries of [st.session_state] the analysis reads; [None] is a key
    that is not set. *)
Record session_state : Type := {
  smooth_window : option Z;
  smooth_polyorder : option Z;
  low_temp_range : option (float * float);
  high_temp_range : option (float * float);
  slope_offset : option Z
}.

(** [session_state.get(key, default)]. *)
Definition get {A : Type} (entry : option A) (default : A) : A :=
  match entry with
  | Some v => v
  | None => default
  end.

End st.

Definition DEFAULT_WINDOW_LENGTH : Z := 51.
Definition DEFAULT_POLYORDER : Z := 3.

Definition get_smooth_params (session_state : st.session_state) : Z * Z :=
  let window_length := st.get (st.smooth_window session_state) DEFAULT_WINDOW_LENGTH in
  let polyorder := st.get (st.smooth_polyorder session_state) DEFAULT_POLYORDER in
  (window_length, polyorder).

Definition get_tangent_params (session_state : st.session_state)
  : (float * float) * (float * float) * Z :=
  let low_range :=
    st.get (st.low_temp_range session_state) (F64.of_Z 0, F64.of_Z 5) in
  let high_range :=
    st.get (st.high_temp_range session_state) (F64.of_Z 20, F64.of_Z 25) in
  let slope_offset := st.get (st.slope_offset session_state) 0 in
  (low_range, high_range, slope_offset).

(** The values of the dictionary [perform_analysis] returns: those of
    [analyze_channel], and the boolean array of the outlier mask. *)
Inductive entry : Type :=
| Value (v : pyval)
| BoolArray (m : list bool).

(** [d[key] = v]: the value of a key of the dictionary is replaced, a new
    key goes to the end. *)
Fixpoint setitem {V : Type} (d : list (string * V)) (key : string) (v : V)
  : list (string * V) :=
  match d with
  | [] => [(key, v)]
  | (k, v') :: d' =>
      if String.eqb k key then (k, v) :: d' else (k, v') :: setitem d' key v
  end.

(** [d[key]] where the key is set. *)
Definition lookup {V : Type} (d : list (string * V)) (key : string) : option V :=
  match find (fun kv => String.eqb (fst kv) key) d with
  | Some kv => Some (snd kv)
  | None => None
  end.

(** The body of the [try]: any exception ends it, and [perform_analysis]
    returns [None].  [analyze_channel] is called without [outlier_params],
    hence with its default [(5, 5.0)]; [remove_outliers] is called again
    with its own defaults, window 11, threshold 5.0 and 3 passes. *)
Definition perform_analysis (session_state : st.session_state)
    (pandas : Pandas) (sp : SciPy) (df : DataFrame) (channel : string)
  : option (list (string * entry)) :=
  let '(smooth_window, smooth_polyorder) := get_smooth_params session_state in
  let '(low_range, high_range, slope_offset) := get_tangent_params session_state in
  match group_by_temperature pandas df channel with
  | Raises _ => None
  | Returns grouped =>
  match frame.getitem grouped "Temperature", frame.getitem grouped channel with
  | Some temps, Some values =>
  match analyze_channel sp temps values low_range high_range
          (smooth_window, smooth_polyorder) slope_offset (5, F64.of_Z 5) with
  | Err _ => None
  | Ok result =>
  match remove_outliers temps values 11 (F64.of_Z 5) 3 with
  | Err _ => None
  | Ok (temps_clean, values_clean, outlier_mask) =>
  match smooth_data sp temps_clean values_clean smooth_window smooth_polyorder with
  | Err _ => None
  | Ok (temps_smooth, values_smooth) =>
      let result := map (fun kv => (fst kv, Value (snd kv))) result in
      let result := setitem result "temps_smooth" (Value (PyArray temps_smooth)) in
      let result := setitem result "values_smooth" (Value (PyArray values_smooth)) in
      let result := setitem result "temps_raw" (Value (PyArray temps)) in
      let result := setitem result "values_raw" (Value (PyArray values)) in
      let result := setitem result "outlier_mask" (BoolArray outlier_mask) in
      Some result
  end end end
  | _, _ => None
  end end.

(** ** A scipy to run with *)

(** Least squares by the formulas of [linregress]: the slope is the
    covariance over the variance of [x], the intercept is
    [ymean - slope * xmean]; sums are taken from left to right.  Empty input
    and constant [x] raise, as in scipy. *)
Definition fsum (a : list float) : float := fold_left F64.add a F64.zero.

Definition mean (a : list float) : float := F64.div (fsum a) (F64.of_Z (len a)).

Definition least_squares (x y : list float) : option (float * float) :=
  if (len x =? 0) || (len y =? 0) then None
  else if negb (len x =? len y) then None
  else if F64.eqb (np.nanmax x) (np.nanmin x) && (1 <? len x) then None
  else
    let xmean := mean x in
    let ymean := mean y in
    let ssxm := mean (map (fun a => F64.mul (F64.sub a xmean) (F64.sub a xmean)) x) in
    let ssxym :=
      mean (map2 (fun a b => F64.mul (F64.sub a xmean) (F64.sub b ymean)) x y) in
    let slope := F64.div ssxym ssxm in
    let intercept := F64.sub ymean (F64.mul slope xmean) in
    Some (slope, intercept).

(** The Savitzky-Golay filter with a window of one sample: the polynomial
    fitted to one sample is that sample, so the filter returns its input.
    Longer windows are not part of this instance. *)
Definition one_point_filter (x : list float) (window_length polyorder : Z)
  : option (list float) :=
  if (window_length =? 1) && (polyorder <=? 0) then Some x else None.

Definition scipy_ref : SciPy := {|
  savgol_filter := one_point_filter;
  linregress := least_squares
|}.

(** A pandas to run with: the mean as the sum over the count. *)
Definition pandas_ref : Pandas := {| group_mean := mean |}.

(** ** Notions of the statements *)

(** The window of [remove_outliers] after its adjustment: at least 11, and
    odd. *)
Definition forced_window (window : Z) : Z :=
  let window := Z.max window 11 in
  if window mod 2 =? 0 then window + 1 else window.

(** The invariant of the loop: the arrays keep the length of the input, and
    the working values are the input values wherever the mask is not set. *)
Definition outlier_inv (values : list float) (st : outlier_state) : Prop :=
  List.length (working_values st) = List.length values /\
  List.length (combined_mask st) = List.length values /\
  forall j, nth j (combined_mask st) false = false ->
            nth j (working_values st) F64.nan = nth j values F64.nan.

(** Strictly ascending temperatures. *)
Fixpoint increasing (temps : list Q) : Prop :=
  match temps with
  | t0 :: ((t1 :: _) as temps') => (t0 < t1)%Q /\ increasing temps'
  | _ => True
  end.

(** The values of the straight line of slope [m] through [(0, c)]. *)
Definition line (m c t : Q) : Q := (m * t + c)%Q.

(** The values of the parabola [a t^2 + b t + c]. *)
Definition parabola (a b c t : Q) : Q := (a * t * t + b * t + c)%Q.

(** A temperature inside the closed range of a baseline. *)
Definition in_range (t_start t_end t : float) : bool :=
  F64.leb t_start t && F64.leb t t_end.

(** Strictly ascending doubles: every entry is below all the later ones. *)
Fixpoint ascending (temps : list float) : Prop :=
  match temps with
  | [] => True
  | t :: temps' => Forall (fun t' => F64.ltb t t' = true) temps' /\ ascending temps'
  end.

(** Pairwise different keys. *)
Fixpoint distinct (keys : list float) : Prop :=
  match keys with
  | [] => True
  | k :: keys' => Forall (fun k' => F64.eqb k' k = false) keys' /\ distinct keys'
  end.

(** The rows [group_by_temperature] returns. *)
Definition grouped_rows (pandas : Pandas) (temperature values : list float)
  : list (float * float) :=
  frame.dropna (frame.sort_values (frame.groupby_mean pandas temperature values)).

(** A column with a value: the label is in the frame and its column holds
    an entry that is not NaN. *)
Definition has_value (df : DataFrame) (col : string) : bool :=
  match frame.getitem df col with
  | Some a => existsb frame.notna a
  | None => false
  end.

(** The keys of the dictionary [perform_analysis] returns, in order. *)
Definition chart_keys : list string :=
  ["As"; "Af_tan"; "max_slope_temp"; "low_baseline"; "high_baseline"; "tangent";
   "outlier_count"; "temps_smooth"; "values_smooth"; "temps_raw"; "values_raw";
   "outlier_mask"]%string.

(** The dictionary of [analyze_channel] with the five entries
    [perform_analysis] adds to it. *)
Definition chart (analysis : dict) (temps values temps_smooth values_smooth : list float)
    (outlier_mask : list bool) : list (string * entry) :=
  let result := map (fun kv => (fst kv, Value (snd kv))) analysis in
  let result := setitem result "temps_smooth" (Value (PyArray temps_smooth)) in
  let result := setitem result "values_smooth" (Value (PyArray values_smooth)) in
  let result := setitem result "temps_raw" (Value (PyArray temps)) in
  let result := setitem result "values_raw" (Value (PyArray values)) in
  let result := setitem result "outlier_mask" (BoolArray outlier_mask) in
  result.

(** ** The values of doubles *)

(** The power of two [2^e] as a rational. *)
Definition pow2 (e : Z) : Q := (2 ^ e)%Q.

(** The sign bit as a factor. *)
Definition sign (s : bool) : Q := if s then (-1)%Q else 1%Q.

(** The value [(-1)^s * m * 2^e] of the finite double of sign [s], mantissa
    [m] and exponent [e]. *)
Definition F2Q (s : bool) (m : positive) (e : Z) : Q :=
  (sign s * (inject_Z (Z.pos m) * pow2 e))%Q.

(** [x] is a zero or a normal double, its mantissa of 53 binary digits, and
    [v] is its value.  The infinities, NaN and the subnormal numbers have no
    value in this sense. *)
Definition repr (x : float) (v : Q) : Prop :=
  match x with
  | S754_zero _ => (v == 0)%Q
  | S754_finite s m e => Zdigits2 (Z.pos m) = 53 /\ (v == F2Q s m e)%Q
  | _ => False
  end.

(** The unit roundoff of binary64, [2^-53]. *)
Definition unit_roundoff : Q := 1 # 9007199254740992.

(** A multiple of [2^g]. *)
Definition on_grid (g : Z) (v : Q) : Prop :=
  exists k : Z, (v == inject_Z k * pow2 g)%Q.

(** A value that is zero or of magnitude between [2^L] and [2^H]. *)
Definition ranged (L H : Z) (x : Q) : Prop :=
  ((x == 0)%Q \/ (pow2 L <= Qabs x)%Q) /\ (Qabs x <= pow2 H)%Q.

(** ** Rounding to the nearest double *)

(** The place of a rational [y] between the integer [m] and its successor,
    as a location tells it: at [m], below the middle, at the middle, above
    the middle. *)
Definition loc_ok (m : Z) (l : location) (y : Q) : Prop :=
  match l with
  | loc_Exact => (y == inject_Z m)%Q
  | loc_Inexact Lt => (inject_Z m < y /\ y < inject_Z m + (1 # 2))%Q
  | loc_Inexact Eq => (y == inject_Z m + (1 # 2))%Q
  | loc_Inexact Gt => (inject_Z m + (1 # 2) < y /\ y < inject_Z m + 1)%Q
  end.

(** A positive number with its rounding [m * 2^e]: the mantissa has 53
    digits, and with [2^(D-1) <= X < 2^D] the rounding is a multiple of the
    unit in the last place [2^(D-53)], at most half a unit from [X]. *)
Definition rounded (m : positive) (e : Z) (X : Q) : Prop :=
  Zdigits2 (Z.pos m) = 53 /\
  exists D k : Z,
    (pow2 (D - 1) <= X)%Q /\ (X < pow2 D)%Q /\
    (inject_Z (Z.pos m) * pow2 e == inject_Z k * pow2 (D - 53))%Q /\
    (Qabs (inject_Z k * pow2 (D - 53) - X) <= pow2 (D - 54))%Q.

(** The magnitudes no operation underflows or overflows at. *)
Definition normal_range (X : Q) : Prop :=
  (pow2 (-1021) <= X)%Q /\ (X < pow2 1023)%Q.

(** [v] is [x] rounded to the nearest double: [x] itself when it is zero,
    and otherwise, with [2^(D-1) <= |x| < 2^D], a multiple of the unit in
    the last place [2^(D-53)] at most half a unit from [x]. *)
Definition rounds_to (v x : Q) : Prop :=
  ((x == 0)%Q /\ (v == 0)%Q) \/
  exists D k : Z,
    (pow2 (D - 1) <= Qabs x)%Q /\ (Qabs x < pow2 D)%Q /\
    (v == inject_Z k * pow2 (D - 53))%Q /\
    (Qabs (v - x) <= pow2 (D - 54))%Q.

(** Zero, or of a magnitude in the normal range. *)
Definition safe (x : Q) : Prop := (x == 0)%Q \/ normal_range (Qabs x).

(** ** Rounding errors *)

(** [v] approximates [x] with an error of at most [e] times the scale [M],
    which bounds [x]. *)
Definition near (e v x M : Q) : Prop :=
  (Qabs (v - x) <= e * M)%Q /\ (Qabs x <= M)%Q.

(** The error after one more rounding of a value known up to [e]. *)
Definition rnd (e : Q) : Q := (e + unit_roundoff * (1 + e))%Q.

(** The relative error of a product of two values known up to [e1] and
    [e2]. *)
Definition mulE (e1 e2 : Q) : Q := (e1 + e2 + e1 * e2)%Q.

(** The error of a quotient, its numerator known up to [e1] and its
    denominator up to [e2]. *)
Definition divE (e1 e2 : Q) : Q := ((e1 + e2) / (1 - e2))%Q.

(** ** The accuracy of the derivative *)

(** The data the accuracy statements are about: zero, or of magnitude
    between [2^-100] and [2^100]. *)
Definition moderate (x : Q) : Prop := ranged (-100) 100 x.

(** A double of the data and its value. *)
Definition datum (x : float) (v : Q) : Prop := repr x v /\ moderate v.

(** A spacing of the temperature axis as the program holds it: the rounded
    difference [v] of two temperatures [D] apart. *)
Definition spacing (dx : float) (v D : Q) : Prop :=
  repr dx v /\ ranged (-153) 102 v /\ near unit_roundoff v D D /\ (0 < D)%Q.

(** Temperatures at least [d] apart, in ascending order. *)
Fixpoint spaced (d : Q) (temps : list Q) : Prop :=
  match temps with
  | t0 :: ((t1 :: _) as temps') => (t0 + d <= t1)%Q /\ spaced d temps'
  | _ => True
  end.

(** The tolerance of the derivative: [2^-47] times the largest magnitude
    [F] of the values over the smallest spacing [d] of the temperatures. *)
Definition tolerance (F d : Q) : Q := (pow2 (-47) * (F / d))%Q.

(** The double [x] is finite and its value is within [tol] of [r]. *)
Definition within (tol : Q) (x : float) (r : Q) : Prop :=
  exists v, repr x v /\ (Qabs (v - r) <= tol)%Q.

(** ** Worked inputs *)

(** Three points on the line of slope 1 through [(0, 2^52)], at the
    temperatures 0, 6 and 7.  Every value is an integer below [2^53], hence
    a double: mantissa the integer, exponent 0. *)
Definition offset_temps : list float := map F64.of_Z [0; 6; 7].

Definition offset_values : list float :=
  [S754_finite false 4503599627370496 0;
   S754_finite false 4503599627370502 0;
   S754_finite false 4503599627370503 0].

(** Twelve points, flat but for one spike. *)
Definition spike_temps : list float :=
  map F64.of_Z [0; 1; 2; 3; 4; 5; 6; 7; 8; 9; 10; 11].

Definition spike_values : list float :=
  map F64.of_Z [0; 0; 0; 0; 0; 100; 0; 0; 0; 0; 0; 0].

Definition spike_cleaned : list float :=
  map F64.of_Z [0; 0; 0; 0; 0; 0; 0; 0; 0; 0; 0; 0].

Definition spike_mask : list bool :=
  [false; false; false; false; false; true;
   false; false; false; false; false; false].

(** A heap holding the two arrays of the spike, temperatures at location 0
    and values at location 1. *)
Definition spike_heap : Heap.heap := [spike_temps; spike_values].

(** Two [analyze_channel] calls in a row on the arrays of the spike:
    baselines over [0, 2] and [9, 11], a smoothing window of one sample, no
    offset, outlier window 5 and threshold 1.5. *)
Definition spike_run1 : result dict * Heap.heap :=
  Heap.analyze_channel scipy_ref 0%nat 1%nat (F64.of_Z 0, F64.of_Z 2)
    (F64.of_Z 9, F64.of_Z 11) (1, 0) 0 (5, F64.ratio 3 2) spike_heap.

Definition spike_run2 : result dict * Heap.heap :=
  Heap.analyze_channel scipy_ref 0%nat 1%nat (F64.of_Z 0, F64.of_Z 2)
    (F64.of_Z 9, F64.of_Z 11) (1, 0) 0 (5, F64.ratio 3 2) (snd spike_run1).

(** Thirteen points, flat but for one spike. *)
Definition long_temps : list float :=
  map F64.of_Z [0; 1; 2; 3; 4; 5; 6; 7; 8; 9; 10; 11; 12].

Definition long_values : list float :=
  map F64.of_Z [0; 0; 0; 0; 0; 0; 100; 0; 0; 0; 0; 0; 0].

(** Ten points of a step between two plateaus. *)
Definition step_temps : list float :=
  map F64.of_Z [0; 1; 2; 3; 4; 5; 6; 7; 8; 9].

Definition step_values : list float :=
  map F64.of_Z [1; 1; 1; 2; 4; 7; 9; 10; 10; 10].

(** [analyze_channel] on the step, baselines over [0, 2] and [7, 9], a
    smoothing window of one sample, no offset, the default outlier
    parameters. *)
Definition step_analysis : result dict :=
  analyze_channel scipy_ref step_temps step_values
    (F64.of_Z 0, F64.of_Z 2) (F64.of_Z 7, F64.of_Z 9) (1, 0) 0 (5, F64.of_Z 5).

(** What it returns: the tangent at 4 degrees has slope 2.5 and crosses the
    low plateau at 2.8 degrees and the high plateau at 6.4 degrees. *)
Definition step_result : dict :=
  [("As", PyFloat (F64.ratio 14 5));
   ("Af_tan", PyFloat (F64.ratio 32 5));
   ("max_slope_temp", PyFloat (F64.of_Z 4));
   ("low_baseline", PyTuple (F64.of_Z 0) (F64.of_Z 1));
   ("high_baseline", PyTuple (F64.of_Z 0) (F64.of_Z 10));
   ("tangent", PyTuple (F64.ratio 5 2) (F64.of_Z (-6)));
   ("outlier_count", PyInt 0)]%string.

(** The derivatives of the docstring of [find_max_slope_index]:
    [0.1, 0.5, 1.2, 0.8, 0.3]. *)
Definition doc_derivatives : list float :=
  [F64.ratio 1 10; F64.ratio 5 10; F64.ratio 12 10; F64.ratio 8 10; F64.ratio 3 10].

(** A measurement frame of fifteen rows: the first row is out of order, the
    temperature 0 is measured twice, channel 2 is empty and channels 3 to 6
    are not there. *)
Definition sample_df : DataFrame :=
  [("Temperature"%string,
    map F64.of_Z [26; 0; 0; 2; 4; 6; 8; 10; 12; 14; 16; 18; 20; 22; 24]);
   ("Space1"%string,
    map F64.of_Z [10; 0; 2; 1; 1; 1; 2; 4; 7; 9; 10; 10; 10; 10; 10]);
   ("Space2"%string, map (fun _ => F64.nan) (seq 0 15))].

(** Its channel 1 grouped by temperature: fourteen temperatures in order,
    the two values measured at 0 averaged. *)
Definition sample_temps : list float :=
  map F64.of_Z [0; 2; 4; 6; 8; 10; 12; 14; 16; 18; 20; 22; 24; 26].

Definition sample_values : list float :=
  map F64.of_Z [1; 1; 1; 1; 2; 4; 7; 9; 10; 10; 10; 10; 10; 10].

Definition sample_grouped : DataFrame :=
  [("Temperature"%string, sample_temps); ("Space1"%string, sample_values)].

(** A session with a smoothing window of one sample, and nothing else set:
    the baselines are fitted over [0, 5] and [20, 25], without offset. *)
Definition sample_session : st.session_state := {|
  st.smooth_window := Some 1;
  st.smooth_polyorder := Some 0;
  st.low_temp_range := None;
  st.high_temp_range := None;
  st.slope_offset := None
|}.

(** What [perform_analysis] returns for channel 1 of the sample frame: the
    tangent at 10 degrees has slope 1.25 and crosses the low plateau at 7.6
    degrees and the high plateau at 14.8 degrees. *)
Definition sample_chart : list (string * entry) :=
  [("As", Value (PyFloat (F64.ratio 38 5)));
   ("Af_tan", Value (PyFloat (F64.ratio 74 5)));
   ("max_slope_temp", Value (PyFloat (F64.of_Z 10)));
   ("low_baseline", Value (PyTuple (F64.of_Z 0) (F64.of_Z 1)));
   ("high_baseline", Value (PyTuple (F64.of_Z 0) (F64.of_Z 10)));
   ("tangent", Value (PyTuple (F64.ratio 5 4) (F64.ratio (-17) 2)));
   ("outlier_count", Value (PyInt 0));
   ("temps_smooth", Value (PyArray sample_temps));
   ("values_smooth", Value (PyArray sample_values));
   ("temps_raw", Value (PyArray sample_temps));
   ("values_raw", Value (PyArray sample_values));
   ("outlier_mask", BoolArray (map (fun _ => false) sample_temps))]%string.

(** Four temperatures, unequally spaced, as rationals and as doubles, with
    the values of the line [2 t + 5] and of the parabola [t^2] on them. *)
Definition grid_temps : list Q := [0; 1; 3; 7]%Q.
Definition grid_temps_f64 : list float := map F64.of_Z [0; 1; 3; 7].
Definition grid_line_f64 : list float := map F64.of_Z [5; 7; 11; 19].
Definition grid_parabola_f64 : list float := map F64.of_Z [0; 1; 9; 49].

(** Three equal values of magnitude [2^1020] at the temperatures 0,
    [2^-10] and [3 * 2^-10]. *)
Definition huge_temps : list float :=
  [F64.of_Z 0; F64.ratio 1 1024; F64.ratio 3 1024].

Definition huge_values : list float :=
  [F64.of_Z (2 ^ 1020); F64.of_Z (2 ^ 1020); F64.of_Z (2 ^ 1020)].

(** * Properties *)

(** ** Signs through rounding *)

Section Rounding.

Let prec := F64.prec.
Let emax := F64.emax.

Lemma shr_1_nonneg (mrs : shr_record) :
  0 <= shr_m mrs -> 0 <= shr_m (shr_1 mrs).
Proof.
  destruct mrs as [m r s]; simpl.
  destruct m as [|p|p]; simpl; try lia; destruct p; simpl; lia.
Qed.

Lemma iter_shr_1_nonneg (p : positive) :
  forall mrs, 0 <= shr_m mrs -> 0 <= shr_m (iter_pos shr_1 p mrs).
Proof.
  induction p as [p IH|p IH|]; intros mrs Hm; simpl.
  - apply IH, IH, shr_1_nonneg, Hm.
  - apply IH, IH, Hm.
  - apply shr_1_nonneg, Hm.
Qed.

Lemma shr_fexp_nonneg (m e : Z) (l : location) :
  0 <= m -> 0 <= shr_m (fst (shr_fexp prec emax m e l)).
Proof.
  intros Hm. unfold shr_fexp, shr.
  assert (H0 : 0 <= shr_m (shr_record_of_loc m l))
    by (destruct l as [|[]]; simpl; exact Hm).
  destruct (fexp prec emax (Zdigits2 m + e) - e); simpl; auto.
  apply iter_shr_1_nonneg, H0.
Qed.

Lemma round_nearest_even_nonneg (m : Z) (l : location) :
  0 <= m -> 0 <= round_nearest_even m l.
Proof.
  intros Hm. destruct l as [|[]]; simpl; try lia.
  destruct (Z.even m); lia.
Qed.

Lemma binary_round_aux_nonneg (m e : Z) (l : location) :
  0 <= m -> F64.is_nonneg (binary_round_aux prec emax false m e l) = true.
Proof.
  intros Hm. unfold binary_round_aux.
  pose proof (shr_fexp_nonneg m e l Hm) as H1.
  destruct (shr_fexp prec emax m e l) as [mrs' e']; simpl in H1.
  pose proof (shr_fexp_nonneg _ e' loc_Exact
                (round_nearest_even_nonneg _ (loc_of_shr_record mrs') H1)) as H2.
  destruct (shr_fexp prec emax _ e' loc_Exact) as [mrs'' e'']; simpl in H2.
  destruct (shr_m mrs'') as [|p|p]; [reflexivity| |lia].
  destruct (e'' <=? emax - prec); reflexivity.
Qed.

Lemma binary_round_nonneg (m : positive) (e : Z) :
  F64.is_nonneg (binary_round prec emax false m e) = true.
Proof.
  unfold binary_round.
  destruct (shl_align m e _) as [mz ez].
  apply binary_round_aux_nonneg; lia.
Qed.

End Rounding.

(** The product of two numbers with clear sign bits has a clear sign bit,
    unless it is NaN (infinity times zero). *)
Lemma mul_nonneg (x y : float) :
  F64.is_nonneg x = true -> F64.is_finite x = true ->
  F64.is_nonneg y = true -> F64.is_finite y = true ->
  F64.is_nonneg (F64.mul x y) = true.
Proof.
  destruct x as [[]|[]| |[] mx ex], y as [[]|[]| |[] my ey];
    simpl; try discriminate; intros _ _ _ _; try reflexivity.
  apply binary_round_aux_nonneg; lia.
Qed.

Lemma add_nonneg (x y : float) :
  F64.is_nonneg x = true -> F64.is_nonneg y = true ->
  F64.is_nonneg (F64.add x y) = true.
Proof.
  destruct x as [[]|[]| |[] mx ex], y as [[]|[]| |[] my ey];
    simpl; try discriminate; intros _ _; try reflexivity.
  unfold F64.add, SFadd.
  destruct (shl_align mx ex (Z.min ex ey)) as [mx' ex'].
  destruct (shl_align my ey (Z.min ex ey)) as [my' ey'].
  simpl. apply binary_round_nonneg.
Qed.

Lemma abs_nonneg (x : float) :
  F64.is_nan x = false -> F64.is_nonneg (F64.abs x) = true.
Proof. destruct x as [[]|[]| |[] m e]; simpl; congruence. Qed.

Lemma abs_finite (x : float) : F64.is_finite (F64.abs x) = F64.is_finite x.
Proof. destruct x as [[]|[]| |[] m e]; reflexivity. Qed.

Lemma finite_not_nan (x : float) : F64.is_finite x = true -> F64.is_nan x = false.
Proof. destruct x; simpl; congruence. Qed.

Lemma leb_zero_nonneg (x : float) :
  F64.is_nonneg x = true -> F64.leb F64.zero x = true.
Proof. destruct x as [[]|[]| |[] m e]; simpl; try discriminate; reflexivity. Qed.

(** Only a zero compares equal to zero. *)
Lemma eqb_zero_inv (x : float) :
  F64.eqb x F64.zero = true -> exists s, x = S754_zero s.
Proof.
  destruct x as [s|[]| |[] m e]; simpl; try discriminate.
  intros _. exists s. reflexivity.
Qed.

(** A difference is a zero only between two finite numbers. *)
Lemma sub_zero_finite (a b : float) (s : bool) :
  F64.sub a b = S754_zero s -> F64.is_finite a = true /\ F64.is_finite b = true.
Proof.
  destruct a as [[]|[]| |sa ma ea], b as [[]|[]| |sb mb eb];
    simpl; try discriminate; auto.
Qed.

(** The tolerance of [np.isclose] is never below zero. *)
Lemma tolerance_nonneg (b : float) :
  F64.is_finite b = true ->
  F64.is_nonneg (F64.add np.atol (F64.mul np.rtol (F64.abs b))) = true.
Proof.
  intros Hb. apply add_nonneg; [reflexivity|].
  apply mul_nonneg; try reflexivity.
  - apply abs_nonneg, finite_not_nan, Hb.
  - rewrite abs_finite. exact Hb.
Qed.

(** Two slopes whose difference is a zero are close. *)
Lemma isclose_of_sub_zero (a b : float) :
  F64.eqb (F64.sub a b) F64.zero = true -> np.isclose a b = true.
Proof.
  intros H. apply eqb_zero_inv in H. destruct H as [s Hs].
  destruct (sub_zero_finite a b s Hs) as [Ha Hb].
  unfold np.isclose. rewrite Ha, Hb, Hs. simpl andb. cbv iota.
  apply (leb_zero_nonneg _ (tolerance_nonneg b Hb)).
Qed.

(** Equal slopes are close: their difference is a zero, or both are the same
    infinity. *)
Lemma isclose_of_eqb (a b : float) :
  F64.eqb a b = true -> np.isclose a b = true.
Proof.
  intros H.
  destruct a as [sa|sa| |sa ma ea], b as [sb|sb| |sb mb eb];
    try discriminate H;
    try (destruct sa; discriminate H); try (destruct sb; discriminate H).
  - destruct sa, sb; reflexivity.
  - unfold np.isclose. simpl. exact H.
  - apply isclose_of_sub_zero.
    assert (E : sa = sb /\ ea = eb /\ ma = mb).
    { unfold F64.eqb, SFeqb, SFcompare in H.
      destruct sa, sb; try discriminate H;
        destruct (ea ?= eb) eqn:He; try discriminate H;
        destruct (Pos.compare_cont Eq ma mb) eqn:Hm; try discriminate H;
        apply Z.compare_eq in He; apply Pos.compare_eq in Hm; auto. }
    destruct E as (-> & -> & ->).
    unfold F64.sub, SFsub. rewrite Z.sub_diag. reflexivity.
Qed.

(** On the division branch the divisor is not a zero. *)
Lemma divisor_nonzero (slope1 slope2 : float) :
  np.isclose slope1 slope2 = false ->
  F64.eqb (F64.sub slope1 slope2) F64.zero = false.
Proof.
  intros H. destruct (F64.eqb (F64.sub slope1 slope2) F64.zero) eqn:E; [|reflexivity].
  apply isclose_of_sub_zero in E. congruence.
Qed.

(** ** The intersection solver *)

(** C4. [find_intersection] returns [(intercept2 - intercept1) / (slope1 -
    slope2)] when the slopes are not close in the sense of [np.isclose], and
    NaN, not an exception, when they are; [find_intersection(2, 10, -1, 25)]
    is 5.0 and [find_intersection(2, 10, 2, 20)] is NaN. *)
Theorem find_intersection_spec (slope1 intercept1 slope2 intercept2 : float) :
  (np.isclose slope1 slope2 = false ->
   find_intersection slope1 intercept1 slope2 intercept2 =
     Ok (F64.div (F64.sub intercept2 intercept1) (F64.sub slope1 slope2))) /\
  (np.isclose slope1 slope2 = true ->
   find_intersection slope1 intercept1 slope2 intercept2 = Ok F64.nan) /\
  find_intersection (F64.of_Z 2) (F64.of_Z 10) (F64.of_Z (-1)) (F64.of_Z 25)
    = Ok (F64.of_Z 5) /\
  find_intersection (F64.of_Z 2) (F64.of_Z 10) (F64.of_Z 2) (F64.of_Z 20)
    = Ok F64.nan.
Proof.
  unfold find_intersection at 1 2. repeat split.
  - intros H. rewrite H. unfold truediv.
    rewrite (divisor_nonzero _ _ H). reflexivity.
  - intros H. rewrite H. reflexivity.
Qed.

Lemma find_intersection_spec_witness :
  np.isclose (F64.of_Z 3) (F64.of_Z 1) = false /\
  find_intersection (F64.of_Z 3) (F64.of_Z 4) (F64.of_Z 1) (F64.of_Z 10)
    = Ok (F64.of_Z 3) /\
  np.isclose (F64.of_Z 1) (F64.ratio 1000001 1000000) = true /\
  find_intersection (F64.of_Z 1) (F64.of_Z 4) (F64.ratio 1000001 1000000) (F64.of_Z 10)
    = Ok F64.nan.
Proof.
  pose proof (find_intersection_spec (F64.of_Z 3) (F64.of_Z 4) (F64.of_Z 1) (F64.of_Z 10))
    as (H1 & _).
  pose proof (find_intersection_spec (F64.of_Z 1) (F64.of_Z 4)
                (F64.ratio 1000001 1000000) (F64.of_Z 10)) as (_ & H2 & _).
  split; [reflexivity|]. split; [rewrite (H1 eq_refl); reflexivity|].
  split; [reflexivity|]. exact (H2 eq_refl).
Defined.

(** C9. [find_intersection] raises on no input, finite or not: it returns a
    double.  The division is guarded: where the slopes are not close their
    difference is not a zero, and slopes that compare equal are close. *)
Theorem find_intersection_total (slope1 intercept1 slope2 intercept2 : float) :
  (exists x, find_intersection slope1 intercept1 slope2 intercept2 = Ok x) /\
  (np.isclose slope1 slope2 = false ->
   F64.eqb (F64.sub slope1 slope2) F64.zero = false) /\
  (F64.eqb slope1 slope2 = true -> np.isclose slope1 slope2 = true).
Proof.
  split; [|split].
  - unfold find_intersection.
    destruct (np.isclose slope1 slope2) eqn:H; [eexists; reflexivity|].
    unfold truediv. rewrite (divisor_nonzero _ _ H). eexists; reflexivity.
  - apply divisor_nonzero.
  - apply isclose_of_eqb.
Qed.

Lemma find_intersection_total_witness :
  F64.eqb (F64.sub (F64.of_Z 2) (F64.of_Z (-1))) F64.zero = false /\
  np.isclose (F64.of_Z 2) (F64.of_Z 2) = true.
Proof.
  pose proof (find_intersection_total (F64.of_Z 2) (F64.of_Z 10) (F64.of_Z (-1)) (F64.of_Z 25))
    as (_ & H1 & _).
  pose proof (find_intersection_total (F64.of_Z 2) (F64.of_Z 10) (F64.of_Z 2) (F64.of_Z 20))
    as (_ & _ & H2).
  split; [exact (H1 eq_refl) | exact (H2 eq_refl)].
Defined.

(** ** Arrays: lengths and entries *)

Lemma length_mapi_from {A B : Type} (f : Z -> A -> B) (l : list A) :
  forall i, List.length (mapi_from f i l) = List.length l.
Proof. induction l as [|x l IH]; intros i; simpl; [reflexivity|]. now rewrite IH. Qed.

Lemma length_mapi {A B : Type} (f : Z -> A -> B) (l : list A) :
  List.length (mapi f l) = List.length l.
Proof. apply length_mapi_from. Qed.

Lemma length_map2 {A B C : Type} (f : A -> B -> C) (l : list A) :
  forall m, List.length (map2 f l m) = Nat.min (List.length l) (List.length m).
Proof.
  induction l as [|x l IH]; intros [|y m]; simpl; try reflexivity.
  now rewrite IH.
Qed.

Lemma length_update {A : Type} (a : list A) :
  forall i v, List.length (update a i v) = List.length a.
Proof.
  induction a as [|x a IH]; intros [|i] v; simpl; try reflexivity.
  now rewrite IH.
Qed.

Lemma length_assign {A : Type} (idx : list Z) :
  forall (a vs : list A), List.length (assign a idx vs) = List.length a.
Proof.
  induction idx as [|i idx IH]; intros a [|v vs]; simpl; try reflexivity.
  now rewrite IH, length_update.
Qed.

Lemma nth_update_other {A : Type} (d : A) (a : list A) :
  forall i j v, i <> j -> nth j (update a i v) d = nth j a d.
Proof.
  induction a as [|x a IH]; intros [|i] [|j] v Hij; simpl; try reflexivity.
  - congruence.
  - apply IH. congruence.
Qed.

(** An assignment leaves the entries outside the index array alone. *)
Lemma nth_assign_other {A : Type} (d : A) (j : nat) (idx : list Z) :
  forall (a vs : list A),
    (forall k, In k idx -> Z.to_nat k <> j) ->
    nth j (assign a idx vs) d = nth j a d.
Proof.
  induction idx as [|i idx IH]; intros a [|v vs] Hj; simpl; try reflexivity.
  rewrite IH by (intros k Hk; apply Hj; now right).
  apply nth_update_other, Hj. now left.
Qed.

Lemma last_In {A : Type} (d : A) (l : list A) : l <> [] -> In (last l d) l.
Proof.
  induction l as [|x l IH]; [congruence|]. intros _.
  destruct l as [|y l]; [now left|].
  right. apply IH. discriminate.
Qed.

Lemma length_set_head {A : Type} (b : Z) (v : A) (a : list A) :
  List.length (set_head b v a) = List.length a.
Proof. apply length_mapi. Qed.

Lemma length_set_tail {A : Type} (b : Z) (v : A) (a : list A) :
  List.length (set_tail b v a) = List.length a.
Proof. apply length_mapi. Qed.

Lemma length_set_where {A : Type} (mask : list bool) (v : A) (a : list A) :
  List.length (set_where mask v a) = Nat.min (List.length mask) (List.length a).
Proof. apply length_map2. Qed.

Lemma length_range (n : nat) : List.length (range n) = n.
Proof. unfold range. now rewrite length_map, length_seq. Qed.

Lemma length_rolling_median (window min_periods : Z) (values : list float) :
  List.length (pd.rolling_median window min_periods values) = List.length values.
Proof. unfold pd.rolling_median. now rewrite length_map, length_range. Qed.

Lemma nth_map2_orb (a : list bool) :
  forall b j, List.length a = List.length b ->
    nth j (map2 orb a b) false = nth j a false || nth j b false.
Proof.
  induction a as [|x a IH]; intros [|y b] j Hl; simpl in *; try discriminate.
  - now destruct j.
  - destruct j; [reflexivity|]. apply IH. congruence.
Qed.

Lemma select_seq_true (mask : list bool) :
  forall s k, In k (select mask (map Z.of_nat (seq s (List.length mask)))) ->
    exists j, k = Z.of_nat (s + j) /\ nth j mask false = true.
Proof.
  induction mask as [|b mask IH]; intros s k Hk; simpl in Hk; [contradiction|].
  assert (Htl : In k (select mask (map Z.of_nat (seq (S s) (List.length mask)))) ->
                exists j, k = Z.of_nat (s + j) /\ nth j (b :: mask) false = true).
  { intros H. destruct (IH _ _ H) as (j & -> & Hj).
    exists (S j). split; [f_equal; lia | exact Hj]. }
  destruct b.
  - destruct Hk as [<-|Hk]; [|auto].
    exists 0%nat. split; [f_equal; lia | reflexivity].
  - auto.
Qed.

(** The indices [np.where] returns are those of the true entries. *)
Lemma where_true (mask : list bool) (k : Z) :
  In k (np.where_ mask) -> nth (Z.to_nat k) mask false = true.
Proof.
  intros H. destruct (select_seq_true mask 0 k H) as (j & -> & Hj).
  now rewrite Nat2Z.id.
Qed.

(** ** The outlier detector *)

(** What one pass does to the state: the mask grows by [new_mask], and the
    working values change at most where the grown mask is set. *)
Lemma outlier_pass_shape (window : Z) (threshold : float) (values : list float)
    (st st' : outlier_state) :
  List.length (working_values st) = List.length values ->
  List.length (combined_mask st) = List.length values ->
  outlier_pass window threshold values st = Some st' ->
  exists new_mask vals,
    List.length new_mask = List.length values /\
    combined_mask st' = map2 orb (combined_mask st) new_mask /\
    (working_values st' = working_values st \/
     working_values st' =
       assign (working_values st) (np.where_ (combined_mask st')) vals).
Proof.
  intros Hw Hc. unfold outlier_pass. cbv zeta.
  set (deviations := map2 (fun v m => F64.abs (F64.sub v m)) (working_values st) _).
  set (boundary := Z.max (window / 2) 3).
  destruct (len _ =? 0); [discriminate|].
  set (thr := F64.mul threshold _).
  set (new_mask := set_where (combined_mask st) false _).
  destruct (negb (np.any new_mask)); [discriminate|].
  intros [= <-]. simpl.
  exists new_mask. eexists. split; [|split; [reflexivity|]].
  - unfold new_mask. rewrite length_set_where, length_set_tail, length_set_head.
    rewrite length_map. unfold deviations.
    rewrite length_map2, length_rolling_median. lia.
  - destruct (2 <=? len _); [right; reflexivity | left; reflexivity].
Qed.

Lemma outlier_pass_inv (window : Z) (threshold : float) (values : list float)
    (st st' : outlier_state) :
  outlier_inv values st ->
  outlier_pass window threshold values st = Some st' ->
  outlier_inv values st'.
Proof.
  intros (Hw & Hc & Hv) Hp.
  destruct (outlier_pass_shape _ _ _ _ _ Hw Hc Hp) as (new_mask & vals & Hn & Hm & Hs).
  assert (Hc' : List.length (combined_mask st') = List.length values)
    by (rewrite Hm, length_map2; lia).
  assert (Hold : forall j, nth j (combined_mask st') false = false ->
                           nth j (combined_mask st) false = false).
  { intros j Hj. rewrite Hm, nth_map2_orb in Hj by congruence.
    now apply orb_false_iff in Hj. }
  split; [|split; [exact Hc'|]].
  - destruct Hs as [-> | ->]; [exact Hw | now rewrite length_assign].
  - intros j Hj. destruct Hs as [-> | ->]; [apply Hv, Hold, Hj|].
    rewrite nth_assign_other; [apply Hv, Hold, Hj|].
    intros k Hk E. apply where_true in Hk. congruence.
Qed.

Lemma outlier_loop_inv (iterations : nat) (window : Z) (threshold : float)
    (values : list float) :
  forall st, outlier_inv values st ->
             outlier_inv values (outlier_loop iterations window threshold values st).
Proof.
  induction iterations as [|k IH]; intros st Hst; simpl; [exact Hst|].
  destruct (outlier_pass window threshold values st) as [st'|] eqn:Hp; [|exact Hst].
  apply IH. eapply outlier_pass_inv; eassumption.
Qed.

Lemma nth_all_false {A : Type} (l : list A) (j : nat) :
  nth j (map (fun _ => false) l) false = false.
Proof. revert j. induction l as [|x l IH]; intros [|j]; simpl; auto. Qed.

Lemma outlier_inv_init (values : list float) :
  outlier_inv values {| working_values := values;
                        combined_mask := map (fun _ => false) values |}.
Proof. repeat split; simpl; auto using length_map. Qed.

(** Whatever [remove_outliers] returns satisfies the invariant, and the
    temperatures are those it was given. *)
Lemma remove_outliers_inv (temps values : list float) (window : Z)
    (threshold : float) (max_iterations : Z)
    (temps_clean values_clean : list float) (outlier_mask : list bool) :
  remove_outliers temps values window threshold max_iterations
    = Ok (temps_clean, values_clean, outlier_mask) ->
  temps_clean = temps /\
  List.length temps = List.length values /\
  outlier_inv values {| working_values := values_clean;
                        combined_mask := outlier_mask |}.
Proof.
  unfold remove_outliers.
  destruct (len temps =? len values) eqn:Hl; simpl; [|discriminate].
  apply Z.eqb_eq in Hl. unfold len in Hl. apply Nat2Z.inj in Hl.
  destruct (len values <? window + 2).
  - intros [= <- <- <-]. auto using outlier_inv_init.
  - intros [= <- <- <-]. split; [reflexivity|]. split; [exact Hl|].
    match goal with
    | |- outlier_inv _ {| working_values := working_values ?s; combined_mask := _ |} =>
        assert (H : outlier_inv values s) by apply outlier_loop_inv, outlier_inv_init;
        exact H
    end.
Qed.

(** C10. [remove_outliers] returns the temperatures it was given, and a
    value differs from the input value only where the returned mask is
    set. *)
Theorem remove_outliers_frame (temps values : list float) (window : Z)
    (threshold : float) (max_iterations : Z)
    (temps_clean values_clean : list float) (outlier_mask : list bool) :
  remove_outliers temps values window threshold max_iterations
    = Ok (temps_clean, values_clean, outlier_mask) ->
  temps_clean = temps /\
  forall i, (i < List.length values)%nat ->
            nth i outlier_mask false = false ->
            nth_error values_clean i = nth_error values i.
Proof.
  intros H. apply remove_outliers_inv in H. destruct H as (Ht & _ & Hw & Hc & Hv).
  split; [exact Ht|]. intros i Hi Hm. simpl in *.
  rewrite (nth_error_nth' values_clean F64.nan) by lia.
  rewrite (nth_error_nth' values F64.nan) by lia.
  f_equal. apply Hv, Hm.
Qed.

Lemma remove_outliers_frame_witness :
  spike_temps = spike_temps /\
  forall i, (i < List.length spike_values)%nat ->
            nth i spike_mask false = false ->
            nth_error spike_cleaned i = nth_error spike_values i.
Proof.
  apply (remove_outliers_frame spike_temps spike_values 5 (F64.ratio 3 2) 3).
  vm_compute. reflexivity.
Defined.




(** ** The smoother *)

Lemma smooth_data_length (sp : SciPy) (temps values : list float)
    (window_length polyorder : Z) (temps_smooth values_smooth : list float) :
  (forall x w p y, savgol_filter sp x w p = Some y -> List.length y = List.length x) ->
  smooth_data sp temps values window_length polyorder
    = Ok (temps_smooth, values_smooth) ->
  List.length temps_smooth = List.length temps /\
  List.length values_smooth = List.length values.
Proof.
  intros Hsp. unfold smooth_data.
  destruct (len temps =? len values) eqn:Hl; simpl; [|discriminate].
  apply Z.eqb_eq in Hl. unfold len in Hl. apply Nat2Z.inj in Hl.
  destruct (len temps =? 0) eqn:H0.
  - intros [= <- <-]. apply Z.eqb_eq in H0. unfold len in H0.
    simpl. lia.
  - destruct (_ <=? polyorder); [discriminate|].
    destruct (len values <? _); [discriminate|].
    destruct (savgol_filter sp values _ polyorder) as [y|] eqn:Hy; simpl; [|discriminate].
    intros [= <- <-]. split; [reflexivity|]. eapply Hsp, Hy.
Qed.

(** C2. Neither outlier removal nor smoothing changes the number of points:
    the cleaned series has the length of the input series, and so has the
    smoothed series whenever [smooth_data] accepts the cleaned one, the
    Savitzky-Golay filter of scipy returning an array of the shape of its
    input. *)
Theorem pipeline_lengths (sp : SciPy) (temps values : list float) (window : Z)
    (threshold : float) (max_iterations : Z)
    (temps_clean values_clean : list float) (outlier_mask : list bool) :
  (forall x w p y, savgol_filter sp x w p = Some y -> List.length y = List.length x) ->
  remove_outliers temps values window threshold max_iterations
    = Ok (temps_clean, values_clean, outlier_mask) ->
  List.length temps = List.length values /\
  List.length temps_clean = List.length values /\
  List.length values_clean = List.length values /\
  List.length outlier_mask = List.length values /\
  forall window_length polyorder temps_smooth values_smooth,
    smooth_data sp temps_clean values_clean window_length polyorder
      = Ok (temps_smooth, values_smooth) ->
    List.length temps_smooth = List.length values /\
    List.length values_smooth = List.length values.
Proof.
  intros Hsp Hr.
  apply remove_outliers_inv in Hr. destruct Hr as (-> & Hl & Hw & Hc & _).
  simpl in *. do 4 (split; [congruence|]).
  intros window_length polyorder temps_smooth values_smooth Hs.
  destruct (smooth_data_length _ _ _ _ _ _ _ Hsp Hs) as (Hts & Hvs).
  split; congruence.
Qed.

Lemma one_point_filter_length (x : list float) (w p : Z) (y : list float) :
  one_point_filter x w p = Some y -> List.length y = List.length x.
Proof.
  unfold one_point_filter. destruct (_ && _); [|discriminate].
  now intros [= <-].
Qed.

Lemma pipeline_lengths_witness :
  List.length spike_temps = List.length spike_values /\
  List.length spike_temps = List.length spike_values /\
  List.length spike_cleaned = List.length spike_values /\
  List.length spike_mask = List.length spike_values /\
  forall window_length polyorder temps_smooth values_smooth,
    smooth_data scipy_ref spike_temps spike_cleaned window_length polyorder
      = Ok (temps_smooth, values_smooth) ->
    List.length temps_smooth = List.length spike_values /\
    List.length values_smooth = List.length spike_values.
Proof.
  apply (pipeline_lengths scipy_ref spike_temps spike_values 5 (F64.ratio 3 2) 3).
  - exact one_point_filter_length.
  - vm_compute. reflexivity.
Defined.

(** The smoother accepts the cleaned spike with a window of one sample. *)
Lemma smooth_data_spike :
  smooth_data scipy_ref spike_temps spike_cleaned 1 0
    = Ok (spike_temps, spike_cleaned).
Proof. vm_compute. reflexivity. Qed.

(** C5. An even [window_length] behaves as the next odd integer.  On a
    non-empty series [smooth_data] raises its invalid-parameter error
    exactly when the corrected window is at most the polynomial order or
    longer than the data.  An empty series gives an empty result whatever
    the parameters. *)
Theorem smooth_data_validation (sp : SciPy) (temps values : list float)
    (window_length polyorder : Z) :
  (window_length mod 2 = 0 ->
   smooth_data sp temps values window_length polyorder
     = smooth_data sp temps values (window_length + 1) polyorder) /\
  (len temps = len values -> 0 < len values ->
   let corrected :=
     if window_length mod 2 =? 0 then window_length + 1 else window_length in
   smooth_data sp temps values window_length polyorder = raise InvalidParameter
   <-> corrected <= polyorder \/ len values < corrected) /\
  smooth_data sp [] [] window_length polyorder = Ok ([], []).
Proof.
  split; [|split; [|reflexivity]].
  - intros Hev. unfold smooth_data.
    replace ((window_length + 1) mod 2) with 1
      by (rewrite Z.add_mod, Hev by lia; reflexivity).
    rewrite Hev. reflexivity.
  - intros Hl Hn corrected. unfold smooth_data. fold corrected.
    apply Z.eqb_eq in Hl. rewrite Hl. apply Z.eqb_eq in Hl. simpl.
    replace (len temps =? 0) with false by (symmetry; apply Z.eqb_neq; lia).
    destruct (corrected <=? polyorder) eqn:Hp.
    + apply Z.leb_le in Hp. split; auto.
    + apply Z.leb_gt in Hp.
      destruct (len values <? corrected) eqn:Hd.
      * apply Z.ltb_lt in Hd. split; auto.
      * apply Z.ltb_ge in Hd. split; [|lia].
        destruct (savgol_filter sp values corrected polyorder); simpl; discriminate.
Qed.

Lemma smooth_data_validation_witness :
  smooth_data scipy_ref step_temps step_values 10 2
    = smooth_data scipy_ref step_temps step_values 11 2 /\
  (smooth_data scipy_ref step_temps step_values 10 2 = raise InvalidParameter
   <-> 11 <= 2 \/ len step_values < 11).
Proof.
  pose proof (smooth_data_validation scipy_ref step_temps step_values 10 2)
    as (H1 & H2 & _).
  split; [exact (H1 eq_refl) | exact (H2 eq_refl eq_refl)].
Defined.

(** ** The order of doubles *)

Ltac compare_cases :=
  repeat match goal with
  | |- context [Pos.compare_cont Eq ?a ?b] =>
      change (Pos.compare_cont Eq a b) with (Pos.compare a b);
      destruct (Pos.compare_spec a b)
  | |- context [Z.compare ?a ?b] => destruct (Z.compare_spec a b)
  end; simpl; try reflexivity; try discriminate; try lia.

(** Of two numbers, the second is below the first when the first is not at
    most the second. *)
Lemma leb_total (x y : float) :
  F64.is_nan x = false -> F64.is_nan y = false ->
  F64.leb x y = false -> F64.ltb y x = true.
Proof.
  unfold F64.leb, F64.ltb, SFleb, SFltb.
  destruct x as [[]|[]| |[] mx ex], y as [[]|[]| |[] my ey];
    simpl; try discriminate; try reflexivity; intros _ _; compare_cases.
Qed.

Lemma ltb_leb (x y : float) : F64.ltb x y = true -> F64.leb x y = true.
Proof.
  unfold F64.leb, F64.ltb, SFleb, SFltb.
  destruct (SFcompare x y) as [[]|]; congruence.
Qed.

Lemma leb_ltb_trans (a b c : float) :
  F64.leb a b = true -> F64.ltb b c = true -> F64.ltb a c = true.
Proof.
  unfold F64.leb, F64.ltb, SFleb, SFltb.
  destruct a as [[]|[]| |[] ma ea], b as [[]|[]| |[] mb eb], c as [[]|[]| |[] mc ec];
    simpl; try discriminate; try reflexivity; compare_cases.
Qed.

(** ** The max-slope locator *)

Lemma argmax_from_spec (l : list float) :
  forall mp best i,
    F64.is_nan mp = false ->
    Forall (fun y => F64.is_nan y = false) l ->
    (np.argmax_from mp best i l = best /\
     Forall (fun y => F64.leb y mp = true) l) \/
    (exists l1 x l2,
        l = l1 ++ x :: l2 /\
        np.argmax_from mp best i l = i + len l1 /\
        F64.ltb mp x = true /\
        Forall (fun y => F64.ltb y x = true) l1 /\
        Forall (fun y => F64.leb y x = true) l2).
Proof.
  induction l as [|y l IH]; intros mp best i Hmp Hl; simpl.
  - left. split; [reflexivity | constructor].
  - inversion Hl as [|? ? Hy Hl']; subst.
    destruct (F64.leb y mp) eqn:Hle.
    + destruct (IH mp best (i + 1) Hmp Hl')
        as [(Hk & Hall) | (l1 & x & l2 & -> & Hk & Hx & H1 & H2)].
      * left. split; [exact Hk | constructor; assumption].
      * right. exists (y :: l1), x, l2. repeat split; auto.
        -- rewrite Hk. unfold len. simpl List.length. lia.
        -- constructor; [eapply leb_ltb_trans; eassumption | exact H1].
    + rewrite Hy.
      assert (Hlt : F64.ltb mp y = true) by (apply leb_total; assumption).
      destruct (IH y i (i + 1) Hy Hl')
        as [(Hk & Hall) | (l1 & x & l2 & -> & Hk & Hx & H1 & H2)].
      * right. exists [], y, l. repeat split; auto.
        rewrite Hk. unfold len. simpl. lia.
      * right. exists (y :: l1), x, l2. repeat split; auto.
        -- rewrite Hk. unfold len. simpl List.length. lia.
        -- eapply leb_ltb_trans; [apply ltb_leb|]; eassumption.
Qed.

(** [np.argmax] of an array without NaN splits it around its first maximum:
    everything before is smaller, nothing after is larger. *)
Lemma argmax_spec (a : list float) :
  a <> [] ->
  Forall (fun y => F64.is_nan y = false) a ->
  exists pre x post,
    a = pre ++ x :: post /\
    np.argmax a = len pre /\
    Forall (fun y => F64.ltb y x = true) pre /\
    Forall (fun y => F64.leb y x = true) post.
Proof.
  destruct a as [|x0 a]; [congruence|]. intros _ Ha.
  inversion Ha as [|? ? H0 Ha']; subst. simpl. rewrite H0.
  destruct (argmax_from_spec a x0 0 1 H0 Ha')
    as [(Hk & Hall) | (l1 & x & l2 & -> & Hk & Hx & H1 & H2)].
  - exists [], x0, a. repeat split; auto.
  - exists (x0 :: l1), x, l2. repeat split; auto.
    rewrite Hk. unfold len. simpl List.length. lia.
Qed.

(** C7. [find_max_slope_index] raises on an empty array.  On an array
    without NaN it finds the first entry of maximal absolute value: every
    entry before it is smaller in absolute value, none after it is larger;
    the result is its index plus the offset, clipped into [0, n-1].  On
    [0.1, 0.5, 1.2, 0.8, 0.3] the offsets 0, 1, 10 and -10 give 2, 3, 4 and
    0. *)
Theorem find_max_slope_index_spec (derivatives : list float) (offset : Z) :
  find_max_slope_index [] offset = raise EmptyInput /\
  (derivatives <> [] ->
   Forall (fun d => F64.is_nan d = false) derivatives ->
   exists pre d post,
     derivatives = pre ++ d :: post /\
     Forall (fun y => F64.ltb (F64.abs y) (F64.abs d) = true) pre /\
     Forall (fun y => F64.leb (F64.abs y) (F64.abs d) = true) post /\
     find_max_slope_index derivatives offset
       = Ok (Z.max 0 (Z.min (len pre + offset) (len derivatives - 1))) /\
     0 <= Z.max 0 (Z.min (len pre + offset) (len derivatives - 1))
       <= len derivatives - 1) /\
  find_max_slope_index doc_derivatives 0 = Ok 2 /\
  find_max_slope_index doc_derivatives 1 = Ok 3 /\
  find_max_slope_index doc_derivatives 10 = Ok 4 /\
  find_max_slope_index doc_derivatives (-10) = Ok 0.
Proof.
  split; [reflexivity|]. split; [|repeat split].
  intros Hne Hnan.
  destruct (argmax_spec (map F64.abs derivatives)) as (pre' & x & post' & Hsplit & Hk & H1 & H2).
  - destruct derivatives; [congruence | discriminate].
  - apply Forall_map. eapply Forall_impl; [|exact Hnan].
    intros d Hd. destruct d; simpl in *; congruence.
  - apply map_eq_app in Hsplit. destruct Hsplit as (pre & rest & -> & <- & Hrest).
    destruct rest as [|d post]; [discriminate|]. injection Hrest as <- <-.
    exists pre, d, post. split; [reflexivity|].
    split; [now apply Forall_map in H1|]. split; [now apply Forall_map in H2|].
    assert (Hlen : 0 < len (pre ++ d :: post))
      by (unfold len; rewrite length_app; simpl; lia).
    split.
    + unfold find_max_slope_index.
      replace (len (pre ++ d :: post) =? 0) with false
        by (symmetry; apply Z.eqb_neq; lia).
      rewrite Hk. unfold len at 1. rewrite length_map. reflexivity.
    + lia.
Qed.

Lemma find_max_slope_index_spec_witness :
  exists pre d post,
    doc_derivatives = pre ++ d :: post /\
    Forall (fun y => F64.ltb (F64.abs y) (F64.abs d) = true) pre /\
    Forall (fun y => F64.leb (F64.abs y) (F64.abs d) = true) post /\
    find_max_slope_index doc_derivatives 1
      = Ok (Z.max 0 (Z.min (len pre + 1) (len doc_derivatives - 1))) /\
    0 <= Z.max 0 (Z.min (len pre + 1) (len doc_derivatives - 1))
      <= len doc_derivatives - 1.
Proof.
  pose proof (find_max_slope_index_spec doc_derivatives 1) as (_ & H & _).
  apply H.
  - discriminate.
  - repeat constructor.
Defined.

(** ** The orchestrator *)

Ltac step_bind :=
  match goal with
  | |- context [bind ?r _] =>
      let E := fresh "E" in
      destruct r as [?|?] eqn:E; simpl bind; [|discriminate]
  | |- context [let '(_, _) := ?p in _] => destruct p
  | |- context [if ?b then raise _ else _] => destruct b; [discriminate|]
  end.

(** C1, as amended.  The dictionary [analyze_channel] returns has exactly
    seven entries: the two intersection temperatures, the max-slope
    temperature, the two baselines and the tangent as (slope, intercept)
    pairs, and the outlier count, which is the number of set entries of the
    mask of [remove_outliers].  No entry is an array: the cleaned and the
    smoothed series are not part of it. *)
Theorem analyze_channel_result (sp : SciPy) (temps values : list float)
    (low_range high_range : float * float) (smooth_params : Z * Z)
    (slope_offset : Z) (outlier_params : Z * float) (r : dict) :
  analyze_channel sp temps values low_range high_range smooth_params
    slope_offset outlier_params = Ok r ->
  (exists As Af_tan max_slope_temp low_slope low_intercept high_slope
          high_intercept tangent_slope tangent_intercept
          temps_clean values_clean outlier_mask,
      r = [("As", PyFloat As);
           ("Af_tan", PyFloat Af_tan);
           ("max_slope_temp", PyFloat max_slope_temp);
           ("low_baseline", PyTuple low_slope low_intercept);
           ("high_baseline", PyTuple high_slope high_intercept);
           ("tangent", PyTuple tangent_slope tangent_intercept);
           ("outlier_count", PyInt (np.count outlier_mask))]%string /\
      remove_outliers temps values (fst outlier_params) (snd outlier_params) 3
        = Ok (temps_clean, values_clean, outlier_mask)) /\
  existsb is_array (map snd r) = false.
Proof.
  unfold analyze_channel. destruct outlier_params as [outlier_window outlier_threshold].
  destruct smooth_params as [window_length polyorder].
  destruct low_range as [low_t_start low_t_end].
  destruct high_range as [high_t_start high_t_end].
  do 2 step_bind.
  destruct (remove_outliers _ _ _ _ _) as [[[temps_clean values_clean] outlier_mask]|]
    eqn:Hro; simpl bind; [|discriminate].
  repeat step_bind.
  intros [= <-]. split; [|reflexivity].
  repeat eexists.
Qed.

Lemma analyze_channel_result_witness :
  (exists As Af_tan max_slope_temp low_slope low_intercept high_slope
          high_intercept tangent_slope tangent_intercept
          temps_clean values_clean outlier_mask,
      step_result
        = [("As", PyFloat As);
           ("Af_tan", PyFloat Af_tan);
           ("max_slope_temp", PyFloat max_slope_temp);
           ("low_baseline", PyTuple low_slope low_intercept);
           ("high_baseline", PyTuple high_slope high_intercept);
           ("tangent", PyTuple tangent_slope tangent_intercept);
           ("outlier_count", PyInt (np.count outlier_mask))]%string /\
      remove_outliers step_temps step_values 5 (F64.of_Z 5) 3
        = Ok (temps_clean, values_clean, outlier_mask)) /\
  existsb is_array (map snd step_result) = false.
Proof.
  apply (analyze_channel_result scipy_ref step_temps step_values
           (F64.of_Z 0, F64.of_Z 2) (F64.of_Z 7, F64.of_Z 9) (1, 0) 0
           (5, F64.of_Z 5) step_result).
  vm_compute. reflexivity.
Defined.

(** C1, as stated, fails.  On the step the analysis succeeds and its result
    has the seven entries and nothing else: no cleaned series, no smoothed
    series. *)
Lemma analyze_channel_no_series_counterexample :
  step_analysis = Ok step_result /\
  keys step_result = ["As"; "Af_tan"; "max_slope_temp"; "low_baseline";
                      "high_baseline"; "tangent"; "outlier_count"]%string /\
  get step_result "values_smooth" = None /\
  get step_result "values_clean" = None /\
  existsb is_array (map snd step_result) = false.
Proof. split; [vm_compute; reflexivity|]. repeat split. Qed.

(** ** The differences of a straight line, in exact arithmetic *)

Section Linear.

Local Open Scope Q_scope.

Variables m c : Q.

Lemma diff_cons2 (t0 t1 : Q) (temps : list Q) :
  diff (t0 :: t1 :: temps) = (t1 - t0) :: diff (t1 :: temps).
Proof. reflexivity. Qed.

Lemma increasing_tail (t0 : Q) (temps : list Q) :
  increasing (t0 :: temps) -> increasing temps.
Proof. destruct temps; simpl; tauto. Qed.

(** On a line the second-order difference is the slope, whatever the
    spacings. *)
Lemma interior_nonuniform_linear (temps : list Q) :
  increasing temps ->
  Forall (fun d => d == m) (interior_nonuniform (map (line m c) temps) (diff temps)).
Proof.
  induction temps as [|t0 temps IH]; [constructor|].
  destruct temps as [|t1 temps]; [constructor|].
  destruct temps as [|t2 temps]; [constructor|].
  intros Hinc. pose proof Hinc as (H01 & H12 & _).
  rewrite diff_cons2. rewrite (diff_cons2 t1 t2).
  change (map (line m c) (t0 :: t1 :: t2 :: temps))
    with (line m c t0 :: line m c t1 :: line m c t2 :: map (line m c) temps).
  cbn [interior_nonuniform].
  constructor.
  - unfold line. cbn [plus minus times divide negate Q_arith].
    field. repeat split; lra.
  - exact (IH (increasing_tail _ _ Hinc)).
Qed.

(** The last two temperatures, and what the arrays of the gradient hold at
    their end. *)
Lemma last_two (temps : list Q) :
  forall t0 t1 d1 d2 d3,
    increasing (t0 :: t1 :: temps) ->
    exists a b,
      a < b /\
      last (diff (t0 :: t1 :: temps)) d2 = b - a /\
      last (map (line m c) (t0 :: t1 :: temps)) d3 = line m c b /\
      last (removelast (map (line m c) (t0 :: t1 :: temps))) d3 = line m c a /\
      last (t0 :: t1 :: temps) d1 = b.
Proof.
  induction temps as [|t2 temps IH]; intros t0 t1 d1 d2 d3 Hinc.
  - exists t0, t1. destruct Hinc as (H01 & _). repeat split. exact H01.
  - destruct (IH t1 t2 d1 d2 d3 (increasing_tail _ _ Hinc))
      as (a & b & Hab & Hd & Hl & Hr & Hb).
    exists a, b. split; [exact Hab|].
    split; [rewrite diff_cons2; exact Hd|].
    split; [exact Hl|]. split; [exact Hr | exact Hb].
Qed.

End Linear.

(** ** The shape of the gradient *)

Section GradientShape.

Context {A : Type} `{Arith A}.

Lemma length_diff (x : list A) :
  List.length (diff x) = (List.length x - 1)%nat.
Proof.
  unfold diff. rewrite length_map2. destruct x; cbn [List.length tl]; lia.
Qed.

Lemma length_interior_uniform (f : list A) (dx : A) :
  List.length (interior_uniform f dx) = (List.length f - 2)%nat.
Proof.
  unfold interior_uniform. rewrite length_map2.
  destruct f as [|f0 [|f1 f]]; cbn [List.length tl]; lia.
Qed.

Lemma interior_nonuniform_cons (f0 f1 f2 dx1 dx2 : A) (f ax_dx : list A) :
  interior_nonuniform (f0 :: f1 :: f2 :: f) (dx1 :: dx2 :: ax_dx)
  = plus (plus (times (divide (negate dx2) (times dx1 (plus dx1 dx2))) f0)
               (times (divide (minus dx2 dx1) (times dx1 dx2)) f1))
         (times (divide dx1 (times dx2 (plus dx1 dx2))) f2)
      :: interior_nonuniform (f1 :: f2 :: f) (dx2 :: ax_dx).
Proof. reflexivity. Qed.

Lemma length_interior_nonuniform (f : list A) :
  forall ax_dx,
    S (List.length ax_dx) = List.length f ->
    List.length (interior_nonuniform f ax_dx) = (List.length f - 2)%nat.
Proof.
  induction f as [|f0 f IH]; intros ax_dx Hl; [reflexivity|].
  destruct f as [|f1 [|f2 f]]; [reflexivity | reflexivity |].
  destruct ax_dx as [|dx1 [|dx2 ax_dx]]; try discriminate Hl.
  rewrite interior_nonuniform_cons. cbn [List.length].
  rewrite IH by (simpl in *; lia). simpl. lia.
Qed.

Lemma gradient_cons2 (f0 f1 x0 x1 : A) (f x : list A) :
  gradient (f0 :: f1 :: f) (x0 :: x1 :: x)
  = [divide (minus f1 f0) (minus x1 x0)]
      ++ (if forallb (fun d => equal d (minus x1 x0)) (diff (x0 :: x1 :: x))
          then interior_uniform (f0 :: f1 :: f) (minus x1 x0)
          else interior_nonuniform (f0 :: f1 :: f) (diff (x0 :: x1 :: x)))
      ++ [divide (minus (last (f0 :: f1 :: f) f0) (last (removelast (f0 :: f1 :: f)) f0))
                 (if forallb (fun d => equal d (minus x1 x0)) (diff (x0 :: x1 :: x))
                  then minus x1 x0
                  else last (diff (x0 :: x1 :: x)) (minus x1 x0))].
Proof. reflexivity. Qed.

(** [np.gradient] returns an array of the shape of its input. *)
Lemma length_gradient (f x : list A) :
  List.length f = List.length x -> (2 <= List.length f)%nat ->
  List.length (gradient f x) = List.length f.
Proof.
  intros Hl Hn. unfold gradient.
  pose proof (length_diff x) as Hd.
  destruct f as [|f0 [|f1 f]]; simpl in Hn; try lia.
  destruct (diff x) as [|d0 ax_dx] eqn:Hx; [simpl in *; lia|].
  rewrite !length_app.
  destruct (forallb _ _).
  - rewrite length_interior_uniform. simpl. lia.
  - rewrite length_interior_nonuniform; simpl in *; lia.
Qed.

End GradientShape.

(** * Double precision

    [compute_derivative] runs in doubles.  This part gives the operations of
    [SpecFloat] their meaning on the rationals: on values away from
    underflow and overflow the result of an operation is the exact result
    rounded to the nearest double, at most [2^-53] of its magnitude away.
    The roundings of [np.gradient] are then added up, entry by entry,
    against the differences in exact arithmetic. *)

(** ** Powers of two *)

Lemma pow2_pos (e : Z) : (0 < pow2 e)%Q.
Proof. apply Qpower_0_lt. reflexivity. Qed.

Lemma pow2_add (a b : Z) : (pow2 (a + b) == pow2 a * pow2 b)%Q.
Proof. apply Qpower_plus. discriminate. Qed.

Lemma pow2_0 : (pow2 0 == 1)%Q.
Proof. reflexivity. Qed.

Lemma pow2_1 : (pow2 1 == 2)%Q.
Proof. reflexivity. Qed.

Lemma pow2_opp1 : (pow2 (-1) == 1 # 2)%Q.
Proof. reflexivity. Qed.

Lemma pow2_succ (a : Z) : (pow2 (a + 1) == 2 * pow2 a)%Q.
Proof. rewrite pow2_add, pow2_1. ring. Qed.

Lemma pow2_pred (a : Z) : (pow2 (a - 1) == pow2 a * (1 # 2))%Q.
Proof.
  replace (a - 1) with (a + -1) by lia. rewrite pow2_add, pow2_opp1. reflexivity.
Qed.

Lemma pow2_le (a b : Z) : a <= b -> (pow2 a <= pow2 b)%Q.
Proof. intros H. apply Qpower_le_compat_l; [exact H | discriminate]. Qed.

Lemma pow2_lt (a b : Z) : a < b -> (pow2 a < pow2 b)%Q.
Proof. intros H. apply Qpower_lt_compat_l; [exact H | reflexivity]. Qed.

Lemma pow2_lt_inv (a b : Z) : (pow2 a < pow2 b)%Q -> a < b.
Proof. intros H. apply (Qpower_lt_compat_l_inv 2); [exact H | reflexivity]. Qed.

Lemma pow2_Z (n : Z) : 0 <= n -> (pow2 n == inject_Z (2 ^ n))%Q.
Proof. intros H. unfold pow2. rewrite Zpower_Qpower by exact H. reflexivity. Qed.

Lemma pow2_cancel (a : Z) : (pow2 a * pow2 (- a) == 1)%Q.
Proof. rewrite <- pow2_add. replace (a + - a) with 0 by lia. reflexivity. Qed.

(** ** The number of binary digits *)

Lemma digits2_pos_bounds (p : positive) :
  2 ^ (Z.pos (digits2_pos p) - 1) <= Z.pos p < 2 ^ Z.pos (digits2_pos p).
Proof.
  induction p as [p IH|p IH|]; cbn [digits2_pos].
  - rewrite Pos2Z.inj_succ.
    replace (Z.succ (Z.pos (digits2_pos p)) - 1) with (Z.pos (digits2_pos p) - 1 + 1) by lia.
    rewrite Z.pow_succ_r by lia.
    rewrite Z.pow_add_r by lia. change (2 ^ 1) with 2. lia.
  - rewrite Pos2Z.inj_succ.
    replace (Z.succ (Z.pos (digits2_pos p)) - 1) with (Z.pos (digits2_pos p) - 1 + 1) by lia.
    rewrite Z.pow_succ_r by lia.
    rewrite Z.pow_add_r by lia. change (2 ^ 1) with 2. lia.
  - simpl. lia.
Qed.

Lemma Zdigits2_bounds (m : Z) :
  0 < m -> 2 ^ (Zdigits2 m - 1) <= m < 2 ^ Zdigits2 m.
Proof.
  destruct m as [|p|p]; try lia. intros _. apply digits2_pos_bounds.
Qed.

Lemma Zdigits2_pos (m : Z) : 0 < m -> 0 < Zdigits2 m.
Proof. destruct m; simpl; lia. Qed.

(** The digits are determined by the bounds. *)
Lemma Zdigits2_unique (m d : Z) :
  2 ^ (d - 1) <= m < 2 ^ d -> 0 < d -> Zdigits2 m = d.
Proof.
  intros [Hlo Hhi] Hd.
  assert (Hm : 0 < m) by (pose proof (Z.pow_pos_nonneg 2 (d - 1)); lia).
  pose proof (Zdigits2_bounds m Hm) as [Hlo' Hhi'].
  pose proof (Zdigits2_pos m Hm) as Hd'.
  destruct (Z.lt_trichotomy (Zdigits2 m) d) as [H|[H|H]]; [exfalso|exact H|exfalso].
  - assert (2 ^ Zdigits2 m <= 2 ^ (d - 1)) by (apply Z.pow_le_mono_r; lia). lia.
  - assert (2 ^ d <= 2 ^ (Zdigits2 m - 1)) by (apply Z.pow_le_mono_r; lia). lia.
Qed.

Lemma Zdigits2_shift (m : Z) (k : Z) :
  0 < m -> 0 <= k -> Zdigits2 (m * 2 ^ k) = Zdigits2 m + k.
Proof.
  intros Hm Hk. pose proof (Zdigits2_bounds m Hm) as [Hlo Hhi].
  pose proof (Zdigits2_pos m Hm) as Hd.
  apply Zdigits2_unique; [|lia].
  replace (Zdigits2 m + k - 1) with (Zdigits2 m - 1 + k) by lia.
  rewrite !Z.pow_add_r by lia.
  pose proof (Z.pow_pos_nonneg 2 k). nia.
Qed.


(** ** Locations *)

Lemma loc_ok_ext (m : Z) (l : location) (y y' : Q) :
  (y == y')%Q -> loc_ok m l y -> loc_ok m l y'.
Proof.
  intros E. destruct l as [|[]]; simpl; rewrite E; auto.
Qed.

Lemma loc_ok_bounds (m : Z) (l : location) (y : Q) :
  loc_ok m l y -> (inject_Z m <= y /\ y < inject_Z m + 1)%Q.
Proof. destruct l as [|[]]; simpl; intros H; lra. Qed.

Lemma inject_Z_xO (p : positive) :
  (inject_Z (Z.pos p~0) == 2 * inject_Z (Z.pos p))%Q.
Proof. rewrite <- (inject_Z_mult 2). reflexivity. Qed.

Lemma inject_Z_xI (p : positive) :
  (inject_Z (Z.pos p~1) == 2 * inject_Z (Z.pos p) + 1)%Q.
Proof.
  change (2 * inject_Z (Z.pos p) + 1)%Q with (inject_Z 2 * inject_Z (Z.pos p) + inject_Z 1)%Q.
  rewrite <- inject_Z_mult, <- inject_Z_plus. reflexivity.
Qed.

Lemma shr_1_loc (mrs : shr_record) (y : Q) :
  0 <= shr_m mrs ->
  loc_ok (shr_m mrs) (loc_of_shr_record mrs) y ->
  loc_ok (shr_m (shr_1 mrs)) (loc_of_shr_record (shr_1 mrs)) (y * (1 # 2)).
Proof.
  destruct mrs as [m r s]. cbn [shr_m]. intros Hm.
  destruct m as [|p|p]; [| |lia].
  - destruct r, s; cbn [shr_1 orb shr_m loc_of_shr_record loc_ok];
      change (inject_Z 0) with 0%Q; intros H; lra.
  - destruct p as [p|p|].
    + pose proof (inject_Z_xI p) as E.
      destruct r, s; cbn [shr_1 orb shr_m loc_of_shr_record loc_ok];
        intros H; lra.
    + pose proof (inject_Z_xO p) as E.
      destruct r, s; cbn [shr_1 orb shr_m loc_of_shr_record loc_ok];
        intros H; lra.
    + destruct r, s; cbn [shr_1 orb shr_m loc_of_shr_record loc_ok];
        change (inject_Z 0) with 0%Q; change (inject_Z 1) with 1%Q; intros H; lra.
Qed.

Lemma iter_shr_1_loc (p : positive) :
  forall (mrs : shr_record) (y : Q),
    0 <= shr_m mrs ->
    loc_ok (shr_m mrs) (loc_of_shr_record mrs) y ->
    loc_ok (shr_m (iter_pos shr_1 p mrs))
           (loc_of_shr_record (iter_pos shr_1 p mrs)) (y * pow2 (- Z.pos p)).
Proof.
  induction p as [p IH|p IH|]; intros mrs y Hm H; cbn [iter_pos].
  - apply (loc_ok_ext _ _ (y * (1 # 2) * pow2 (- Z.pos p) * pow2 (- Z.pos p))).
    + replace (- Z.pos p~1) with (-1 + (- Z.pos p + - Z.pos p)) by lia.
      rewrite !pow2_add, pow2_opp1. ring.
    + apply IH; [apply iter_shr_1_nonneg, shr_1_nonneg, Hm|].
      apply IH; [apply shr_1_nonneg, Hm|]. apply shr_1_loc; assumption.
  - apply (loc_ok_ext _ _ (y * pow2 (- Z.pos p) * pow2 (- Z.pos p))).
    + replace (- Z.pos p~0) with (- Z.pos p + - Z.pos p) by lia.
      rewrite !pow2_add. ring.
    + apply IH; [apply iter_shr_1_nonneg, Hm|]. apply IH; assumption.
  - apply (loc_ok_ext _ _ (y * (1 # 2))).
    + reflexivity.
    + apply shr_1_loc; assumption.
Qed.

Lemma shr_record_of_loc_ok (m : Z) (l : location) :
  shr_m (shr_record_of_loc m l) = m /\
  loc_of_shr_record (shr_record_of_loc m l) = l.
Proof. destruct l as [|[]]; split; reflexivity. Qed.

(** A shift to the right by [n] places keeps the number [y * 2^e] that the
    mantissa and its location stand for. *)
Lemma shr_loc (mrs : shr_record) (e n : Z) (y : Q) :
  0 <= shr_m mrs -> 0 <= n ->
  loc_ok (shr_m mrs) (loc_of_shr_record mrs) y ->
  snd (shr mrs e n) = e + n /\
  0 <= shr_m (fst (shr mrs e n)) /\
  loc_ok (shr_m (fst (shr mrs e n))) (loc_of_shr_record (fst (shr mrs e n)))
         (y * pow2 (- n)).
Proof.
  intros Hm Hn H. unfold shr. destruct n as [|p|p]; [| |lia]; cbn [fst snd].
  - split; [lia|]. split; [exact Hm|].
    apply (loc_ok_ext _ _ y); [|exact H]. rewrite pow2_0. ring.
  - split; [reflexivity|]. split; [apply iter_shr_1_nonneg, Hm|].
    apply iter_shr_1_loc; assumption.
Qed.


(** ** Rounding to nearest *)

Lemma inject_Z_succ (m : Z) : (inject_Z (m + 1) == inject_Z m + 1)%Q.
Proof. rewrite inject_Z_plus. reflexivity. Qed.

(** Rounding to nearest, ties to even, moves an integer with a location at
    most half a unit. *)
Lemma round_nearest_even_spec (m : Z) (l : location) (y : Q) :
  loc_ok m l y ->
  (round_nearest_even m l = m \/ round_nearest_even m l = m + 1) /\
  (Qabs (inject_Z (round_nearest_even m l) - y) <= 1 # 2)%Q.
Proof.
  pose proof (inject_Z_succ m) as E.
  destruct l as [|[]]; cbn [round_nearest_even loc_ok]; intros H.
  - split; [left; reflexivity|]. apply Qabs_Qle_condition. lra.
  - destruct (Z.even m).
    + split; [left; reflexivity|]. apply Qabs_Qle_condition. lra.
    + split; [right; reflexivity|]. apply Qabs_Qle_condition. lra.
  - split; [left; reflexivity|]. apply Qabs_Qle_condition. lra.
  - split; [right; reflexivity|]. apply Qabs_Qle_condition. lra.
Qed.

Lemma fexp_normal (e : Z) : -1074 <= e - 53 -> fexp 53 1024 e = e - 53.
Proof. unfold fexp, emin. lia. Qed.

Lemma inject_Z_pow2 (n : Z) : 0 <= n -> (inject_Z (2 ^ n) == pow2 n)%Q.
Proof. intros H. symmetry. apply pow2_Z, H. Qed.

(** The core of every operation.  The number [y * 2^ex], with [y] between
    the mantissa [mx] and its successor as the location tells, is rounded to
    a double of 53 digits that is a multiple of the unit in the last place
    [2^(D-53)] and at most half a unit away, where [2^(D-1) <= y * 2^ex <
    2^D]; no underflow, no overflow. *)
Lemma binary_round_aux_spec (sx : bool) (mx ex : Z) (lx : location) (y : Q) :
  0 < mx -> loc_ok mx lx y ->
  53 <= Zdigits2 mx ->
  -1074 <= Zdigits2 mx + ex - 53 -> Zdigits2 mx + ex - 53 < 971 ->
  exists (m : positive) (e : Z) (k : Z),
    binary_round_aux 53 1024 sx mx ex lx = S754_finite sx m e /\
    Zdigits2 (Z.pos m) = 53 /\
    (inject_Z (Z.pos m) * pow2 e == inject_Z k * pow2 (Zdigits2 mx + ex - 53))%Q /\
    (Qabs (inject_Z k * pow2 (Zdigits2 mx + ex - 53) - y * pow2 ex)
     <= pow2 (Zdigits2 mx + ex - 54))%Q.
Proof.
  intros Hmx Hloc Hd Hlo Hhi.
  pose proof (Zdigits2_bounds mx Hmx) as [Hb1 Hb2].
  pose proof (loc_ok_bounds _ _ _ Hloc) as [Hy1 Hy2].
  remember (Zdigits2 mx) as d eqn:Ed.
  unfold binary_round_aux, shr_fexp.
  rewrite <- Ed. rewrite (fexp_normal (d + ex)) by lia.
  replace (d + ex - 53 - ex) with (d - 53) by lia.
  destruct (shr_record_of_loc_ok mx lx) as [Hrm Hrl].
  pose proof (shr_loc (shr_record_of_loc mx lx) ex (d - 53) y) as Hs.
  rewrite Hrm, Hrl in Hs. specialize (Hs ltac:(lia) ltac:(lia) Hloc).
  destruct (shr (shr_record_of_loc mx lx) ex (d - 53)) as [mrs' e'].
  cbn [fst snd] in Hs. destruct Hs as (He' & Hm' & Hloc').
  remember (shr_m mrs') as m' eqn:Em'.
  remember (loc_of_shr_record mrs') as l' eqn:El'.
  remember (y * pow2 (- (d - 53)))%Q as y' eqn:Ey'.
  (* the shifted mantissa has 53 digits *)
  assert (Hy'1 : (pow2 52 <= y')%Q).
  { assert (E : (pow2 52 == pow2 (d - 1) * pow2 (- (d - 53)))%Q).
    { rewrite <- pow2_add. replace (d - 1 + - (d - 53)) with 52 by lia. reflexivity. }
    rewrite Ey', E.
    apply Qmult_le_compat_r; [|apply Qlt_le_weak, pow2_pos].
    rewrite <- inject_Z_pow2 by lia. apply Qle_trans with (inject_Z mx); [|exact Hy1].
    rewrite <- Zle_Qle. exact Hb1. }
  assert (Hy'2 : (y' < pow2 53)%Q).
  { assert (E : (pow2 53 == pow2 d * pow2 (- (d - 53)))%Q).
    { rewrite <- pow2_add. replace (d + - (d - 53)) with 53 by lia. reflexivity. }
    rewrite Ey', E.
    apply Qmult_lt_compat_r; [apply pow2_pos|].
    rewrite <- inject_Z_pow2 by lia. apply Qlt_le_trans with (inject_Z mx + 1)%Q; [exact Hy2|].
    rewrite <- inject_Z_succ, <- Zle_Qle. lia. }
  pose proof (loc_ok_bounds _ _ _ Hloc') as [Hl1 Hl2].
  assert (Hm'1 : 2 ^ 52 <= m').
  { assert (H : (inject_Z (2 ^ 52) < inject_Z (m' + 1))%Q).
    { rewrite inject_Z_succ, (inject_Z_pow2 52) by lia. lra. }
    rewrite <- Zlt_Qlt in H. lia. }
  assert (Hm'2 : m' < 2 ^ 53).
  { assert (H : (inject_Z m' < inject_Z (2 ^ 53))%Q).
    { rewrite (inject_Z_pow2 53) by lia. lra. }
    rewrite <- Zlt_Qlt in H. exact H. }
  destruct (round_nearest_even_spec m' l' y' Hloc') as [Hr Herr].
  remember (round_nearest_even m' l') as m'' eqn:Em''.
  (* the error, in units of the last place *)
  assert (Hval : (y * pow2 ex == y' * pow2 (d + ex - 53))%Q).
  { rewrite Ey'. replace (d + ex - 53) with ((d - 53) + ex) by lia.
    rewrite pow2_add. rewrite <- (Qmult_assoc y), (Qmult_assoc (pow2 (- (d - 53)))).
    rewrite (Qmult_comm (pow2 (- (d - 53)))), pow2_cancel. ring. }
  assert (Hfinal :
    (Qabs (inject_Z m'' * pow2 (d + ex - 53) - y * pow2 ex) <= pow2 (d + ex - 54))%Q).
  { rewrite Hval.
    setoid_replace (inject_Z m'' * pow2 (d + ex - 53) - y' * pow2 (d + ex - 53))%Q
      with ((inject_Z m'' - y') * pow2 (d + ex - 53))%Q by ring.
    rewrite Qabs_Qmult, (Qabs_pos (pow2 _)) by (apply Qlt_le_weak, pow2_pos).
    replace (d + ex - 54) with (d + ex - 53 - 1) by lia. rewrite pow2_pred.
    rewrite (Qmult_comm (pow2 _) (1 # 2)).
    apply Qmult_le_compat_r; [exact Herr | apply Qlt_le_weak, pow2_pos]. }
  (* the second shift: none, or one place after a carry *)
  assert (Hcases : m'' < 2 ^ 53 \/ m'' = 2 ^ 53) by lia.
  destruct Hcases as [Hlt|Heq].
  - assert (Hd'' : Zdigits2 m'' = 53) by (apply Zdigits2_unique; lia).
    rewrite Hd''. rewrite (fexp_normal (53 + e')) by lia.
    replace (53 + e' - 53 - e') with 0 by lia. cbn [shr shr_record_of_loc shr_m].
    destruct m'' as [|p|p]; try lia.
    exists p, e', (Z.pos p).
    replace (e' <=? 1024 - 53) with true by (symmetry; apply Z.leb_le; lia).
    subst e'. replace (ex + (d - 53)) with (d + ex - 53) by lia.
    repeat split; [exact Hd'' | exact Hfinal].
  - rewrite Heq.
    change (Zdigits2 (2 ^ 53)) with 54.
    rewrite (fexp_normal (54 + e')) by lia.
    replace (54 + e' - 53 - e') with 1 by lia.
    cbn [shr shr_record_of_loc iter_pos shr_1 shr_m orb fst snd].
    change (2 ^ 53) with (Z.pos (4503599627370496~0)).
    cbn [shr_1 shr_m orb].
    exists 4503599627370496%positive, (e' + 1), (2 ^ 53).
    replace (e' + 1 <=? 1024 - 53) with true by (symmetry; apply Z.leb_le; lia).
    subst e'. replace (ex + (d - 53) + 1) with (d + ex - 53 + 1) by lia.
    repeat split.
    + rewrite pow2_succ.
      change (inject_Z (2 ^ 53)) with (2 * inject_Z (Z.pos 4503599627370496))%Q at 1.
      ring.
    + rewrite <- Heq. exact Hfinal.
Qed.


(** ** Mantissas and exponents *)

Lemma binade_of_digits (M E : Z) :
  0 < M ->
  (pow2 (Zdigits2 M + E - 1) <= inject_Z M * pow2 E)%Q /\
  (inject_Z M * pow2 E < pow2 (Zdigits2 M + E))%Q.
Proof.
  intros HM. pose proof (Zdigits2_bounds M HM) as [H1 H2].
  pose proof (Zdigits2_pos M HM) as Hd. split.
  - replace (Zdigits2 M + E - 1) with (Zdigits2 M - 1 + E) by lia. rewrite pow2_add.
    apply Qmult_le_compat_r; [|apply Qlt_le_weak, pow2_pos].
    rewrite <- inject_Z_pow2 by lia. rewrite <- Zle_Qle. exact H1.
  - rewrite pow2_add. apply Qmult_lt_compat_r; [apply pow2_pos|].
    rewrite <- inject_Z_pow2 by lia. rewrite <- Zlt_Qlt. exact H2.
Qed.

(** The exponent range of a number in the normal range. *)
Lemma normal_range_digits (M E : Z) :
  0 < M -> normal_range (inject_Z M * pow2 E) ->
  -1074 <= Zdigits2 M + E - 53 /\ Zdigits2 M + E - 53 < 971.
Proof.
  intros HM [Hlo Hhi]. destruct (binade_of_digits M E HM) as [H1 H2].
  assert (A : (pow2 (-1021) < pow2 (Zdigits2 M + E))%Q) by lra.
  assert (B : (pow2 (Zdigits2 M + E - 1) < pow2 1023)%Q) by lra.
  apply pow2_lt_inv in A, B. lia.
Qed.

(** The exponent range of a number in the normal range that lies between
    the mantissa [M] and its successor. *)
Lemma normal_range_between (M E : Z) (y : Q) :
  0 < M -> (inject_Z M <= y)%Q -> (y < inject_Z M + 1)%Q ->
  (pow2 (Zdigits2 M + E - 1) <= y * pow2 E)%Q /\
  (y * pow2 E < pow2 (Zdigits2 M + E))%Q.
Proof.
  intros HM H1 H2. pose proof (Zdigits2_bounds M HM) as [B1 B2].
  pose proof (Zdigits2_pos M HM) as Hd. split.
  - apply Qle_trans with (inject_Z M * pow2 E)%Q.
    + apply binade_of_digits, HM.
    + apply Qmult_le_compat_r; [exact H1 | apply Qlt_le_weak, pow2_pos].
  - rewrite pow2_add. apply Qmult_lt_compat_r; [apply pow2_pos|].
    apply Qlt_le_trans with (inject_Z M + 1)%Q; [exact H2|].
    rewrite <- inject_Z_succ, <- inject_Z_pow2 by lia. rewrite <- Zle_Qle. lia.
Qed.

(** A mantissa of at least 53 digits with its location rounds to a double of
    53 digits, the nearest one. *)
Lemma round_loc_spec (s : bool) (M E : Z) (l : location) (y : Q) :
  0 < M -> loc_ok M l y -> 53 <= Zdigits2 M -> normal_range (y * pow2 E) ->
  exists (m : positive) (e : Z),
    binary_round_aux 53 1024 s M E l = S754_finite s m e /\
    rounded m e (y * pow2 E).
Proof.
  intros HM Hl Hd [R1 R2]. destruct (loc_ok_bounds _ _ _ Hl) as [Y1 Y2].
  destruct (normal_range_between M E y HM Y1 Y2) as [H1 H2].
  assert (A : (pow2 (-1021) < pow2 (Zdigits2 M + E))%Q) by lra.
  assert (B : (pow2 (Zdigits2 M + E - 1) < pow2 1023)%Q) by lra.
  apply pow2_lt_inv in A, B.
  destruct (binary_round_aux_spec s M E l y HM Hl Hd ltac:(lia) ltac:(lia))
    as (m & e & k & Hres & Hdig & Hval & Herr).
  exists m, e. split; [exact Hres|]. split; [exact Hdig|].
  exists (Zdigits2 M + E), k. repeat split; assumption.
Qed.

Lemma round_exact_spec (s : bool) (M E : Z) :
  0 < M -> 53 <= Zdigits2 M -> normal_range (inject_Z M * pow2 E) ->
  exists (m : positive) (e : Z),
    binary_round_aux 53 1024 s M E loc_Exact = S754_finite s m e /\
    rounded m e (inject_Z M * pow2 E).
Proof.
  intros HM Hd Hr. apply round_loc_spec; auto. reflexivity.
Qed.

Lemma pos_iter_xO (m d : positive) :
  Z.pos (Pos.iter xO m d) = Z.pos m * 2 ^ Z.pos d.
Proof.
  induction d as [|d IH] using Pos.peano_ind.
  - simpl. lia.
  - rewrite Pos.iter_succ. rewrite Pos2Z.inj_xO, IH.
    rewrite Pos2Z.inj_succ, Z.pow_succ_r by lia. lia.
Qed.

(** Aligning a mantissa to a smaller exponent keeps the value. *)
Lemma shl_align_spec (mx : positive) (ex ex' : Z) :
  snd (shl_align mx ex ex') = Z.min ex ex' /\
  Z.pos (fst (shl_align mx ex ex')) = Z.pos mx * 2 ^ (ex - Z.min ex ex').
Proof.
  unfold shl_align. destruct (ex' - ex) as [|d|d] eqn:E; cbn [fst snd].
  - replace (Z.min ex ex') with ex by lia. rewrite Z.sub_diag. simpl. lia.
  - replace (Z.min ex ex') with ex by lia. rewrite Z.sub_diag. simpl. lia.
  - replace (Z.min ex ex') with ex' by lia. rewrite pos_iter_xO.
    replace (ex - ex') with (Z.pos d) by lia. split; reflexivity.
Qed.

Lemma scale_exponent (M a b : Z) :
  b <= a -> (inject_Z (M * 2 ^ (a - b)) * pow2 b == inject_Z M * pow2 a)%Q.
Proof.
  intros H. rewrite inject_Z_mult, inject_Z_pow2 by lia.
  rewrite <- Qmult_assoc, <- pow2_add. replace (a - b + b) with a by lia. reflexivity.
Qed.

(** [binary_round], the rounding of [m * 2^e]. *)
Lemma binary_round_spec (s : bool) (m : positive) (e : Z) :
  normal_range (inject_Z (Z.pos m) * pow2 e) ->
  exists (m' : positive) (e' : Z),
    binary_round 53 1024 s m e = S754_finite s m' e' /\
    rounded m' e' (inject_Z (Z.pos m) * pow2 e).
Proof.
  intros Hr. unfold binary_round.
  destruct (normal_range_digits (Z.pos m) e ltac:(lia) Hr) as [Hlo Hhi].
  change (Z.pos (digits2_pos m)) with (Zdigits2 (Z.pos m)).
  rewrite (fexp_normal (Zdigits2 (Z.pos m) + e)) by lia.
  pose proof (shl_align_spec m e (Zdigits2 (Z.pos m) + e - 53)) as [Hez Hmz].
  destruct (shl_align m e (Zdigits2 (Z.pos m) + e - 53)) as [mz ez].
  cbn [fst snd] in Hez, Hmz.
  assert (Hval : (inject_Z (Z.pos mz) * pow2 ez == inject_Z (Z.pos m) * pow2 e)%Q).
  { rewrite Hmz, Hez. apply scale_exponent. lia. }
  assert (Hdig : Zdigits2 (Z.pos mz) = Zdigits2 (Z.pos m) + (e - ez)).
  { rewrite Hmz, Hez. apply Zdigits2_shift; lia. }
  destruct (round_exact_spec s (Z.pos mz) ez) as (m' & e' & Hres & Hrd).
  - lia.
  - rewrite Hdig. lia.
  - destruct Hr as [H1 H2]. split; rewrite Hval; assumption.
  - exists m', e'. split; [exact Hres|].
    destruct Hrd as (Hd' & D & k & A & B & C & E). split; [exact Hd'|].
    exists D, k. rewrite Hval in A, B, E. repeat split; assumption.
Qed.


(** ** Values *)

Lemma sign_cases (s : bool) : (sign s == 1 \/ sign s == -1)%Q.
Proof. destruct s; [right | left]; reflexivity. Qed.

Lemma sign_xorb (a b : bool) : (sign (xorb a b) == sign a * sign b)%Q.
Proof. destruct a, b; reflexivity. Qed.

Lemma sign_negb (a : bool) : (sign (negb a) == - sign a)%Q.
Proof. destruct a; reflexivity. Qed.

Lemma Qabs_sign_mult (s : bool) (X : Q) : (Qabs (sign s * X) == Qabs X)%Q.
Proof.
  rewrite Qabs_Qmult. destruct s; cbn [sign].
  - change (Qabs (-1)) with 1%Q. ring.
  - change (Qabs 1) with 1%Q. ring.
Qed.

Lemma mantissa_pos (m : positive) (e : Z) : (0 < inject_Z (Z.pos m) * pow2 e)%Q.
Proof.
  apply Qmult_lt_0_compat; [|apply pow2_pos].
  change 0%Q with (inject_Z 0). rewrite <- Zlt_Qlt. lia.
Qed.

Lemma F2Q_abs (s : bool) (m : positive) (e : Z) :
  (Qabs (F2Q s m e) == inject_Z (Z.pos m) * pow2 e)%Q.
Proof.
  unfold F2Q. rewrite Qabs_sign_mult. apply Qabs_pos, Qlt_le_weak, mantissa_pos.
Qed.

Lemma F2Q_nonzero (s : bool) (m : positive) (e : Z) : ~ (F2Q s m e == 0)%Q.
Proof.
  intros H. pose proof (F2Q_abs s m e) as A. rewrite H in A.
  pose proof (mantissa_pos m e). change (Qabs 0) with 0%Q in A. lra.
Qed.

(** The rounding of a magnitude, with the sign put back. *)
Lemma rounded_rounds_to (s : bool) (m : positive) (e : Z) (X x : Q) :
  rounded m e X -> (x == sign s * X)%Q -> rounds_to (F2Q s m e) x.
Proof.
  intros (_ & D & k & H1 & H2 & Hv & Herr) Hx. right.
  assert (HX : (0 < X)%Q) by (pose proof (pow2_pos (D - 1)); lra).
  assert (Hax : (Qabs x == X)%Q).
  { rewrite Hx, Qabs_sign_mult. apply Qabs_pos. lra. }
  destruct (sign_cases s) as [Hs|Hs].
  - exists D, k. rewrite Hax. repeat split; try assumption.
    + unfold F2Q. rewrite Hs, Hv. ring.
    + setoid_replace (F2Q s m e - x)%Q with (inject_Z k * pow2 (D - 53) - X)%Q;
        [exact Herr|].
      unfold F2Q. rewrite Hx, Hs, Hv. ring.
  - exists D, (- k). rewrite Hax. repeat split; try assumption.
    + unfold F2Q. rewrite Hs, Hv, inject_Z_opp. ring.
    + setoid_replace (F2Q s m e - x)%Q with (- (inject_Z k * pow2 (D - 53) - X))%Q;
        [rewrite Qabs_opp; exact Herr|].
      unfold F2Q. rewrite Hx, Hs, Hv. ring.
Qed.

Lemma Zdigits2_ge (M n : Z) : 0 < n -> 2 ^ (n - 1) <= M -> n <= Zdigits2 M.
Proof.
  intros Hn H.
  assert (HM : 0 < M) by (pose proof (Z.pow_pos_nonneg 2 (n - 1)); lia).
  pose proof (Zdigits2_bounds M HM) as [_ H2].
  destruct (Z_lt_le_dec (Zdigits2 M) n) as [Hlt|]; [|assumption].
  assert (2 ^ Zdigits2 M <= 2 ^ (n - 1))
    by (apply Z.pow_le_mono_r; pose proof (Zdigits2_pos M HM); lia).
  lia.
Qed.

(** A double is its own rounding. *)
Lemma repr_rounds_to (x : float) (v w : Q) :
  repr x v -> (w == v)%Q -> rounds_to v w.
Proof.
  destruct x as [s|s| |s m e]; cbn [repr]; try contradiction.
  - intros Hv Hw. left. rewrite Hw. split; exact Hv.
  - intros [Hd Hv] Hw. right. exists (53 + e), (if s then - Z.pos m else Z.pos m).
    rewrite Hw, Hv, F2Q_abs.
    destruct (binade_of_digits (Z.pos m) e ltac:(lia)) as [H1 H2].
    rewrite Hd in H1, H2. repeat split; try assumption.
    + replace (53 + e - 53) with e by lia. unfold F2Q.
      destruct s; cbn [sign]; [rewrite inject_Z_opp|]; ring.
    + setoid_replace (F2Q s m e - F2Q s m e)%Q with 0%Q by ring.
      change (Qabs 0) with 0%Q. apply Qlt_le_weak, pow2_pos.
Qed.


(** ** The operations *)

Lemma safe_nonzero (x : Q) : safe x -> ~ (x == 0)%Q -> normal_range (Qabs x).
Proof. intros [H|H] Hx; [contradiction | exact H]. Qed.

Lemma normal_range_ext (X Y : Q) : (X == Y)%Q -> normal_range X -> normal_range Y.
Proof. intros E [H1 H2]. split; rewrite <- E; assumption. Qed.

Lemma rounded_ext (m : positive) (e : Z) (X Y : Q) :
  (X == Y)%Q -> rounded m e X -> rounded m e Y.
Proof.
  intros E (Hd & D & k & A & B & C & F). split; [exact Hd|].
  exists D, k. rewrite <- E. repeat split; assumption.
Qed.

(** [F64.mul]: the exact product, rounded to the nearest double. *)
Lemma mul_spec (x y : float) (vx vy : Q) :
  repr x vx -> repr y vy -> safe (vx * vy) ->
  exists v, repr (F64.mul x y) v /\ rounds_to v (vx * vy).
Proof.
  destruct x as [sx|sx| |sx mx ex], y as [sy|sy| |sy my ey];
    cbn [repr]; try contradiction; intros Hx Hy Hs.
  - exists 0%Q. split; [reflexivity|]. left. split; [rewrite Hx; ring | reflexivity].
  - exists 0%Q. split; [reflexivity|]. left. split; [rewrite Hx; ring | reflexivity].
  - exists 0%Q. split; [reflexivity|]. left. split; [rewrite Hy; ring | reflexivity].
  - destruct Hx as [Hdx Hx], Hy as [Hdy Hy].
    assert (Hprod : (vx * vy == sign (xorb sx sy)
                     * (inject_Z (Z.pos (mx * my)) * pow2 (ex + ey)))%Q).
    { rewrite Hx, Hy. unfold F2Q. rewrite sign_xorb, Pos2Z.inj_mul, inject_Z_mult, pow2_add.
      ring. }
    assert (Hnz : ~ (vx * vy == 0)%Q).
    { rewrite Hx, Hy. intros H. apply Qmult_integral in H.
      destruct H as [H|H]; revert H; apply F2Q_nonzero. }
    pose proof (safe_nonzero _ Hs Hnz) as Hr.
    assert (Habs : (Qabs (vx * vy) == inject_Z (Z.pos (mx * my)) * pow2 (ex + ey))%Q).
    { rewrite Hprod, Qabs_sign_mult. apply Qabs_pos, Qlt_le_weak, mantissa_pos. }
    destruct (round_exact_spec (xorb sx sy) (Z.pos (mx * my)) (ex + ey))
      as (m & e & Hres & Hrd).
    + lia.
    + apply Zdigits2_ge; [lia|].
      pose proof (Zdigits2_bounds (Z.pos mx) ltac:(lia)) as [A _].
      pose proof (Zdigits2_bounds (Z.pos my) ltac:(lia)) as [B _].
      rewrite Hdx in A. rewrite Hdy in B. rewrite Pos2Z.inj_mul.
      change (2 ^ (53 - 1)) with 4503599627370496 in A, B.
      change (2 ^ (53 - 1)) with 4503599627370496. nia.
    + apply (normal_range_ext _ _ Habs), Hr.
    + exists (F2Q (xorb sx sy) m e). unfold F64.mul, SFmul.
      change F64.prec with 53. change F64.emax with 1024. rewrite Hres.
      split; [split; [apply Hrd | reflexivity]|].
      apply (rounded_rounds_to _ _ _ _ _ Hrd Hprod).
Qed.

Lemma binary_normalize_spec (M E : Z) (x : Q) :
  (x == inject_Z M * pow2 E)%Q -> safe x ->
  exists v, repr (binary_normalize 53 1024 M E false) v /\ rounds_to v x.
Proof.
  intros Hx Hs. destruct M as [|p|p]; cbn [binary_normalize].
  - exists 0%Q. split; [reflexivity|]. left. split; [rewrite Hx; ring | reflexivity].
  - assert (Hnz : ~ (x == 0)%Q).
    { rewrite Hx. pose proof (mantissa_pos p E). lra. }
    assert (Habs : (Qabs x == inject_Z (Z.pos p) * pow2 E)%Q).
    { rewrite Hx. apply Qabs_pos, Qlt_le_weak, mantissa_pos. }
    destruct (binary_round_spec false p E) as (m & e & Hres & Hrd).
    { apply (normal_range_ext _ _ Habs), safe_nonzero; assumption. }
    exists (F2Q false m e). rewrite Hres.
    split; [split; [apply Hrd | reflexivity]|].
    apply (rounded_rounds_to _ _ _ _ _ Hrd). rewrite Hx. cbn [sign]. ring.
  - assert (Hopp : (x == - (inject_Z (Z.pos p) * pow2 E))%Q).
    { rewrite Hx. change (Z.neg p) with (- Z.pos p). rewrite inject_Z_opp. ring. }
    assert (Hnz : ~ (x == 0)%Q).
    { rewrite Hopp. pose proof (mantissa_pos p E). lra. }
    assert (Habs : (Qabs x == inject_Z (Z.pos p) * pow2 E)%Q).
    { rewrite Hopp, Qabs_opp. apply Qabs_pos, Qlt_le_weak, mantissa_pos. }
    destruct (binary_round_spec true p E) as (m & e & Hres & Hrd).
    { apply (normal_range_ext _ _ Habs), safe_nonzero; assumption. }
    exists (F2Q true m e). rewrite Hres.
    split; [split; [apply Hrd | reflexivity]|].
    apply (rounded_rounds_to _ _ _ _ _ Hrd). rewrite Hopp. cbn [sign]. ring.
Qed.

(** The value of a double on the exponent it is aligned to. *)
Lemma aligned_value (s : bool) (m : positive) (e ez : Z) :
  ez <= e ->
  (F2Q s m e == inject_Z (cond_Zopp s (Z.pos (fst (shl_align m e ez)))) * pow2 ez)%Q.
Proof.
  intros H. destruct (shl_align_spec m e ez) as [_ Hm]. rewrite Hm.
  replace (Z.min e ez) with ez by lia. unfold F2Q.
  rewrite <- (scale_exponent (Z.pos m) e ez H).
  destruct s; cbn [sign cond_Zopp]; [rewrite inject_Z_opp|]; ring.
Qed.

(** [F64.add]: the exact sum, rounded to the nearest double. *)
Lemma add_spec (x y : float) (vx vy : Q) :
  repr x vx -> repr y vy -> safe (vx + vy) ->
  exists v, repr (F64.add x y) v /\ rounds_to v (vx + vy).
Proof.
  destruct x as [sx|sx| |sx mx ex], y as [sy|sy| |sy my ey];
    cbn [repr]; try contradiction; intros Hx Hy Hs.
  - exists 0%Q. split.
    + unfold F64.add, SFadd. destruct sx, sy; reflexivity.
    + left. split; [rewrite Hx, Hy; ring | reflexivity].
  - exists vy. split; [exact Hy|].
    apply (repr_rounds_to (S754_finite sy my ey)); [exact Hy|]. rewrite Hx. ring.
  - exists vx. split; [exact Hx|].
    apply (repr_rounds_to (S754_finite sx mx ex)); [exact Hx|]. rewrite Hy. ring.
  - destruct Hx as [_ Hx], Hy as [_ Hy]. unfold F64.add, SFadd.
    apply binary_normalize_spec; [|exact Hs].
    rewrite inject_Z_plus, Hx, Hy.
    rewrite (aligned_value sx mx ex (Z.min ex ey)) by lia.
    rewrite (aligned_value sy my ey (Z.min ex ey)) by lia. ring.
Qed.

(** [F64.sub]: the exact difference, rounded to the nearest double. *)
Lemma sub_spec (x y : float) (vx vy : Q) :
  repr x vx -> repr y vy -> safe (vx - vy) ->
  exists v, repr (F64.sub x y) v /\ rounds_to v (vx - vy).
Proof.
  destruct x as [sx|sx| |sx mx ex], y as [sy|sy| |sy my ey];
    cbn [repr]; try contradiction; intros Hx Hy Hs.
  - exists 0%Q. split.
    + unfold F64.sub, SFsub. destruct sx, sy; reflexivity.
    + left. split; [rewrite Hx, Hy; ring | reflexivity].
  - exists (- vy)%Q.
    assert (Hr : repr (S754_finite (negb sy) my ey) (- vy)).
    { destruct Hy as [Hd Hy]. split; [exact Hd|]. rewrite Hy. unfold F2Q.
      rewrite sign_negb. ring. }
    split; [exact Hr|].
    apply (repr_rounds_to _ _ _ Hr). rewrite Hx. ring.
  - exists vx. split; [exact Hx|].
    apply (repr_rounds_to (S754_finite sx mx ex)); [exact Hx|]. rewrite Hy. ring.
  - destruct Hx as [_ Hx], Hy as [_ Hy]. unfold F64.sub, SFsub.
    apply binary_normalize_spec; [|exact Hs].
    unfold Z.sub. rewrite inject_Z_plus, inject_Z_opp, Hx, Hy.
    rewrite (aligned_value sx mx ex (Z.min ex ey)) by lia.
    rewrite (aligned_value sy my ey (Z.min ex ey)) by lia. ring.
Qed.

(** Negation is exact. *)
Lemma opp_spec (x : float) (v : Q) : repr x v -> repr (SFopp x) (- v).
Proof.
  destruct x as [s|s| |s m e]; cbn [repr SFopp]; try contradiction.
  - intros ->. reflexivity.
  - intros [Hd Hv]. split; [exact Hd|]. rewrite Hv. unfold F2Q.
    rewrite sign_negb. ring.
Qed.

(** [F64.of_Z]: the integer, rounded to the nearest double. *)
Lemma of_Z_spec (n : Z) :
  safe (inject_Z n) ->
  exists v, repr (F64.of_Z n) v /\ rounds_to v (inject_Z n).
Proof.
  intros Hs. unfold F64.of_Z. apply binary_normalize_spec; [|exact Hs].
  rewrite pow2_0. ring.
Qed.


(** ** Division *)

Lemma inject_Z_pos (n : Z) : 0 < n -> (0 < inject_Z n)%Q.
Proof. intros H. change 0%Q with (inject_Z 0). rewrite <- Zlt_Qlt. exact H. Qed.

(** The location of a quotient from its remainder. *)
Lemma new_location_ok (n q r : Z) :
  0 < n -> 0 <= r < n ->
  loc_ok q (new_location n r) (inject_Z q + inject_Z r / inject_Z n).
Proof.
  intros Hn Hr. pose proof (inject_Z_pos n Hn) as HN.
  assert (Hhalf : forall c : comparison, (2 * r ?= n) = c ->
            match c with
            | Lt => (inject_Z r / inject_Z n < 1 # 2)%Q
            | Eq => (inject_Z r / inject_Z n == 1 # 2)%Q
            | Gt => (1 # 2 < inject_Z r / inject_Z n)%Q
            end).
  { intros c Hc. destruct c.
    - apply Z.compare_eq in Hc.
      assert (E : (inject_Z n == 2 * inject_Z r)%Q)
        by (rewrite <- Hc, inject_Z_mult; reflexivity).
      rewrite E. field. rewrite E in HN. lra.
    - apply Z.compare_lt_iff in Hc. apply Qlt_shift_div_r; [exact HN|].
      assert (E : (inject_Z (2 * r) < inject_Z n)%Q) by (rewrite <- Zlt_Qlt; exact Hc).
      rewrite inject_Z_mult in E. change (inject_Z 2) with 2%Q in E. lra.
    - apply Z.compare_gt_iff in Hc. apply Qlt_shift_div_l; [exact HN|].
      assert (E : (inject_Z n < inject_Z (2 * r))%Q) by (rewrite <- Zlt_Qlt; exact Hc).
      rewrite inject_Z_mult in E. change (inject_Z 2) with 2%Q in E. lra. }
  assert (Hpos : 0 < r -> (0 < inject_Z r / inject_Z n)%Q).
  { intros H. apply Qlt_shift_div_l; [exact HN|]. pose proof (inject_Z_pos r H). lra. }
  assert (Hlt1 : (inject_Z r / inject_Z n < 1)%Q).
  { apply Qlt_shift_div_r; [exact HN|].
    assert (E : (inject_Z r < inject_Z n)%Q) by (rewrite <- Zlt_Qlt; lia). lra. }
  unfold new_location. destruct (Z.even n) eqn:Heven.
  - unfold new_location_even. destruct (Z.eqb_spec r 0) as [->|Hr0].
    + cbn [loc_ok]. change (inject_Z 0) with 0%Q. field. lra.
    + specialize (Hhalf _ eq_refl). specialize (Hpos ltac:(lia)).
      destruct (2 * r ?= n); cbn [loc_ok]; lra.
  - unfold new_location_odd. destruct (Z.eqb_spec r 0) as [->|Hr0].
    + cbn [loc_ok]. change (inject_Z 0) with 0%Q. field. lra.
    + specialize (Hpos ltac:(lia)).
      assert (Hodd : 2 * r <> n).
      { intros E. rewrite <- E, Z.even_mul in Heven. discriminate. }
      destruct (Z.compare_spec (2 * r + 1) n) as [Hc|Hc|Hc].
      * assert (Hc' : (2 * r ?= n) = Lt) by (apply Z.compare_lt_iff; lia).
        specialize (Hhalf _ Hc'). cbv beta iota in Hhalf. cbn [loc_ok]. lra.
      * assert (Hc' : (2 * r ?= n) = Lt) by (apply Z.compare_lt_iff; lia).
        specialize (Hhalf _ Hc'). cbv beta iota in Hhalf. cbn [loc_ok]. lra.
      * assert (Hc' : (2 * r ?= n) = Gt) by (apply Z.compare_gt_iff; lia).
        specialize (Hhalf _ Hc'). cbv beta iota in Hhalf. cbn [loc_ok]. lra.
Qed.

(** [F64.div]: the exact quotient, rounded to the nearest double. *)
Lemma div_spec (x y : float) (vx vy : Q) :
  repr x vx -> repr y vy -> ~ (vy == 0)%Q -> safe (vx / vy) ->
  exists v, repr (F64.div x y) v /\ rounds_to v (vx / vy).
Proof.
  destruct x as [sx|sx| |sx mx ex], y as [sy|sy| |sy my ey];
    cbn [repr]; try contradiction; intros Hx Hy Hnz Hs.
  - exists 0%Q. split; [reflexivity|]. left.
    split; [rewrite Hx; field; exact Hnz | reflexivity].
  - destruct Hx as [Hdx Hx], Hy as [Hdy Hy].
    pose proof (mantissa_pos mx ex) as HX. pose proof (mantissa_pos my ey) as HY.
    set (X := (inject_Z (Z.pos mx) * pow2 ex)%Q) in *.
    set (Y := (inject_Z (Z.pos my) * pow2 ey)%Q) in *.
    assert (Hquot : (vx / vy == sign (xorb sx sy) * (X / Y))%Q).
    { rewrite Hx, Hy. unfold F2Q. fold X. fold Y. rewrite sign_xorb.
      destruct sx, sy; cbn [sign]; field; lra. }
    assert (HXY : (0 < X / Y)%Q) by (apply Qlt_shift_div_l; lra).
    assert (Hqnz : ~ (vx / vy == 0)%Q).
    { rewrite Hquot. destruct (sign_cases (xorb sx sy)) as [->| ->]; lra. }
    assert (Habs : (Qabs (vx / vy) == X / Y)%Q).
    { rewrite Hquot, Qabs_sign_mult. apply Qabs_pos. lra. }
    pose proof (normal_range_ext _ _ Habs (safe_nonzero _ Hs Hqnz)) as [R1 R2].
    (* the mantissas *)
    pose proof (Zdigits2_bounds (Z.pos mx) ltac:(lia)) as [Bx1 Bx2].
    pose proof (Zdigits2_bounds (Z.pos my) ltac:(lia)) as [By1 By2].
    rewrite Hdx in Bx1, Bx2. rewrite Hdy in By1, By2.
    change (2 ^ (53 - 1)) with 4503599627370496 in Bx1, By1.
    change (2 ^ 53) with 9007199254740992 in Bx2, By2.
    (* the exponents *)
    assert (Hexp : -1021 <= ex - ey).
    { assert (A : (X / Y < pow2 (ex - ey + 1))%Q).
      { apply Qlt_shift_div_r; [exact HY|]. unfold X, Y.
        replace (ex - ey + 1) with (53 + (ex - ey - 52)) by lia.
        rewrite pow2_add.
        assert (A1 : (inject_Z (Z.pos mx) < pow2 53)%Q).
        { rewrite <- inject_Z_pow2 by lia. rewrite <- Zlt_Qlt. exact Bx2. }
        assert (A2 : (pow2 52 <= inject_Z (Z.pos my))%Q).
        { rewrite <- inject_Z_pow2 by lia. rewrite <- Zle_Qle. exact By1. }
        assert (A3 : (pow2 ex == pow2 (ex - ey - 52) * pow2 52 * pow2 ey)%Q).
        { rewrite <- !pow2_add. replace (ex - ey - 52 + 52 + ey) with ex by lia.
          reflexivity. }
        rewrite A3.
        pose proof (pow2_pos (ex - ey - 52)) as P1. pose proof (pow2_pos ey) as P2.
        pose proof (pow2_pos 52) as P3. pose proof (pow2_pos 53) as P4.
        apply Qlt_le_trans
          with (pow2 53 * (pow2 (ex - ey - 52) * pow2 52 * pow2 ey))%Q.
        - apply Qmult_lt_compat_r; [|exact A1].
          repeat apply Qmult_lt_0_compat; assumption.
        - setoid_replace (pow2 53 * (pow2 (ex - ey - 52) * pow2 52 * pow2 ey))%Q
            with (pow2 53 * pow2 (ex - ey - 52) * pow2 ey * pow2 52)%Q by ring.
          setoid_replace (pow2 53 * pow2 (ex - ey - 52) * (inject_Z (Z.pos my) * pow2 ey))%Q
            with (pow2 53 * pow2 (ex - ey - 52) * pow2 ey * inject_Z (Z.pos my))%Q by ring.
          apply Qmult_le_l; [|exact A2].
          repeat apply Qmult_lt_0_compat; assumption. }
      assert (B : (pow2 (-1021) < pow2 (ex - ey + 1))%Q) by lra.
      apply pow2_lt_inv in B. lia. }
    unfold F64.div, SFdiv, SFdiv_core_binary.
    change F64.prec with 53. change F64.emax with 1024.
    change (Zdigits2 (Z.pos mx)) with (Zdigits2 (Z.pos mx)).
    rewrite Hdx, Hdy.
    rewrite (fexp_normal (53 + ex - (53 + ey))) by lia.
    replace (Z.min (53 + ex - (53 + ey) - 53) (ex - ey)) with (ex - ey - 53) by lia.
    replace (ex - ey - (ex - ey - 53)) with 53 by lia.
    rewrite Z.shiftl_mul_pow2 by lia.
    pose proof (Z.div_eucl_eq (Z.pos mx * 2 ^ 53) (Z.pos my) ltac:(lia)) as Heq.
    pose proof (Z.mod_pos_bound (Z.pos mx * 2 ^ 53) (Z.pos my) ltac:(lia)) as Hrem.
    unfold Z.modulo in Hrem.
    destruct (Z.div_eucl (Z.pos mx * 2 ^ 53) (Z.pos my)) as [q r].
    change (2 ^ 53) with 9007199254740992 in Heq.
    assert (Hq : 4503599627370496 <= q) by nia.
    pose proof (new_location_ok (Z.pos my) q r ltac:(lia) Hrem) as Hloc.
    set (yq := (inject_Z q + inject_Z r / inject_Z (Z.pos my))%Q) in *.
    assert (Hyq : (yq * pow2 (ex - ey - 53) == X / Y)%Q).
    { unfold yq, X, Y.
      assert (E : (inject_Z (Z.pos mx) * pow2 53
                   == inject_Z (Z.pos my) * inject_Z q + inject_Z r)%Q).
      { rewrite <- inject_Z_pow2 by lia. rewrite <- !inject_Z_mult, <- inject_Z_plus.
        change (2 ^ 53) with 9007199254740992. rewrite Heq. reflexivity. }
      assert (P : (pow2 ex == pow2 (ex - ey - 53) * pow2 53 * pow2 ey)%Q).
      { rewrite <- !pow2_add. replace (ex - ey - 53 + 53 + ey) with ex by lia.
        reflexivity. }
      pose proof (inject_Z_pos (Z.pos my) ltac:(lia)) as Hmy.
      pose proof (pow2_pos ey) as P2.
      rewrite P.
      setoid_replace (inject_Z (Z.pos mx) * (pow2 (ex - ey - 53) * pow2 53 * pow2 ey))%Q
        with (inject_Z (Z.pos mx) * pow2 53 * (pow2 (ex - ey - 53) * pow2 ey))%Q by ring.
      rewrite E. field. split; lra. }
    destruct (round_loc_spec (xorb sx sy) q (ex - ey - 53) (new_location (Z.pos my) r) yq)
      as (m & e & Hres & Hrd).
    + lia.
    + exact Hloc.
    + apply Zdigits2_ge; [lia|]. change (2 ^ (53 - 1)) with 4503599627370496. exact Hq.
    + split; rewrite Hyq; assumption.
    + exists (F2Q (xorb sx sy) m e). rewrite Hres.
      split; [split; [apply Hrd | reflexivity]|].
      apply (rounded_rounds_to _ _ _ (X / Y)); [|exact Hquot].
      apply (rounded_ext _ _ _ _ Hyq), Hrd.
Qed.


(** ** What a rounding is worth *)

Lemma unit_roundoff_pow2 : (unit_roundoff == pow2 (-53))%Q.
Proof. reflexivity. Qed.

(** The relative error of a rounding is at most [2^-53]. *)
Lemma rounds_to_error (v x : Q) :
  rounds_to v x -> (Qabs (v - x) <= unit_roundoff * Qabs x)%Q.
Proof.
  intros [[Hx Hv]|(D & k & H1 & H2 & Hv & Herr)].
  - rewrite Hx, Hv. change (Qabs (0 - 0)) with 0%Q. change (Qabs 0) with 0%Q.
    unfold unit_roundoff. lra.
  - apply Qle_trans with (pow2 (D - 54)); [exact Herr|].
    apply Qle_trans with (unit_roundoff * pow2 (D - 1))%Q.
    + rewrite unit_roundoff_pow2, <- pow2_add.
      replace (-53 + (D - 1)) with (D - 54) by lia. apply Qle_refl.
    + apply Qmult_le_l; [reflexivity | exact H1].
Qed.

(** Two multiples of a unit that are at most half a unit apart are equal. *)
Lemma half_unit_eq (k j : Z) (g : Z) :
  (Qabs (inject_Z k * pow2 g - inject_Z j * pow2 g) <= pow2 (g - 1))%Q -> k = j.
Proof.
  intros H.
  setoid_replace (inject_Z k * pow2 g - inject_Z j * pow2 g)%Q
    with ((inject_Z k - inject_Z j) * pow2 g)%Q in H by ring.
  rewrite Qabs_Qmult, (Qabs_pos (pow2 g)), pow2_pred in H
    by (apply Qlt_le_weak, pow2_pos).
  rewrite (Qmult_comm (pow2 g) (1 # 2)) in H.
  apply Qmult_le_r in H; [|apply pow2_pos].
  apply Qabs_Qle_condition in H. destruct H as [H1 H2].
  assert (A : (inject_Z (2 * k) <= inject_Z (2 * j + 1))%Q).
  { rewrite inject_Z_plus, !inject_Z_mult. change (inject_Z 2) with 2%Q.
    change (inject_Z 1) with 1%Q. lra. }
  assert (B : (inject_Z (2 * j) <= inject_Z (2 * k + 1))%Q).
  { rewrite inject_Z_plus, !inject_Z_mult. change (inject_Z 2) with 2%Q.
    change (inject_Z 1) with 1%Q. lra. }
  rewrite <- Zle_Qle in A, B. lia.
Qed.

Lemma on_grid_le (g g' : Z) (v : Q) : g' <= g -> on_grid g v -> on_grid g' v.
Proof.
  intros H [k Hk]. exists (k * 2 ^ (g - g')). rewrite Hk. symmetry.
  apply scale_exponent, H.
Qed.

Lemma on_grid_add (g : Z) (v w : Q) : on_grid g v -> on_grid g w -> on_grid g (v + w).
Proof.
  intros [k Hk] [j Hj]. exists (k + j). rewrite Hk, Hj, inject_Z_plus. ring.
Qed.

Lemma on_grid_opp (g : Z) (v : Q) : on_grid g v -> on_grid g (- v).
Proof. intros [k Hk]. exists (- k). rewrite Hk, inject_Z_opp. ring. Qed.

Lemma on_grid_Z (n : Z) : on_grid 0 (inject_Z n).
Proof. exists n. rewrite pow2_0. ring. Qed.

(** A multiple of a unit is zero or at least the unit. *)
Lemma on_grid_lower (g : Z) (v : Q) :
  on_grid g v -> (v == 0)%Q \/ (pow2 g <= Qabs v)%Q.
Proof.
  intros [k Hk]. destruct (Z.eq_dec k 0) as [->|Hnz].
  - left. rewrite Hk. change (inject_Z 0) with 0%Q. ring.
  - right. rewrite Hk, Qabs_Qmult, (Qabs_pos (pow2 g)) by (apply Qlt_le_weak, pow2_pos).
    rewrite <- (Qmult_1_l (pow2 g)) at 1.
    apply Qmult_le_compat_r; [|apply Qlt_le_weak, pow2_pos].
    change (Qabs (inject_Z k)) with (inject_Z (Z.abs k)).
    change 1%Q with (inject_Z 1). rewrite <- Zle_Qle. lia.
Qed.

(** A number that is a double already is not changed by rounding. *)
Lemma rounds_to_exact (v x : Q) (g : Z) :
  rounds_to v x -> on_grid g x -> (Qabs x < pow2 (g + 53))%Q -> (v == x)%Q.
Proof.
  intros [[Hx Hv]|(D & k & H1 & H2 & Hv & Herr)] Hg Hlt.
  - rewrite Hx, Hv. reflexivity.
  - assert (HD : D - 53 <= g).
    { assert (A : (pow2 (D - 1) < pow2 (g + 53))%Q) by lra.
      apply pow2_lt_inv in A. lia. }
    destruct (on_grid_le _ _ _ HD Hg) as [j Hj].
    rewrite Hv, Hj in Herr. replace (D - 54) with (D - 53 - 1) in Herr by lia.
    apply half_unit_eq in Herr. rewrite Hv, Hj, Herr. reflexivity.
Qed.

(** The grid of a rounding: that of a number at least [2^L] is [2^(L-52)]. *)
Lemma rounds_to_grid (v x : Q) (L : Z) :
  rounds_to v x -> (x == 0)%Q \/ (pow2 L <= Qabs x)%Q -> on_grid (L - 52) v.
Proof.
  intros [[Hx Hv]|(D & k & H1 & H2 & Hv & Herr)] Hl.
  - exists 0. rewrite Hv. change (inject_Z 0) with 0%Q. ring.
  - destruct Hl as [Hz|Hl].
    + rewrite Hz in H1. change (Qabs 0) with 0%Q in H1.
      pose proof (pow2_pos (D - 1)). lra.
    + assert (A : (pow2 L < pow2 D)%Q) by lra. apply pow2_lt_inv in A.
      apply (on_grid_le (D - 53)); [lia|]. exists k. exact Hv.
Qed.


(** ** Integers as doubles *)

Lemma repr_ext (x : float) (v w : Q) : (v == w)%Q -> repr x v -> repr x w.
Proof.
  intros E. destruct x as [s|s| |s m e]; cbn [repr]; auto.
  - intros H. rewrite <- E. exact H.
  - intros [Hd H]. split; [exact Hd|]. rewrite <- E. exact H.
Qed.

Lemma pow2_numeral (n : Z) : 0 <= n -> (pow2 n == inject_Z (2 ^ n))%Q.
Proof. apply pow2_Z. Qed.

(** Bounds between two powers of two in the normal range are safe. *)
Lemma safe_between (x : Q) (L H : Z) :
  -1021 <= L -> H <= 1023 ->
  (x == 0)%Q \/ ((pow2 L <= Qabs x)%Q /\ (Qabs x < pow2 H)%Q) -> safe x.
Proof.
  intros HL HH [Hz|[H1 H2]]; [left; exact Hz | right].
  split.
  - apply Qle_trans with (pow2 L); [apply pow2_le; lia | exact H1].
  - apply Qlt_le_trans with (pow2 H); [exact H2 | apply pow2_le; lia].
Qed.

Lemma Qabs_inject_Z (n : Z) : Qabs (inject_Z n) = inject_Z (Z.abs n).
Proof. reflexivity. Qed.

Lemma int_safe (n : Z) : Z.abs n < 2 ^ 53 -> safe (inject_Z n).
Proof.
  intros H. apply (safe_between _ 0 53); try lia.
  destruct (Z.eq_dec n 0) as [->|Hnz]; [left; reflexivity | right].
  rewrite Qabs_inject_Z, pow2_0, (pow2_numeral 53) by lia.
  change 1%Q with (inject_Z 1). rewrite <- Zle_Qle, <- Zlt_Qlt. lia.
Qed.

(** An integer below [2^53] is a double: its rounding is the integer itself. *)
Lemma int_exact (x : float) (v : Q) (n : Z) :
  repr x v -> rounds_to v (inject_Z n) -> Z.abs n < 2 ^ 53 -> repr x (inject_Z n).
Proof.
  intros Hr Hv Hn. apply (repr_ext x v); [|exact Hr].
  apply (rounds_to_exact v _ 0 Hv (on_grid_Z n)).
  rewrite Qabs_inject_Z. change (0 + 53) with 53. rewrite (pow2_numeral 53) by lia.
  rewrite <- Zlt_Qlt. exact Hn.
Qed.

Lemma of_Z_exact (n : Z) : Z.abs n < 2 ^ 53 -> repr (F64.of_Z n) (inject_Z n).
Proof.
  intros H. destruct (of_Z_spec n (int_safe n H)) as (v & Hr & Hv).
  exact (int_exact _ _ _ Hr Hv H).
Qed.

(** Doubles that compare equal have equal values. *)
Lemma eqb_value (x y : float) (vx vy : Q) :
  repr x vx -> repr y vy -> F64.eqb x y = true -> (vx == vy)%Q.
Proof.
  destruct x as [sx|sx| |sx mx ex], y as [sy|sy| |sy my ey];
    cbn [repr]; try contradiction; intros Hx Hy H.
  - rewrite Hx, Hy. reflexivity.
  - destruct sy; discriminate H.
  - destruct sx; discriminate H.
  - destruct Hx as [_ Hx], Hy as [_ Hy].
    assert (E : sx = sy /\ ex = ey /\ mx = my).
    { unfold F64.eqb, SFeqb, SFcompare in H.
      destruct sx, sy; try discriminate H;
        destruct (ex ?= ey) eqn:He; try discriminate H;
        destruct (Pos.compare_cont Eq mx my) eqn:Hm; try discriminate H;
        apply Z.compare_eq in He; apply Pos.compare_eq in Hm; auto. }
    destruct E as (-> & -> & ->). rewrite Hx, Hy. reflexivity.
Qed.

(** ** Absolute values *)

Lemma Qmult_le_nonneg_l (x y z : Q) :
  (0 <= z)%Q -> (x <= y)%Q -> (z * x <= z * y)%Q.
Proof.
  intros Hz H. rewrite !(Qmult_comm z). apply Qmult_le_compat_r; assumption.
Qed.

Lemma Qabs_mult_le (x y X Y : Q) :
  (Qabs x <= X)%Q -> (Qabs y <= Y)%Q -> (Qabs (x * y) <= X * Y)%Q.
Proof.
  intros Hx Hy. rewrite Qabs_Qmult.
  apply Qmult_le_compat_nonneg; split; try assumption; apply Qabs_nonneg.
Qed.

Lemma Qabs_triangle_sub (x y z : Q) :
  (Qabs (x - z) <= Qabs (x - y) + Qabs (y - z))%Q.
Proof.
  setoid_replace (x - z)%Q with ((x - y) + (y - z))%Q by ring.
  apply Qabs_triangle.
Qed.

Lemma Qabs_le_add (x y X : Q) :
  (Qabs (x - y) <= X)%Q -> (Qabs x <= Qabs y + X)%Q.
Proof.
  intros H. setoid_replace x with ((x - y) + y)%Q at 1 by ring.
  eapply Qle_trans; [apply Qabs_triangle|]. lra.
Qed.

(** ** Magnitudes through the operations *)

Lemma ranged_ext (L H : Z) (x y : Q) : (x == y)%Q -> ranged L H x -> ranged L H y.
Proof. intros E [Hl Hh]. unfold ranged. rewrite <- E. split; assumption. Qed.

Lemma ranged_weaken (L H L' H' : Z) (x : Q) :
  L' <= L -> H <= H' -> ranged L H x -> ranged L' H' x.
Proof.
  intros HL HH [[Hz|Hl] Hh]; split.
  - left; exact Hz.
  - eapply Qle_trans; [exact Hh | apply pow2_le, HH].
  - right. eapply Qle_trans; [apply pow2_le, HL | exact Hl].
  - eapply Qle_trans; [exact Hh | apply pow2_le, HH].
Qed.

Lemma ranged_safe (L H : Z) (x : Q) :
  ranged L H x -> -1021 <= L -> H < 1023 -> safe x.
Proof.
  intros [[Hz|Hl] Hh] HL HH; apply (safe_between x L (H + 1)); try lia.
  - left; exact Hz.
  - right. split; [exact Hl|].
    eapply Qle_lt_trans; [exact Hh | apply pow2_lt; lia].
Qed.

Lemma ranged_opp (L H : Z) (x : Q) : ranged L H x -> ranged L H (- x).
Proof.
  intros [[Hz|Hl] Hh]; split; rewrite ?Qabs_opp; try assumption.
  - left. rewrite Hz. reflexivity.
  - right; exact Hl.
Qed.

Lemma ranged_mul (L1 H1 L2 H2 : Z) (x y : Q) :
  ranged L1 H1 x -> ranged L2 H2 y -> ranged (L1 + L2) (H1 + H2) (x * y).
Proof.
  intros [Hlx Hhx] [Hly Hhy]. split.
  - destruct Hlx as [Hz|Hlx]; [left; rewrite Hz; ring|].
    destruct Hly as [Hz|Hly]; [left; rewrite Hz; ring|].
    right. rewrite pow2_add, Qabs_Qmult.
    apply Qmult_le_compat_nonneg; split; try assumption;
      apply Qlt_le_weak, pow2_pos.
  - rewrite pow2_add. apply Qabs_mult_le; assumption.
Qed.

Lemma Qabs_nonzero (y : Q) : ~ (y == 0)%Q -> (0 < Qabs y)%Q.
Proof.
  intros Hy. destruct (Qlt_le_dec 0 (Qabs y)) as [H|H]; [exact H|].
  exfalso. apply Hy. pose proof (Qabs_nonneg y).
  apply Qabs_Qle_condition in H. lra.
Qed.

Lemma Qabs_div (x y : Q) : ~ (y == 0)%Q -> (Qabs (x / y) == Qabs x / Qabs y)%Q.
Proof.
  intros Hy. unfold Qdiv. rewrite Qabs_Qmult, Qabs_Qinv. reflexivity.
Qed.

Lemma ranged_div (L1 H1 L2 H2 : Z) (x y : Q) :
  ranged L1 H1 x -> ranged L2 H2 y -> ~ (y == 0)%Q ->
  ranged (L1 - H2) (H1 - L2) (x / y).
Proof.
  intros [Hlx Hhx] [Hly Hhy] Hy.
  destruct Hly as [Hz|Hly]; [contradiction|].
  pose proof (Qabs_nonzero y Hy) as Hpos.
  split.
  - destruct Hlx as [Hz|Hlx]; [left; rewrite Hz; field; exact Hy|].
    right. rewrite Qabs_div by exact Hy.
    apply Qle_shift_div_l; [exact Hpos|].
    apply Qle_trans with (pow2 (L1 - H2) * pow2 H2)%Q.
    + apply Qmult_le_nonneg_l; [apply Qlt_le_weak, pow2_pos | exact Hhy].
    + rewrite <- pow2_add. replace (L1 - H2 + H2) with L1 by lia. exact Hlx.
  - rewrite Qabs_div by exact Hy.
    apply Qle_shift_div_r; [exact Hpos|].
    apply Qle_trans with (pow2 (H1 - L2) * pow2 L2)%Q.
    + rewrite <- pow2_add. replace (H1 - L2 + L2) with H1 by lia. exact Hhx.
    + apply Qmult_le_nonneg_l; [apply Qlt_le_weak, pow2_pos | exact Hly].
Qed.

Lemma ranged_sum (g H : Z) (x y : Q) :
  on_grid g x -> on_grid g y -> (Qabs x <= pow2 H)%Q -> (Qabs y <= pow2 H)%Q ->
  ranged g (H + 1) (x + y).
Proof.
  intros Gx Gy Hx Hy. split.
  - apply on_grid_lower, on_grid_add; assumption.
  - rewrite pow2_succ. eapply Qle_trans; [apply Qabs_triangle|]. lra.
Qed.

(** A double of magnitude at least [2^L] is a multiple of [2^(L-52)]. *)
Lemma repr_grid (x : float) (v : Q) (L H : Z) :
  repr x v -> ranged L H v -> on_grid (L - 52) v.
Proof.
  intros Hr [Hl _].
  apply (rounds_to_grid v v L); [|exact Hl].
  apply (repr_rounds_to x v v Hr). reflexivity.
Qed.

(** What one rounding does to the magnitude: at most a factor of two. *)
Lemma round_ranged (v x : Q) (L H : Z) :
  (Qabs (v - x) <= unit_roundoff * Qabs x)%Q -> ranged L H x ->
  ranged (L - 1) (H + 1) v.
Proof.
  intros He [Hl Hh].
  pose proof (Qabs_nonneg x) as Hx0.
  assert (Hup : (Qabs v <= 2 * Qabs x)%Q).
  { eapply Qle_trans; [apply (Qabs_le_add v x), He|].
    unfold unit_roundoff. lra. }
  assert (Hlo : (Qabs x * (1 # 2) <= Qabs v)%Q).
  { assert (T : (Qabs x <= Qabs v + unit_roundoff * Qabs x)%Q).
    { apply (Qabs_le_add x v). rewrite Qabs_Qminus. exact He. }
    unfold unit_roundoff in T. lra. }
  split.
  - destruct Hl as [Hz|Hl].
    + left. rewrite Hz in He. change (Qabs 0) with 0%Q in He.
      apply Qabs_Qle_condition in He. lra.
    + right. rewrite pow2_pred. lra.
  - rewrite pow2_succ. lra.
Qed.

(** ** One operation of the program *)

(** A product of two ranged values: its value, its magnitude and its error. *)
Lemma mul_step (x y : float) (vx vy : Q) (L1 H1 L2 H2 : Z) :
  repr x vx -> repr y vy -> ranged L1 H1 vx -> ranged L2 H2 vy ->
  -1021 <= L1 + L2 -> H1 + H2 < 1023 ->
  exists v,
    repr (F64.mul x y) v /\
    ranged (L1 + L2 - 1) (H1 + H2 + 1) v /\
    (Qabs (v - vx * vy) <= unit_roundoff * Qabs (vx * vy))%Q.
Proof.
  intros Hx Hy Rx Ry HL HH.
  pose proof (ranged_mul _ _ _ _ _ _ Rx Ry) as R.
  destruct (mul_spec x y vx vy Hx Hy (ranged_safe _ _ _ R HL HH)) as (v & Hr & Hv).
  pose proof (rounds_to_error _ _ Hv) as He.
  exists v. split; [exact Hr|]. split; [|exact He].
  apply (round_ranged _ _ _ _ He R).
Qed.

(** A quotient of two ranged values. *)
Lemma div_step (x y : float) (vx vy : Q) (L1 H1 L2 H2 : Z) :
  repr x vx -> repr y vy -> ranged L1 H1 vx -> ranged L2 H2 vy ->
  ~ (vy == 0)%Q ->
  -1021 <= L1 - H2 -> H1 - L2 < 1023 ->
  exists v,
    repr (F64.div x y) v /\
    ranged (L1 - H2 - 1) (H1 - L2 + 1) v /\
    (Qabs (v - vx / vy) <= unit_roundoff * Qabs (vx / vy))%Q.
Proof.
  intros Hx Hy Rx Ry Hnz HL HH.
  pose proof (ranged_div _ _ _ _ _ _ Rx Ry Hnz) as R.
  destruct (div_spec x y vx vy Hx Hy Hnz (ranged_safe _ _ _ R HL HH)) as (v & Hr & Hv).
  pose proof (rounds_to_error _ _ Hv) as He.
  exists v. split; [exact Hr|]. split; [|exact He].
  apply (round_ranged _ _ _ _ He R).
Qed.

(** A sum of two values of one range. *)
Lemma add_step (x y : float) (vx vy : Q) (L H : Z) :
  repr x vx -> repr y vy -> ranged L H vx -> ranged L H vy ->
  -1021 <= L - 52 -> H + 1 < 1023 ->
  exists v,
    repr (F64.add x y) v /\
    ranged (L - 53) (H + 2) v /\
    (Qabs (v - (vx + vy)) <= unit_roundoff * Qabs (vx + vy))%Q.
Proof.
  intros Hx Hy Rx Ry HL HH.
  pose proof (ranged_sum _ H _ _ (repr_grid _ _ _ _ Hx Rx) (repr_grid _ _ _ _ Hy Ry)
                (proj2 Rx) (proj2 Ry)) as R.
  destruct (add_spec x y vx vy Hx Hy (ranged_safe _ _ _ R HL HH)) as (v & Hr & Hv).
  pose proof (rounds_to_error _ _ Hv) as He.
  exists v. split; [exact Hr|]. split; [|exact He].
  replace (L - 53) with (L - 52 - 1) by lia. replace (H + 2) with (H + 1 + 1) by lia.
  apply (round_ranged _ _ _ _ He R).
Qed.

(** A difference of two values of one range. *)
Lemma sub_step (x y : float) (vx vy : Q) (L H : Z) :
  repr x vx -> repr y vy -> ranged L H vx -> ranged L H vy ->
  -1021 <= L - 52 -> H + 1 < 1023 ->
  exists v,
    repr (F64.sub x y) v /\
    ranged (L - 53) (H + 2) v /\
    (Qabs (v - (vx - vy)) <= unit_roundoff * Qabs (vx - vy))%Q.
Proof.
  intros Hx Hy Rx Ry HL HH.
  pose proof (ranged_sum _ H _ _ (repr_grid _ _ _ _ Hx Rx)
                (on_grid_opp _ _ (repr_grid _ _ _ _ Hy Ry))
                (proj2 Rx) (proj2 (ranged_opp _ _ _ Ry))) as R.
  destruct (sub_spec x y vx vy Hx Hy (ranged_safe _ _ _ R HL HH)) as (v & Hr & Hv).
  pose proof (rounds_to_error _ _ Hv) as He.
  exists v. split; [exact Hr|]. split; [|exact He].
  replace (L - 53) with (L - 52 - 1) by lia. replace (H + 2) with (H + 1 + 1) by lia.
  apply (round_ranged _ _ _ _ He R).
Qed.


(** ** Accumulating the rounding errors *)

Lemma Qabs_cases (x : Q) :
  (0 <= x /\ Qabs x == x)%Q \/ (x <= 0 /\ Qabs x == - x)%Q.
Proof.
  destruct (Qlt_le_dec x 0) as [H|H].
  - right. split; [lra|]. apply Qabs_neg. lra.
  - left. split; [exact H|]. apply Qabs_pos. exact H.
Qed.

Ltac qabs t :=
  let H := fresh "Hs" in let E := fresh "Ea" in
  destruct (Qabs_cases t) as [[H E]|[H E]].

#[local] Instance near_proper :
  Proper (Qeq ==> Qeq ==> Qeq ==> Qeq ==> iff) near.
Proof.
  intros e e' He v v' Hv x x' Hx M M' HM. unfold near.
  rewrite He, Hv, Hx, HM. reflexivity.
Qed.

Section Accumulation.

Local Open Scope Q_scope.

Lemma near_scale_nonneg (e v x M : Q) : near e v x M -> 0 <= M.
Proof. intros [_ H]. pose proof (Qabs_nonneg x). lra. Qed.

Lemma near_exact (x M : Q) : Qabs x <= M -> near 0 x x M.
Proof.
  intros H. split; [|exact H].
  setoid_replace (x - x) with 0 by ring. change (Qabs 0) with 0. lra.
Qed.

Lemma near_weaken (e e' v x M M' : Q) :
  0 <= e -> e <= e' -> M <= M' -> near e v x M -> near e' v x M'.
Proof.
  intros He0 He HM Hn. pose proof (near_scale_nonneg _ _ _ _ Hn) as HM0.
  destruct Hn as [H1 H2]. split; [|lra].
  eapply Qle_trans; [exact H1|].
  apply Qmult_le_compat_nonneg; split; lra.
Qed.

Lemma near_bound (e v x M : Q) : near e v x M -> Qabs v <= (1 + e) * M.
Proof.
  intros [H1 H2]. qabs v; qabs (v - x); qabs x; lra.
Qed.

(** One more rounding. *)
Lemma near_round (e v w x M : Q) :
  0 <= e -> near e v x M -> Qabs (w - v) <= unit_roundoff * Qabs v ->
  near (rnd e) w x M.
Proof.
  intros He Hn Hw. pose proof (near_bound _ _ _ _ Hn) as Hb.
  destruct Hn as [H1 H2]. split; [|exact H2].
  unfold rnd. unfold unit_roundoff in *.
  qabs (w - x); qabs (w - v); qabs (v - x); lra.
Qed.

Lemma near_opp (e v x M : Q) : near e v x M -> near e (- v) (- x) M.
Proof.
  intros [H1 H2]. split.
  - setoid_replace (- v - - x) with (- (v - x)) by ring. rewrite Qabs_opp. exact H1.
  - rewrite Qabs_opp. exact H2.
Qed.

Lemma near_add (e v1 x1 M1 v2 x2 M2 : Q) :
  near e v1 x1 M1 -> near e v2 x2 M2 -> near e (v1 + v2) (x1 + x2) (M1 + M2).
Proof.
  intros [H1 H2] [H3 H4]. split.
  - qabs (v1 + v2 - (x1 + x2)); qabs (v1 - x1); qabs (v2 - x2); lra.
  - qabs (x1 + x2); qabs x1; qabs x2; lra.
Qed.

Lemma near_sub (e v1 x1 M1 v2 x2 M2 : Q) :
  near e v1 x1 M1 -> near e v2 x2 M2 -> near e (v1 - v2) (x1 - x2) (M1 + M2).
Proof.
  intros [H1 H2] [H3 H4]. split.
  - qabs (v1 - v2 - (x1 - x2)); qabs (v1 - x1); qabs (v2 - x2); lra.
  - qabs (x1 - x2); qabs x1; qabs x2; lra.
Qed.

(** A product with a value known exactly. *)
Lemma near_scale (e v x M f F : Q) :
  near e v x M -> Qabs f <= F -> near e (v * f) (x * f) (M * F).
Proof.
  intros [H1 H2] Hf. split.
  - setoid_replace (v * f - x * f) with ((v - x) * f) by ring.
    setoid_replace (e * (M * F)) with ((e * M) * F) by ring.
    apply Qabs_mult_le; assumption.
  - apply Qabs_mult_le; assumption.
Qed.

Lemma near_pos (e v x : Q) :
  near e v x x -> e < 1 -> 0 < x -> (1 - e) * x <= v /\ 0 < v.
Proof.
  intros [H1 _] He Hx.
  assert (H : (1 - e) * x <= v) by (qabs (v - x); lra).
  split; [exact H|].
  apply Qlt_le_trans with ((1 - e) * x); [|exact H].
  apply Qmult_lt_0_compat; lra.
Qed.

(** A product of two positive quantities. *)
Lemma near_mul_pos (e1 e2 v1 v2 x1 x2 : Q) :
  0 <= e1 -> 0 <= e2 -> 0 < x1 -> 0 < x2 ->
  near e1 v1 x1 x1 -> near e2 v2 x2 x2 ->
  near (mulE e1 e2) (v1 * v2) (x1 * x2) (x1 * x2).
Proof.
  intros He1 He2 Hx1 Hx2 Hn1 Hn2.
  pose proof (near_bound _ _ _ _ Hn1) as Hb1.
  destruct Hn1 as [H1 _], Hn2 as [H2 _].
  assert (P : 0 < x1 * x2) by (apply Qmult_lt_0_compat; assumption).
  split; [|rewrite Qabs_pos; lra].
  assert (A : Qabs ((v1 - x1) * x2) <= (e1 * x1) * x2).
  { apply Qabs_mult_le; [exact H1 | rewrite Qabs_pos; lra]. }
  assert (B : Qabs (v1 * (v2 - x2)) <= ((1 + e1) * x1) * (e2 * x2)).
  { apply Qabs_mult_le; assumption. }
  setoid_replace (v1 * v2 - x1 * x2) with ((v1 - x1) * x2 + v1 * (v2 - x2)) by ring.
  eapply Qle_trans; [apply Qabs_triangle|]. unfold mulE.
  setoid_replace ((e1 + e2 + e1 * e2) * (x1 * x2))
    with (e1 * x1 * x2 + (1 + e1) * x1 * (e2 * x2)) by ring.
  lra.
Qed.

(** A quotient by a positive quantity known up to a relative error. *)
Lemma near_div (e1 e2 n N M q Q0 : Q) :
  0 <= e1 -> 0 <= e2 -> e2 < 1 -> 0 < Q0 ->
  near e1 n N M -> near e2 q Q0 Q0 ->
  near (divE e1 e2) (n / q) (N / Q0) (M / Q0).
Proof.
  intros He1 He2 He21 HQ Hn Hq.
  pose proof (near_scale_nonneg _ _ _ _ Hn) as HM.
  destruct (near_pos _ _ _ Hq He21 HQ) as [Hqlo Hqpos].
  destruct Hn as [H1 H2], Hq as [H3 _].
  assert (HqQ : 0 < q * Q0) by (apply Qmult_lt_0_compat; assumption).
  split.
  - assert (X : Qabs (n * Q0 - N * q) <= (e1 + e2) * M * Q0).
    { setoid_replace (n * Q0 - N * q) with ((n - N) * Q0 + - (N * (q - Q0))) by ring.
      eapply Qle_trans; [apply Qabs_triangle|]. rewrite Qabs_opp.
      assert (A : Qabs ((n - N) * Q0) <= (e1 * M) * Q0).
      { apply Qabs_mult_le; [exact H1 | rewrite Qabs_pos; lra]. }
      assert (B : Qabs (N * (q - Q0)) <= M * (e2 * Q0)).
      { apply Qabs_mult_le; assumption. }
      setoid_replace ((e1 + e2) * M * Q0) with (e1 * M * Q0 + M * (e2 * Q0)) by ring.
      lra. }
    setoid_replace (n / q - N / Q0) with ((n * Q0 - N * q) / (q * Q0))
      by (field; split; lra).
    rewrite Qabs_div by lra. rewrite (Qabs_pos (q * Q0)) by lra.
    apply Qle_shift_div_r; [exact HqQ|].
    eapply Qle_trans; [exact X|].
    unfold divE.
    setoid_replace ((e1 + e2) / (1 - e2) * (M / Q0) * (q * Q0))
      with ((e1 + e2) * M * (q / (1 - e2))) by (field; split; lra).
    apply Qmult_le_nonneg_l.
    + apply Qmult_le_0_compat; lra.
    + apply Qle_shift_div_l; lra.
  - rewrite Qabs_div by lra. rewrite (Qabs_pos Q0) by lra.
    apply Qle_shift_div_r; [exact HQ|].
    setoid_replace (M / Q0 * Q0) with M by (field; lra). exact H2.
Qed.

(** A rounded value, against what was rounded. *)
Lemma near_rounded (w x : Q) :
  Qabs (w - x) <= unit_roundoff * Qabs x -> near unit_roundoff w x (Qabs x).
Proof. intros H. split; [exact H | lra]. Qed.

End Accumulation.


(** ** The second-order difference on unequal spacings *)

Ltac qnum := unfold Qle, Qlt; vm_compute; first [reflexivity | discriminate].

Ltac near_step E N :=
  eapply near_weaken; revgoals;
  [ eapply near_round; revgoals; [exact E | exact N | qnum]
  | apply Qle_refl | qnum | qnum ].

Lemma unit_roundoff_nonneg : (0 <= unit_roundoff)%Q.
Proof. qnum. Qed.

Lemma near_positive (e v x : Q) :
  near e v x x -> (e < 1)%Q -> (0 < x)%Q -> ~ (v == 0)%Q.
Proof. intros Hn He Hx. destruct (near_pos _ _ _ Hn He Hx). lra. Qed.

(** The difference of two temperatures of the data is a spacing. *)
Lemma spacing_of_data (T0 T1 : float) (t0 t1 : Q) :
  repr T0 t0 -> repr T1 t1 -> moderate t0 -> moderate t1 -> (t0 < t1)%Q ->
  exists v, spacing (F64.sub T1 T0) v (t1 - t0).
Proof.
  intros H0 H1 M0 M1 Hlt.
  destruct (sub_step T1 T0 t1 t0 (-100) 100 H1 H0 M1 M0) as (v & Hr & R & E); try lia.
  exists v. split; [exact Hr|]. split; [exact R|]. split; [|lra].
  pose proof (near_rounded _ _ E) as N.
  rewrite (Qabs_pos (t1 - t0)) in N by lra. exact N.
Qed.

Section Stencil.

Variables (dx1 dx2 F0 F1 F2 : float) (v1 v2 D1 D2 f0 f1 f2 F : Q).
Hypothesis S1 : spacing dx1 v1 D1.
Hypothesis S2 : spacing dx2 v2 D2.
Hypothesis R0 : repr F0 f0.
Hypothesis R1 : repr F1 f1.
Hypothesis R2 : repr F2 f2.
Hypothesis M0 : moderate f0.
Hypothesis M1 : moderate f1.
Hypothesis M2 : moderate f2.
Hypothesis B0 : (Qabs f0 <= F)%Q.
Hypothesis B1 : (Qabs f1 <= F)%Q.
Hypothesis B2 : (Qabs f2 <= F)%Q.

(** [a * f0 + b * f1 + c * f2] with the coefficients of [np.gradient] from
    the spacings [dx1] and [dx2], all in doubles, against the same formula
    in exact arithmetic on the exact spacings: the error is at most eleven
    unit roundoffs of the sum of the magnitudes of the three terms. *)
Lemma nonuniform_stencil :
  exists v,
    repr (F64.add
            (F64.add
               (F64.mul (F64.div (SFopp dx2) (F64.mul dx1 (F64.add dx1 dx2))) F0)
               (F64.mul (F64.div (F64.sub dx2 dx1) (F64.mul dx1 dx2)) F1))
            (F64.mul (F64.div dx1 (F64.mul dx2 (F64.add dx1 dx2))) F2)) v /\
    near (11 * unit_roundoff) v
         (- D2 / (D1 * (D1 + D2)) * f0 + (D2 - D1) / (D1 * D2) * f1
          + D1 / (D2 * (D1 + D2)) * f2)%Q
         (D2 / (D1 * (D1 + D2)) * F + (D2 + D1) / (D1 * D2) * F
          + D1 / (D2 * (D1 + D2)) * F)%Q.
Proof.
  destruct S1 as (Hr1 & Rg1 & N1 & P1), S2 as (Hr2 & Rg2 & N2 & P2).
  pose proof unit_roundoff_nonneg as Hu.
  (* dx1 + dx2 *)
  destruct (add_step dx1 dx2 v1 v2 (-153) 102 Hr1 Hr2 Rg1 Rg2) as (s & Hrs & Rgs & Es);
    try lia.
  pose proof (near_round _ _ _ _ _ Hu (near_add _ _ _ _ _ _ _ N1 N2) Es) as Ns.
  assert (Ps : (0 < D1 + D2)%Q) by lra.
  (* dx1 * (dx1 + dx2) *)
  destruct (mul_step dx1 _ v1 s (-153) 102 (-206) 104 Hr1 Hrs Rg1 Rgs)
    as (p1 & Hrp1 & Rgp1 & Ep1); try lia.
  assert (Np1 : near (rnd (mulE unit_roundoff (rnd unit_roundoff))) p1
                     (D1 * (D1 + D2)) (D1 * (D1 + D2))).
  { apply (near_round _ (v1 * s)); [qnum | | exact Ep1].
    apply near_mul_pos; try assumption; qnum. }
  assert (Pp1 : (0 < D1 * (D1 + D2))%Q) by (apply Qmult_lt_0_compat; lra).
  assert (Zp1 : ~ (p1 == 0)%Q) by (apply (near_positive _ _ _ Np1); [qnum | exact Pp1]).
  (* a *)
  destruct (div_step (SFopp dx2) _ (- v2) p1 (-153) 102 (-360) 207
              (opp_spec _ _ Hr2) Hrp1 (ranged_opp _ _ _ Rg2) Rgp1 Zp1)
    as (a & Hra & Rga & Ea); try lia.
  assert (Na : near (rnd (divE unit_roundoff (rnd (mulE unit_roundoff (rnd unit_roundoff)))))
                    a (- D2 / (D1 * (D1 + D2))) (D2 / (D1 * (D1 + D2)))).
  { apply (near_round _ (- v2 / p1)); [qnum | | exact Ea].
    apply near_div; try assumption; try qnum.
    apply near_opp, N2. }
  (* a * f0 *)
  destruct (mul_step _ F0 a f0 _ _ (-100) 100 Hra R0 Rga M0) as (pa & Hrpa & Rgpa & Epa);
    try lia.
  assert (Npa : near (8 * unit_roundoff) pa (- D2 / (D1 * (D1 + D2)) * f0)
                     (D2 / (D1 * (D1 + D2)) * F)).
  { near_step Epa (near_scale _ _ _ _ _ _ Na B0). }
  (* dx2 * (dx1 + dx2) *)
  destruct (mul_step dx2 _ v2 s (-153) 102 (-206) 104 Hr2 Hrs Rg2 Rgs)
    as (p2 & Hrp2 & Rgp2 & Ep2); try lia.
  assert (Np2 : near (rnd (mulE unit_roundoff (rnd unit_roundoff))) p2
                     (D2 * (D1 + D2)) (D2 * (D1 + D2))).
  { apply (near_round _ (v2 * s)); [qnum | | exact Ep2].
    apply near_mul_pos; try assumption; qnum. }
  assert (Pp2 : (0 < D2 * (D1 + D2))%Q) by (apply Qmult_lt_0_compat; lra).
  assert (Zp2 : ~ (p2 == 0)%Q) by (apply (near_positive _ _ _ Np2); [qnum | exact Pp2]).
  (* c *)
  destruct (div_step dx1 _ v1 p2 (-153) 102 (-360) 207 Hr1 Hrp2 Rg1 Rgp2 Zp2)
    as (c & Hrc & Rgc & Ec); try lia.
  assert (Nc : near (rnd (divE unit_roundoff (rnd (mulE unit_roundoff (rnd unit_roundoff)))))
                    c (D1 / (D2 * (D1 + D2))) (D1 / (D2 * (D1 + D2)))).
  { apply (near_round _ (v1 / p2)); [qnum | | exact Ec].
    apply near_div; try assumption; try qnum. }
  destruct (mul_step _ F2 c f2 _ _ (-100) 100 Hrc R2 Rgc M2) as (pc & Hrpc & Rgpc & Epc);
    try lia.
  assert (Npc : near (rnd (8 * unit_roundoff)) pc (D1 / (D2 * (D1 + D2)) * f2)
                     (D1 / (D2 * (D1 + D2)) * F)).
  { near_step Epc (near_scale _ _ _ _ _ _ Nc B2). }
  (* dx2 - dx1 *)
  destruct (sub_step dx2 dx1 v2 v1 (-153) 102 Hr2 Hr1 Rg2 Rg1) as (nb & Hrnb & Rgnb & Enb);
    try lia.
  pose proof (near_round _ _ _ _ _ Hu (near_sub _ _ _ _ _ _ _ N2 N1) Enb) as Nnb.
  (* dx1 * dx2 *)
  destruct (mul_step dx1 dx2 v1 v2 (-153) 102 (-153) 102 Hr1 Hr2 Rg1 Rg2)
    as (q & Hrq & Rgq & Eq); try lia.
  assert (Nq : near (rnd (mulE unit_roundoff unit_roundoff)) q (D1 * D2) (D1 * D2)).
  { apply (near_round _ (v1 * v2)); [qnum | | exact Eq].
    apply near_mul_pos; assumption. }
  assert (Pq : (0 < D1 * D2)%Q) by (apply Qmult_lt_0_compat; lra).
  assert (Zq : ~ (q == 0)%Q) by (apply (near_positive _ _ _ Nq); [qnum | exact Pq]).
  (* b *)
  destruct (div_step _ _ nb q (-206) 104 (-307) 205 Hrnb Hrq Rgnb Rgq Zq)
    as (b & Hrb & Rgb & Eb); try lia.
  assert (Nb : near (rnd (divE (rnd unit_roundoff) (rnd (mulE unit_roundoff unit_roundoff))))
                    b ((D2 - D1) / (D1 * D2)) ((D2 + D1) / (D1 * D2))).
  { apply (near_round _ (nb / q)); [qnum | | exact Eb].
    apply near_div; try assumption; try qnum. }
  destruct (mul_step _ F1 b f1 _ _ (-100) 100 Hrb R1 Rgb M1) as (pb & Hrpb & Rgpb & Epb);
    try lia.
  assert (Npb : near (8 * unit_roundoff) pb ((D2 - D1) / (D1 * D2) * f1)
                     ((D2 + D1) / (D1 * D2) * F)).
  { near_step Epb (near_scale _ _ _ _ _ _ Nb B1). }
  (* the two sums *)
  destruct (add_step _ _ pa pb (-513) 564 Hrpa Hrpb) as (s1 & Hrs1 & Rgs1 & Es1);
    try lia;
    try (eapply ranged_weaken; [| |eassumption]; lia).
  assert (Ns1 : near (rnd (8 * unit_roundoff)) s1
                     (- D2 / (D1 * (D1 + D2)) * f0 + (D2 - D1) / (D1 * D2) * f1)
                     (D2 / (D1 * (D1 + D2)) * F + (D2 + D1) / (D1 * D2) * F)).
  { near_step Es1 (near_add _ _ _ _ _ _ _ Npa Npb). }
  destruct (add_step _ _ s1 pc (-566) 566 Hrs1 Hrpc) as (r & Hrr & Rgr & Er);
    try lia;
    try (eapply ranged_weaken; [| |eassumption]; lia).
  exists r. split; [exact Hrr|].
  near_step Er (near_add _ _ _ _ _ _ _ Ns1 Npc).
Qed.

End Stencil.


(** ** One-sided and central differences *)

Section Quotients.

Local Open Scope Q_scope.

Variables (Fa Fb : float) (fa fb F : Q).
Hypothesis Ra : repr Fa fa.
Hypothesis Rb : repr Fb fb.
Hypothesis Ma : moderate fa.
Hypothesis Mb : moderate fb.
Hypothesis Ba : Qabs fa <= F.
Hypothesis Bb : Qabs fb <= F.

(** The difference of two values of the data. *)
Lemma difference_of_values :
  exists n,
    repr (F64.sub Fb Fa) n /\ ranged (-153) 102 n /\
    near unit_roundoff n (fb - fa) (F + F).
Proof.
  destruct (sub_step Fb Fa fb fa (-100) 100 Rb Ra Mb Ma) as (n & Hr & R & E); try lia.
  exists n. split; [exact Hr|]. split; [exact R|].
  near_step E (near_sub _ _ _ _ _ _ _ (near_exact _ _ Bb) (near_exact _ _ Ba)).
Qed.

(** [(fb - fa) / dx], the difference at an end of the array. *)
Lemma edge_quotient (dx : float) (v D : Q) :
  spacing dx v D ->
  exists r,
    repr (F64.div (F64.sub Fb Fa) dx) r /\
    near (4 * unit_roundoff) r ((fb - fa) / D) ((F + F) / D).
Proof.
  intros (Hr & Rg & N & P).
  destruct difference_of_values as (n & Hrn & Rgn & Nn).
  assert (Z : ~ v == 0) by (apply (near_positive _ _ _ N); [qnum | exact P]).
  destruct (div_step _ dx n v (-153) 102 (-153) 102 Hrn Hr Rgn Rg Z)
    as (r & Hrr & _ & Er); try lia.
  exists r. split; [exact Hrr|].
  near_step Er (near_div _ _ _ _ _ _ _ unit_roundoff_nonneg unit_roundoff_nonneg
                  ltac:(qnum) P Nn N).
Qed.

(** [(fb - fa) / (2. * dx)], the central difference on equal spacings: the
    same double [dx] is the rounded spacing on both sides. *)
Lemma central_quotient (dx : float) (v D1 D2 : Q) :
  spacing dx v D1 -> spacing dx v D2 ->
  exists r,
    repr (F64.div (F64.sub Fb Fa) (F64.mul (F64.of_Z 2) dx)) r /\
    near (5 * unit_roundoff) r ((fb - fa) / (D1 + D2)) ((F + F) / (D1 + D2)).
Proof.
  intros (Hr & Rg & N1 & P1) (_ & _ & N2 & P2).
  destruct difference_of_values as (n & Hrn & Rgn & Nn).
  assert (R2 : repr (F64.of_Z 2) 2) by (apply (of_Z_exact 2); reflexivity).
  assert (Rg2 : ranged 1 1 2).
  { split; [right|]; change (Qabs 2) with 2; change (pow2 1) with 2; lra. }
  destruct (mul_step _ dx 2 v 1 1 (-153) 102 R2 Hr Rg2 Rg) as (w & Hrw & Rgw & Ew);
    try lia.
  assert (Nw : near (rnd unit_roundoff) w (D1 + D2) (D1 + D2)).
  { apply (near_round _ (2 * v)); [qnum | | exact Ew].
    setoid_replace (2 * v) with (v + v) by ring.
    apply near_add; assumption. }
  assert (P : 0 < D1 + D2) by lra.
  assert (Z : ~ w == 0) by (apply (near_positive _ _ _ Nw); [qnum | exact P]).
  destruct (div_step _ _ n w (-153) 102 _ _ Hrn Hrw Rgn Rgw Z) as (r & Hrr & _ & Er);
    try lia.
  exists r. split; [exact Hrr|].
  near_step Er (near_div _ _ _ _ _ _ _ unit_roundoff_nonneg
                  (ltac:(qnum) : 0 <= rnd unit_roundoff)
                  (ltac:(qnum) : rnd unit_roundoff < 1) P Nn Nw).
Qed.

End Quotients.


(** ** The scale of the error: values over spacings *)

Section Scales.

Local Open Scope Q_scope.

Variables (d D1 D2 F : Q).
Hypothesis Hd : 0 < d.
Hypothesis H1 : d <= D1.
Hypothesis H2 : d <= D2.
Hypothesis HF : 0 <= F.

Lemma inverse_spacing (D : Q) : d <= D -> 0 < / D /\ / D <= / d.
Proof.
  intros H. split; [apply Qinv_lt_0_compat; lra|].
  setoid_replace (/ D) with (1 / D) by (field; lra).
  apply Qle_shift_div_r; [lra|].
  assert (E : / d * d == 1) by (field; lra).
  assert (L : / d * d <= / d * D).
  { apply Qmult_le_nonneg_l; [apply Qlt_le_weak, Qinv_lt_0_compat; lra | exact H]. }
  lra.
Qed.

Lemma scale_over_spacing (D k : Q) : d <= D -> 0 <= k -> k * F / D <= k * (F / d).
Proof.
  intros H Hk. destruct (inverse_spacing D H) as [Hp Hle].
  unfold Qdiv. rewrite <- !Qmult_assoc.
  apply Qmult_le_nonneg_l; [exact Hk|].
  apply Qmult_le_nonneg_l; assumption.
Qed.

Lemma edge_scale : (F + F) / D1 <= 2 * (F / d).
Proof.
  setoid_replace ((F + F) / D1) with (2 * F / D1) by (field; lra).
  apply scale_over_spacing; lra.
Qed.

Lemma central_scale : (F + F) / (D1 + D2) <= F / d.
Proof.
  apply Qle_shift_div_r; [lra|].
  setoid_replace (F / d * (D1 + D2)) with (F * ((D1 + D2) / d)) by (field; lra).
  setoid_replace (F + F) with (F * 2) by ring.
  apply Qmult_le_nonneg_l; [exact HF|].
  apply Qle_shift_div_l; lra.
Qed.

(** The terms of the second-order difference add up to at most four times
    the values over the spacing. *)
Lemma stencil_scale :
  D2 / (D1 * (D1 + D2)) * F + (D2 + D1) / (D1 * D2) * F + D1 / (D2 * (D1 + D2)) * F
  <= 4 * (F / d).
Proof.
  destruct (inverse_spacing D1 H1) as [P1 L1].
  destruct (inverse_spacing D2 H2) as [P2 L2].
  assert (T : 0 <= D2 / (D1 + D2) <= 1).
  { split.
    - apply Qle_shift_div_l; lra.
    - apply Qle_shift_div_r; lra. }
  set (t := D2 / (D1 + D2)) in *.
  assert (E : D2 / (D1 * (D1 + D2)) * F + (D2 + D1) / (D1 * D2) * F
              + D1 / (D2 * (D1 + D2)) * F
              == F * (/ D1 * t + (/ D1 + / D2) + / D2 * (1 - t))).
  { unfold t. field. repeat split; lra. }
  rewrite E.
  setoid_replace (4 * (F / d)) with (F * (4 * / d)) by (field; lra).
  apply Qmult_le_nonneg_l; [exact HF|].
  assert (A : / D1 * t <= / D1 * 1) by (apply Qmult_le_nonneg_l; lra).
  assert (B : / D2 * (1 - t) <= / D2 * 1) by (apply Qmult_le_nonneg_l; lra).
  lra.
Qed.

(** On spacings that round to the same double, the central difference is
    the second-order difference up to the rounding of the spacings. *)
Lemma central_against_stencil (v f0 f1 f2 : Q) :
  near unit_roundoff v D1 D1 -> near unit_roundoff v D2 D2 ->
  Qabs f0 <= F -> Qabs f1 <= F -> Qabs f2 <= F ->
  Qabs ((f2 - f0) / (D1 + D2)
        - (- D2 / (D1 * (D1 + D2)) * f0 + (D2 - D1) / (D1 * D2) * f1
           + D1 / (D2 * (D1 + D2)) * f2))
  <= 4 * unit_roundoff * (F / d).
Proof.
  intros [N1 _] [N2 _] B0 B1 B2.
  assert (HD : Qabs ((D2 - D1) / (D1 + D2)) <= unit_roundoff).
  { rewrite Qabs_div by lra. rewrite (Qabs_pos (D1 + D2)) by lra.
    apply Qle_shift_div_r; [lra|].
    unfold unit_roundoff in *.
    qabs (D2 - D1); qabs (v - D1); qabs (v - D2); lra. }
  assert (HS : Qabs ((f2 - f1) / D2 - (f1 - f0) / D1) <= 4 * (F / d)).
  { assert (A : Qabs ((f2 - f1) / D2) <= (F + F) / D2).
    { rewrite Qabs_div by lra. rewrite (Qabs_pos D2) by lra.
      apply Qle_shift_div_r; [lra|].
      setoid_replace ((F + F) / D2 * D2) with (F + F) by (field; lra).
      qabs (f2 - f1); qabs f2; qabs f1; lra. }
    assert (B : Qabs ((f1 - f0) / D1) <= (F + F) / D1).
    { rewrite Qabs_div by lra. rewrite (Qabs_pos D1) by lra.
      apply Qle_shift_div_r; [lra|].
      setoid_replace ((F + F) / D1 * D1) with (F + F) by (field; lra).
      qabs (f1 - f0); qabs f1; qabs f0; lra. }
    pose proof edge_scale as C1.
    assert (C2 : (F + F) / D2 <= 2 * (F / d)).
    { setoid_replace ((F + F) / D2) with (2 * F / D2) by (field; lra).
      apply scale_over_spacing; lra. }
    qabs ((f2 - f1) / D2 - (f1 - f0) / D1); qabs ((f2 - f1) / D2);
      qabs ((f1 - f0) / D1); lra. }
  setoid_replace ((f2 - f0) / (D1 + D2)
        - (- D2 / (D1 * (D1 + D2)) * f0 + (D2 - D1) / (D1 * D2) * f1
           + D1 / (D2 * (D1 + D2)) * f2))
    with ((D2 - D1) / (D1 + D2) * ((f2 - f1) / D2 - (f1 - f0) / D1))
    by (field; repeat split; lra).
  setoid_replace (4 * unit_roundoff * (F / d)) with (unit_roundoff * (4 * (F / d)))
    by ring.
  apply Qabs_mult_le; assumption.
Qed.

End Scales.


(** ** One entry of the gradient *)

Section Entries.

Local Open Scope Q_scope.

Variables (F d : Q).
Hypothesis Hd : 0 < d.

Lemma scale_nonneg (f : Q) : Qabs f <= F -> 0 <= F / d.
Proof.
  intros H. pose proof (Qabs_nonneg f).
  apply Qle_shift_div_l; [exact Hd | lra].
Qed.

(** From an accumulated error to the tolerance. *)
Lemma within_of_near (e k : Q) (x : float) (v r M : Q) :
  repr x v -> near e v r M -> 0 <= e -> M <= k * (F / d) -> 0 <= F / d ->
  e * k <= pow2 (-47) ->
  within (tolerance F d) x r.
Proof.
  intros Hr [H1 H2] He HM HX Hk. exists v. split; [exact Hr|].
  unfold tolerance.
  eapply Qle_trans; [exact H1|].
  apply Qle_trans with (e * (k * (F / d))).
  - apply Qmult_le_nonneg_l; assumption.
  - rewrite Qmult_assoc. apply Qmult_le_compat_r; assumption.
Qed.

(** An entry at an end of the gradient. *)
Lemma entry_edge (Fa Fb dx : float) (fa fb D : Q) :
  datum Fa fa -> datum Fb fb -> Qabs fa <= F -> Qabs fb <= F ->
  (exists v, spacing dx v D) -> d <= D ->
  within (tolerance F d) (F64.div (F64.sub Fb Fa) dx) ((fb - fa) / D).
Proof.
  intros [Ra Ma] [Rb Mb] Ba Bb [v S] HD.
  destruct (edge_quotient Fa Fb fa fb F Ra Rb Ma Mb Ba Bb dx v D S) as (r & Hr & N).
  pose proof (Qabs_nonneg fa) as HF.
  apply (within_of_near _ 2 _ _ _ _ Hr N); try qnum.
  - apply edge_scale; try assumption. lra.
  - apply (scale_nonneg fa Ba).
Qed.

(** An interior entry, unequal spacings. *)
Lemma entry_nonuniform (dx1 dx2 F0 F1 F2 : float) (D1 D2 f0 f1 f2 : Q) :
  (exists v, spacing dx1 v D1) -> (exists v, spacing dx2 v D2) ->
  d <= D1 -> d <= D2 ->
  datum F0 f0 -> datum F1 f1 -> datum F2 f2 ->
  Qabs f0 <= F -> Qabs f1 <= F -> Qabs f2 <= F ->
  within (tolerance F d)
    (F64.add
       (F64.add
          (F64.mul (F64.div (SFopp dx2) (F64.mul dx1 (F64.add dx1 dx2))) F0)
          (F64.mul (F64.div (F64.sub dx2 dx1) (F64.mul dx1 dx2)) F1))
       (F64.mul (F64.div dx1 (F64.mul dx2 (F64.add dx1 dx2))) F2))
    (- D2 / (D1 * (D1 + D2)) * f0 + (D2 - D1) / (D1 * D2) * f1
     + D1 / (D2 * (D1 + D2)) * f2).
Proof.
  intros [v1 S1] [v2 S2] H1 H2 [R0 M0] [R1 M1] [R2 M2] B0 B1 B2.
  destruct (nonuniform_stencil dx1 dx2 F0 F1 F2 v1 v2 D1 D2 f0 f1 f2 F
              S1 S2 R0 R1 R2 M0 M1 M2 B0 B1 B2) as (r & Hr & N).
  pose proof (Qabs_nonneg f0) as HF.
  apply (within_of_near _ 4 _ _ _ _ Hr N); try qnum.
  - apply stencil_scale; try assumption. lra.
  - apply (scale_nonneg f0 B0).
Qed.

(** An interior entry, spacings equal as doubles. *)
Lemma entry_central (d0 F0 F1 F2 : float) (v D1 D2 f0 f1 f2 : Q) :
  spacing d0 v D1 -> spacing d0 v D2 ->
  d <= D1 -> d <= D2 ->
  datum F0 f0 -> datum F2 f2 ->
  Qabs f0 <= F -> Qabs f1 <= F -> Qabs f2 <= F ->
  within (tolerance F d)
    (F64.div (F64.sub F2 F0) (F64.mul (F64.of_Z 2) d0))
    (- D2 / (D1 * (D1 + D2)) * f0 + (D2 - D1) / (D1 * D2) * f1
     + D1 / (D2 * (D1 + D2)) * f2).
Proof.
  intros S1 S2 H1 H2 [R0 M0] [R2 M2] B0 B1 B2.
  destruct (central_quotient F0 F2 f0 f2 F R0 R2 M0 M2 B0 B2 d0 v D1 D2 S1 S2)
    as (r & Hr & [N _]).
  pose proof (Qabs_nonneg f0) as HF.
  assert (HF0 : 0 <= F) by lra.
  pose proof (scale_nonneg f0 B0) as HX.
  destruct S1 as (_ & _ & N1 & _), S2 as (_ & _ & N2 & _).
  pose proof (central_against_stencil d D1 D2 F Hd H1 H2 HF0 v f0 f1 f2 N1 N2 B0 B1 B2)
    as C.
  pose proof (central_scale d D1 D2 F Hd H1 H2 HF0) as CS.
  exists r. split; [exact Hr|]. unfold tolerance.
  assert (A : Qabs (r - (f2 - f0) / (D1 + D2)) <= 5 * unit_roundoff * (F / d)).
  { eapply Qle_trans; [exact N|].
    apply Qmult_le_nonneg_l; [qnum | exact CS]. }
  eapply Qle_trans; [apply (Qabs_triangle_sub _ ((f2 - f0) / (D1 + D2)))|].
  apply Qle_trans with (9 * unit_roundoff * (F / d)); [lra|].
  apply Qmult_le_compat_r; [qnum | exact HX].
Qed.

End Entries.


(** ** The arrays of the gradient *)

Section GradientUnfold.

Context {A : Type} `{Arith A}.

Lemma diff_cons (x0 x1 : A) (x : list A) :
  diff (x0 :: x1 :: x) = minus x1 x0 :: diff (x1 :: x).
Proof. reflexivity. Qed.

Lemma interior_uniform_cons (f0 f1 f2 dx : A) (f : list A) :
  interior_uniform (f0 :: f1 :: f2 :: f) dx
  = divide (minus f2 f0) (times two dx) :: interior_uniform (f1 :: f2 :: f) dx.
Proof. reflexivity. Qed.

Lemma interior_uniform_short (f0 f1 dx : A) : interior_uniform [f0; f1] dx = [].
Proof. reflexivity. Qed.

Lemma interior_nonuniform_short (f0 f1 : A) (ax_dx : list A) :
  interior_nonuniform [f0; f1] ax_dx = [].
Proof. destruct ax_dx as [|? [|? ?]]; reflexivity. Qed.

(** On arrays of one length, at least two entries long, [compute_derivative]
    is [np.gradient]. *)
Lemma compute_derivative_gradient (temps values : list A) :
  List.length temps = List.length values -> (2 <= List.length temps)%nat ->
  compute_derivative temps values = Ok (gradient values temps).
Proof.
  intros Hl Hn. unfold compute_derivative, len. rewrite Hl, Z.eqb_refl. simpl.
  replace (Z.of_nat (List.length values) <? 2) with false
    by (symmetry; apply Z.ltb_ge; lia).
  reflexivity.
Qed.

End GradientUnfold.

Lemma Forall2_last {A B : Type} (R : A -> B -> Prop) (l : list A) (l' : list B) (a : A) (b : B) :
  Forall2 R l l' -> R a b -> R (last l a) (last l' b).
Proof.
  intros H Hab. induction H as [|x y l l' Hxy H IH]; [exact Hab|].
  destruct H; [exact Hxy | exact IH].
Qed.

Lemma Forall2_removelast {A B : Type} (R : A -> B -> Prop) (l : list A) (l' : list B) :
  Forall2 R l l' -> Forall2 R (removelast l) (removelast l').
Proof.
  intros H. induction H as [|x y l l' Hxy H IH]; [constructor|].
  destruct H; [constructor|].
  change (Forall2 R (x :: removelast (x0 :: l)) (y :: removelast (y0 :: l'))).
  constructor; assumption.
Qed.

Lemma Forall_last {A : Type} (P : A -> Prop) (l : list A) (a : A) :
  Forall P l -> P a -> P (last l a).
Proof.
  intros H Ha. induction H as [|x l Hx H IH]; [exact Ha|].
  destruct H; [exact Hx | exact IH].
Qed.

Lemma spaced_diff (d : Q) (ts : list Q) :
  spaced d ts -> Forall (fun D => (d <= D)%Q) (diff ts).
Proof.
  induction ts as [|t0 ts IH]; [constructor|].
  destruct ts as [|t1 ts]; [constructor|].
  intros [H01 Hrest]. rewrite diff_cons. constructor.
  - cbn [minus Q_arith]. lra.
  - apply IH, Hrest.
Qed.

Lemma spaced_increasing (d : Q) (ts : list Q) :
  (0 < d)%Q -> spaced d ts -> increasing ts.
Proof.
  intros Hd. induction ts as [|t0 ts IH]; [exact (fun _ => I)|].
  destruct ts as [|t1 ts]; [exact (fun _ => I)|].
  intros [H01 Hrest]. split; [lra | apply IH, Hrest].
Qed.

Lemma within_ext (tol : Q) (x : float) (r r' : Q) :
  (r == r')%Q -> within tol x r -> within tol x r'.
Proof. intros E (v & Hr & Hv). exists v. split; [exact Hr|]. rewrite <- E. exact Hv. Qed.

Section Lists.

Variables (F d : Q).
Hypothesis Hd : (0 < d)%Q.

(** [np.diff] of the temperatures: spacings, entry by entry. *)
Lemma diff_spacings (temps : list float) (ts : list Q) :
  Forall2 datum temps ts -> spaced d ts ->
  Forall2 (fun dx D => exists v, spacing dx v D) (diff temps) (diff ts).
Proof.
  intros H. induction H as [|T0 t0 temps ts H0 Hrest IH]; intros Hsp; [constructor|].
  inversion Hrest as [|T1 t1 temps' ts' H1 Hrest' E1 E2]; subst; [constructor|].
  destruct Hsp as [H01 Hsp]. rewrite !diff_cons. constructor.
  - destruct H0 as [R0 M0], H1 as [R1 M1].
    apply (spacing_of_data T0 T1 t0 t1 R0 R1 M0 M1). lra.
  - apply IH, Hsp.
Qed.

(** The interior entries on unequal spacings. *)
Lemma interior_nonuniform_accurate (values : list float) (fs : list Q) :
  Forall2 datum values fs -> Forall (fun f => (Qabs f <= F)%Q) fs ->
  forall (dxs : list float) (Ds : list Q),
    Forall2 (fun dx D => exists v, spacing dx v D) dxs Ds ->
    Forall (fun D => (d <= D)%Q) Ds ->
    Forall2 (within (tolerance F d))
            (interior_nonuniform values dxs) (interior_nonuniform fs Ds).
Proof.
  intros H. induction H as [|F0 f0 values fs H0 Hrest IH]; intros HB dxs Ds Hsp HD;
    [constructor|].
  inversion Hrest as [|F1 f1 values1 fs1 H1 Hrest1 E1 E2]; subst; [constructor|].
  inversion Hrest1 as [|F2 f2 values2 fs2 H2 Hrest2 E1 E2]; subst.
  { rewrite !interior_nonuniform_short. constructor. }
  inversion Hsp as [|dx1 D1 dxs1 Ds1 S1 Hsp1 E1 E2]; subst; [constructor|].
  inversion Hsp1 as [|dx2 D2 dxs2 Ds2 S2 Hsp2 E1 E2]; subst; [constructor|].
  rewrite !interior_nonuniform_cons.
  inversion HB as [|? ? B0 HB1]; subst.
  inversion HB1 as [|? ? B1 HB2]; subst.
  inversion HB2 as [|? ? B2 _]; subst.
  inversion HD as [|? ? HD1 HD']; subst.
  inversion HD' as [|? ? HD2 _]; subst.
  constructor.
  - apply (entry_nonuniform F d Hd dx1 dx2 F0 F1 F2 D1 D2 f0 f1 f2); assumption.
  - apply IH; assumption.
Qed.

(** When every spacing equals the first as a double, the first stands for
    all of them. *)
Lemma uniform_spacings (d0 : float) (v0 : Q) (dxs : list float) (Ds : list Q) :
  repr d0 v0 ->
  Forall2 (fun dx D => exists v, spacing dx v D) dxs Ds ->
  forallb (fun dx => F64.eqb dx d0) dxs = true ->
  Forall (fun D => spacing d0 v0 D) Ds.
Proof.
  intros R0 H. induction H as [|dx D dxs Ds [v S] Hrest IH]; intros Hu; [constructor|].
  cbn [forallb] in Hu. apply andb_prop in Hu. destruct Hu as [He Hu].
  constructor; [|apply IH, Hu].
  destruct S as (Hr & Rg & N & P).
  pose proof (eqb_value dx d0 v v0 Hr R0 He) as E.
  split; [exact R0|]. split; [exact (ranged_ext _ _ _ _ E Rg)|].
  split; [|exact P]. rewrite <- E. exact N.
Qed.

(** The interior entries on spacings equal as doubles, against the
    second-order difference on the exact spacings. *)
Lemma interior_uniform_accurate (d0 : float) (v0 : Q) (values : list float) (fs : list Q) :
  Forall2 datum values fs -> Forall (fun f => (Qabs f <= F)%Q) fs ->
  forall Ds : list Q,
    Forall (fun D => spacing d0 v0 D) Ds ->
    Forall (fun D => (d <= D)%Q) Ds ->
    S (List.length Ds) = List.length fs ->
    Forall2 (within (tolerance F d))
            (interior_uniform values d0) (interior_nonuniform fs Ds).
Proof.
  intros H. induction H as [|F0 f0 values fs H0 Hrest IH]; intros HB Ds Hsp HD Hl;
    [constructor|].
  inversion Hrest as [|F1 f1 values1 fs1 H1 Hrest1 E1 E2]; subst; [constructor|].
  inversion Hrest1 as [|F2 f2 values2 fs2 H2 Hrest2 E1 E2]; subst.
  { rewrite interior_uniform_short, interior_nonuniform_short. constructor. }
  destruct Ds as [|D1 [|D2 Ds]]; try discriminate Hl.
  rewrite interior_uniform_cons, interior_nonuniform_cons.
  inversion HB as [|? ? B0 HB1]; subst.
  inversion HB1 as [|? ? B1 HB2]; subst.
  inversion HB2 as [|? ? B2 _]; subst.
  inversion HD as [|? ? HD1 HD']; subst.
  inversion HD' as [|? ? HD2 _]; subst.
  inversion Hsp as [|? ? S1 Hsp']; subst.
  inversion Hsp' as [|? ? S2 _]; subst.
  constructor.
  - apply (entry_central F d Hd d0 F0 F1 F2 v0 D1 D2 f0 f1 f2); assumption.
  - apply IH; try assumption. simpl in *. lia.
Qed.

(** The three parts of [np.gradient] on data, against the differences in
    exact arithmetic. *)
Lemma gradient_accurate (F0 F1 T0 T1 : float) (values temps : list float)
    (f0 f1 t0 t1 : Q) (fs ts : list Q) :
  Forall2 datum (T0 :: T1 :: temps) (t0 :: t1 :: ts) ->
  Forall2 datum (F0 :: F1 :: values) (f0 :: f1 :: fs) ->
  List.length fs = List.length ts ->
  spaced d (t0 :: t1 :: ts) ->
  Forall (fun f => (Qabs f <= F)%Q) (f0 :: f1 :: fs) ->
  exists first interior last_,
    gradient (F0 :: F1 :: values) (T0 :: T1 :: temps) = first :: interior ++ [last_] /\
    within (tolerance F d) first ((f1 - f0) / (t1 - t0))%Q /\
    Forall2 (within (tolerance F d)) interior
            (interior_nonuniform (f0 :: f1 :: fs) (diff (t0 :: t1 :: ts))) /\
    within (tolerance F d) last_
           ((last (f0 :: f1 :: fs) f0 - last (removelast (f0 :: f1 :: fs)) f0)
            / last (diff (t0 :: t1 :: ts)) (t1 - t0))%Q.
Proof.
  intros HT HV Hl Hsp HB.
  pose proof (diff_spacings _ _ HT Hsp) as HS.
  pose proof (spaced_diff _ _ Hsp) as HD.
  rewrite gradient_cons2.
  eexists. eexists. eexists. split; [reflexivity|].
  rewrite diff_cons in HS. rewrite (diff_cons t0 t1) in HS, HD.
  cbn [minus F64_arith Q_arith] in HS, HD.
  inversion HS as [|dx0 D0 dxs Ds S0 HS' E1 E2]; subst.
  inversion HD as [|? ? HD0 HD']; subst.
  inversion HV as [|? ? ? ? H0 HV1]; subst.
  inversion HV1 as [|? ? ? ? H1 HV2]; subst.
  inversion HB as [|? ? B0 HB1]; subst.
  inversion HB1 as [|? ? B1 HB2]; subst.
  assert (Hlast : datum (last (F0 :: F1 :: values) F0) (last (f0 :: f1 :: fs) f0))
    by (apply Forall2_last; assumption).
  assert (Hprev : datum (last (removelast (F0 :: F1 :: values)) F0)
                        (last (removelast (f0 :: f1 :: fs)) f0))
    by (apply Forall2_last; [apply Forall2_removelast|]; assumption).
  assert (Blast : (Qabs (last (f0 :: f1 :: fs) f0) <= F)%Q)
    by (apply (Forall_last (fun f => (Qabs f <= F)%Q)); assumption).
  assert (Bprev : (Qabs (last (removelast (f0 :: f1 :: fs)) f0) <= F)%Q).
  { apply (Forall_last (fun f => (Qabs f <= F)%Q)); [|assumption].
    apply Forall_forall. intros x Hx.
    rewrite Forall_forall in HB. apply HB.
    destruct (exists_last (l := f0 :: f1 :: fs) ltac:(discriminate)) as (l' & z & E).
    rewrite E in Hx |- *. rewrite removelast_last in Hx.
    apply in_or_app. left. exact Hx. }
  assert (HDlast : (d <= last (diff (t0 :: t1 :: ts)) (t1 - t0))%Q).
  { apply (Forall_last (fun D => (d <= D)%Q)); [|exact HD0].
    rewrite (diff_cons t0 t1). constructor; assumption. }
  rewrite (diff_cons T0 T1), (diff_cons t0 t1).
  cbn [minus divide equal F64_arith Q_arith].
  assert (HSall : Forall2 (fun dx D => exists v, spacing dx v D)
                          (F64.sub T1 T0 :: diff (T1 :: temps))
                          ((t1 - t0)%Q :: diff (t1 :: ts)))
    by (constructor; assumption).
  assert (HDall : Forall (fun D => (d <= D)%Q) ((t1 - t0)%Q :: diff (t1 :: ts)))
    by (constructor; assumption).
  split; [|split].
  - apply (entry_edge F d Hd F0 F1 _ f0 f1 (t1 - t0)%Q); assumption.
  - destruct (forallb _ _) eqn:Hu.
    + destruct S0 as [v0 S0]. pose proof S0 as (R0 & _).
      apply (interior_uniform_accurate _ v0); try assumption.
      * apply (uniform_spacings _ v0 (F64.sub T1 T0 :: diff (T1 :: temps)));
          assumption.
      * pose proof (length_diff (t1 :: ts)) as L2.
        cbn [List.length] in *. lia.
    + apply interior_nonuniform_accurate; assumption.
  - destruct (forallb _ _) eqn:Hu.
    + destruct S0 as [v0 S0]. pose proof S0 as (R0 & _).
      apply (entry_edge F d Hd); try assumption.
      exists v0.
      apply (Forall_last (fun D => spacing (F64.sub T1 T0) v0 D)); [|exact S0].
      apply (uniform_spacings _ v0 (F64.sub T1 T0 :: diff (T1 :: temps)));
        assumption.
    + apply (entry_edge F d Hd); try assumption.
      apply (Forall2_last (fun dx D => exists v, spacing dx v D)); assumption.
Qed.

End Lists.

(** ** The derivative of data on a line and on a parabola, in doubles *)

Lemma Forall2_Forall_within (tol m : Q) (xs : list float) (rs : list Q) :
  Forall2 (within tol) xs rs -> Forall (fun r => (r == m)%Q) rs ->
  Forall (fun x => within tol x m) xs.
Proof.
  intros H. induction H as [|x r xs rs Hx H IH]; intros Hm; [constructor|].
  inversion Hm as [|? ? E Hm']; subst.
  constructor; [exact (within_ext _ _ _ _ E Hx) | apply IH, Hm'].
Qed.

Lemma Forall2_within_at (tol : Q) (g : Q -> Q) (xs : list float) (rs ts : list Q) :
  Forall2 (within tol) xs rs -> Forall2 (fun r t => (r == g t)%Q) rs ts ->
  Forall2 (fun x t => within tol x (g t)) xs ts.
Proof.
  intros H. revert ts. induction H as [|x r xs rs Hx H IH]; intros ts Hg;
    inversion Hg as [|? t ? ts' E Hg']; subst; constructor.
  - exact (within_ext _ _ _ _ E Hx).
  - apply IH, Hg'.
Qed.

Lemma Forall_map_bound (g : Q -> Q) (F : Q) (ts : list Q) :
  Forall (fun t => (Qabs (g t) <= F)%Q) ts ->
  Forall (fun f => (Qabs f <= F)%Q) (map g ts).
Proof. intros H. induction H; constructor; assumption. Qed.

(** The data as the gradient lemma takes them. *)
Lemma data_shape (g : Q -> Q) (ts : list Q) (temps values : list float) :
  (2 <= List.length ts)%nat ->
  Forall2 datum temps ts -> Forall2 datum values (map g ts) ->
  exists T0 T1 temps' F0 F1 values' t0 t1 ts',
    temps = T0 :: T1 :: temps' /\ values = F0 :: F1 :: values' /\
    ts = t0 :: t1 :: ts' /\
    List.length temps = List.length values /\ (2 <= List.length temps)%nat.
Proof.
  intros Hn HT HV.
  pose proof (Forall2_length HT) as LT. pose proof (Forall2_length HV) as LV.
  rewrite length_map in LV.
  destruct ts as [|t0 [|t1 ts']]; simpl in Hn; try lia.
  destruct temps as [|T0 [|T1 temps']]; try discriminate LT.
  destruct values as [|F0 [|F1 values']]; try discriminate LV.
  exists T0, T1, temps', F0, F1, values', t0, t1, ts'.
  repeat split; try reflexivity; simpl in *; lia.
Qed.

(** C6, as amended.  On doubles that are zero or of magnitude between
    [2^-100] and [2^100], with temperatures at least [d] apart, uniformly
    spaced or not, and values of magnitude at most [F] lying exactly on a
    straight line of slope [m], [compute_derivative] returns one derivative
    per temperature, each of them a finite double within [2^-47 F / d] of
    [m], at the interior points and at both ends. *)
Theorem compute_derivative_linear (m c F d : Q) (ts : list Q)
    (temps values : list float) :
  (2 <= List.length ts)%nat ->
  Forall2 datum temps ts ->
  Forall2 datum values (map (line m c) ts) ->
  (0 < d)%Q ->
  spaced d ts ->
  Forall (fun t => (Qabs (line m c t) <= F)%Q) ts ->
  exists derivatives,
    compute_derivative temps values = Ok derivatives /\
    List.length derivatives = List.length temps /\
    Forall (fun x => within (tolerance F d) x m) derivatives.
Proof.
  intros Hn HT HV Hd Hsp HB.
  destruct (data_shape _ _ _ _ Hn HT HV)
    as (T0 & T1 & temps' & F0 & F1 & values' & t0 & t1 & ts' & -> & -> & -> & Hl & Hn').
  exists (gradient (F0 :: F1 :: values') (T0 :: T1 :: temps')).
  split; [apply compute_derivative_gradient; assumption|].
  split; [rewrite length_gradient; [congruence | congruence | rewrite <- Hl; exact Hn']|].
  pose proof (spaced_increasing _ _ Hd Hsp) as Hinc.
  destruct (gradient_accurate F d Hd F0 F1 T0 T1 values' temps'
              (line m c t0) (line m c t1) t0 t1 (map (line m c) ts') ts'
              HT HV (length_map _ _) Hsp (Forall_map_bound _ _ _ HB))
    as (first & interior & last_ & -> & Hfirst & Hint & Hlast).
  pose proof Hinc as (H01 & _).
  destruct (last_two m c ts' t0 t1 0%Q (t1 - t0)%Q (line m c t0) Hinc)
    as (a & b & Hab & Hdl & Hll & Hrl & _).
  cbn [map] in Hll, Hrl.
  constructor; [|apply Forall_app; split; [|constructor; [|constructor]]].
  - apply (within_ext _ _ ((line m c t1 - line m c t0) / (t1 - t0))%Q m);
      [|exact Hfirst].
    unfold line. field. lra.
  - apply (Forall2_Forall_within _ _ _ _ Hint).
    apply (interior_nonuniform_linear m c (t0 :: t1 :: ts')), Hinc.
  - rewrite Hll, Hrl, Hdl in Hlast.
    apply (within_ext _ _ ((line m c b - line m c a) / (b - a))%Q m);
      [|exact Hlast].
    unfold line. field. lra.
Qed.

Ltac datum_of_Z :=
  split;
  [ vm_compute; first [reflexivity | split; reflexivity]
  | split; [first [left; reflexivity | right; qnum] | qnum] ].

Lemma compute_derivative_linear_witness :
  exists derivatives,
    compute_derivative grid_temps_f64 grid_line_f64 = Ok derivatives /\
    List.length derivatives = List.length grid_temps_f64 /\
    Forall (fun x => within (tolerance 19 1) x 2) derivatives.
Proof.
  apply (compute_derivative_linear 2 5 19 1 grid_temps).
  - simpl. lia.
  - repeat (apply Forall2_cons; [datum_of_Z|]). apply Forall2_nil.
  - repeat (apply Forall2_cons; [datum_of_Z|]). apply Forall2_nil.
  - reflexivity.
  - simpl. repeat split; qnum.
  - repeat (apply Forall_cons; [qnum|]). apply Forall_nil.
Defined.

(** C6, as stated, fails in double precision.  The values [2^52],
    [2^52 + 6], [2^52 + 7] lie on the line of slope 1 through [(0, 2^52)],
    and the temperatures 0, 6, 7 ascend; at the interior point the three
    products of the non-uniform formula are each rounded at a magnitude of
    [2^52], and [compute_derivative] returns 0.5. *)
Lemma compute_derivative_rounding_counterexample :
  offset_values = map (fun t => F64.of_Z (1 * t + 2 ^ 52)) [0; 6; 7] /\
  compute_derivative offset_temps offset_values
    = Ok [F64.of_Z 1; F64.ratio 1 2; F64.of_Z 1] /\
  F64.ltb (F64.ratio 1 10)
          (F64.abs (F64.sub (F64.ratio 1 2) (F64.of_Z 1))) = true.
Proof. repeat split; vm_compute; reflexivity. Qed.

(** On values of ordinary size the doubles give the slope itself: the line
    [2 t + 5] at the temperatures 0, 1, 3, 7. *)
Lemma compute_derivative_doubles_example :
  compute_derivative (map F64.of_Z [0; 1; 3; 7])
                     (map (fun t => F64.of_Z (2 * t + 5)) [0; 1; 3; 7])
  = Ok (map F64.of_Z [2; 2; 2; 2]).
Proof. vm_compute. reflexivity. Qed.

(** Beyond the magnitudes of the accuracy statement a product of the
    formula overflows: three equal values of magnitude [2^1020] at
    temperatures [2^-10] apart lie on a line of slope 0, and the interior
    derivative is NaN. *)
Lemma compute_derivative_overflow_example :
  compute_derivative huge_temps huge_values
  = Ok [F64.of_Z 0; F64.nan; F64.of_Z 0].
Proof. vm_compute. reflexivity. Qed.

(** * Properties, continued *)

(** ** Arrays as objects: what a call changes *)

Lemma nth_update_same {A : Type} (d : A) (a : list A) :
  forall i v, (i < List.length a)%nat -> nth i (update a i v) d = v.
Proof.
  induction a as [|x a IH]; intros [|i] v Hi; simpl in *; try lia; [reflexivity|].
  apply IH. lia.
Qed.

Lemma update_nth {A : Type} (d : A) (a : list A) :
  forall i, update a i (nth i a d) = a.
Proof.
  induction a as [|x a IH]; intros [|i]; simpl; try reflexivity.
  now rewrite IH.
Qed.

Lemma update_update {A : Type} (a : list A) :
  forall i v w, update (update a i v) i w = update a i w.
Proof.
  induction a as [|x a IH]; intros [|i] v w; simpl; try reflexivity.
  now rewrite IH.
Qed.

Lemma load_store_same (h : Heap.heap) (l : Heap.loc) (a : list float) :
  (l < List.length h)%nat -> Heap.load (Heap.store h l a) l = a.
Proof. apply nth_update_same. Qed.

Lemma load_store_other (h : Heap.heap) (l l' : Heap.loc) (a : list float) :
  l <> l' -> Heap.load (Heap.store h l a) l' = Heap.load h l'.
Proof. apply nth_update_other. Qed.

Lemma load_alloc_old (h : Heap.heap) (a : list float) (l : Heap.loc) :
  (l < List.length h)%nat -> Heap.load (fst (Heap.alloc h a)) l = Heap.load h l.
Proof. intros Hl. unfold Heap.load, Heap.alloc. simpl. now apply app_nth1. Qed.

Lemma load_alloc_new (h : Heap.heap) (a : list float) :
  Heap.load (fst (Heap.alloc h a)) (snd (Heap.alloc h a)) = a.
Proof. unfold Heap.load, Heap.alloc. simpl. apply nth_middle. Qed.

(** The loop on the heap computes what the loop on contents computes, and
    assigns into the working array only. *)
Lemma heap_outlier_loop (iterations : nat) (window : Z) (threshold : float)
    (values working : Heap.loc) :
  forall (mask : list bool) (h : Heap.heap),
    values <> working ->
    (working < List.length h)%nat ->
    let st := outlier_loop iterations window threshold (Heap.load h values)
                {| working_values := Heap.load h working; combined_mask := mask |} in
    Heap.outlier_loop iterations window threshold values working mask h
    = (combined_mask st, Heap.store h working (working_values st)).
Proof.
  induction iterations as [|k IH]; intros mask h Hne Hw; simpl.
  - unfold Heap.store, Heap.load. now rewrite update_nth.
  - destruct (outlier_pass window threshold (Heap.load h values) _) as [st'|] eqn:Hp; simpl.
    + rewrite IH; [|exact Hne | unfold Heap.store; now rewrite length_update].
      rewrite load_store_same by exact Hw.
      rewrite load_store_other by congruence.
      destruct st' as [w' m']. simpl.
      unfold Heap.store. now rewrite update_update.
    + unfold Heap.store, Heap.load. now rewrite update_nth.
Qed.

(** [remove_outliers] on the heap returns arrays holding what
    [remove_outliers] on contents returns, and leaves every array that
    existed before the call as it was. *)
Lemma heap_remove_outliers (temps values : Heap.loc) (window : Z)
    (threshold : float) (max_iterations : Z) (h h' : Heap.heap)
    (r : result (Heap.loc * Heap.loc * list bool)) :
  (temps < List.length h)%nat ->
  (values < List.length h)%nat ->
  Heap.remove_outliers temps values window threshold max_iterations h = (r, h') ->
  (forall l, (l < List.length h)%nat -> Heap.load h' l = Heap.load h l) /\
  (List.length h <= List.length h')%nat /\
  match r with
  | Ok (temps_clean, values_clean, outlier_mask) =>
      remove_outliers (Heap.load h temps) (Heap.load h values)
        window threshold max_iterations
      = Ok (Heap.load h' temps_clean, Heap.load h' values_clean, outlier_mask)
  | Err e =>
      remove_outliers (Heap.load h temps) (Heap.load h values)
        window threshold max_iterations = Err e
  end.
Proof.
  intros Ht Hv. unfold Heap.remove_outliers, remove_outliers.
  destruct (negb _).
  - intros [= <- <-]. repeat split; auto.
  - destruct (_ <? window + 2).
    + unfold Heap.alloc. intros [= <- <-].
      split; [|split].
      * intros l Hl. unfold Heap.load. rewrite !app_nth1; auto.
        rewrite length_app. lia.
      * rewrite !length_app. lia.
      * unfold Heap.load.
        replace (S (List.length h)) with (List.length (h ++ [nth temps h []]))
          by (rewrite length_app; simpl; lia).
        rewrite nth_middle.
        rewrite (app_nth1 (h ++ _) _ _ (n := List.length h))
          by (rewrite length_app; simpl; lia).
        rewrite nth_middle.
        repeat rewrite (app_nth1 _ _ _ (n := values))
          by (rewrite ?length_app; simpl; lia).
        reflexivity.
    + unfold Heap.alloc.
      set (h0 := h ++ [Heap.load h values]).
      assert (H0 : forall l, (l < List.length h)%nat -> Heap.load h0 l = Heap.load h l)
        by (intros l Hl; unfold Heap.load, h0; now apply app_nth1).
      assert (Hn : Heap.load h0 (List.length h) = Heap.load h values)
        by (unfold Heap.load, h0; apply nth_middle).
      assert (Hl0 : List.length h0 = S (List.length h))
        by (unfold h0; rewrite length_app; simpl; lia).
      rewrite heap_outlier_loop by lia.
      intros [= <- <-]. rewrite Hn, (H0 values Hv).
      split; [|split].
      * intros l Hl. rewrite load_store_other by lia. apply H0, Hl.
      * unfold Heap.store. rewrite length_update. lia.
      * rewrite load_store_other by lia. rewrite (H0 temps Ht).
        rewrite load_store_same by lia. reflexivity.
Qed.

(** [analyze_channel] on the heap returns what [analyze_channel] on the
    contents of its two arrays returns, and leaves every array that existed
    before the call as it was. *)
Lemma heap_analyze_channel (sp : SciPy) (temps values : Heap.loc)
    (low_range high_range : float * float) (smooth_params : Z * Z)
    (slope_offset : Z) (outlier_params : Z * float) (h h' : Heap.heap)
    (r : result dict) :
  (temps < List.length h)%nat ->
  (values < List.length h)%nat ->
  Heap.analyze_channel sp temps values low_range high_range smooth_params
    slope_offset outlier_params h = (r, h') ->
  r = analyze_channel sp (Heap.load h temps) (Heap.load h values)
        low_range high_range smooth_params slope_offset outlier_params /\
  (forall l, (l < List.length h)%nat -> Heap.load h' l = Heap.load h l) /\
  (List.length h <= List.length h')%nat.
Proof.
  intros Ht Hv. unfold Heap.analyze_channel, analyze_channel.
  destruct (negb _); [intros [= <- <-]; auto|].
  destruct (_ <? 10); [intros [= <- <-]; auto|].
  destruct outlier_params as [outlier_window outlier_threshold].
  destruct (Heap.remove_outliers _ _ _ _ _ h) as [r0 h0] eqn:Hr.
  destruct (heap_remove_outliers _ _ _ _ _ _ _ _ Ht Hv Hr) as (Hf & Hl & Hp).
  destruct r0 as [[[tc vc] mask]|e]; rewrite Hp; intros [= <- <-]; auto.
Qed.

(** C8. Two invocations of [analyze_channel], one after the other, on the
    same two arrays and with the same parameters, return the same result:
    the first leaves both arrays as it found them, and the result is a
    function of their contents and of the parameters. *)
Theorem analyze_channel_deterministic (sp : SciPy) (temps values : Heap.loc)
    (low_range high_range : float * float) (smooth_params : Z * Z)
    (slope_offset : Z) (outlier_params : Z * float)
    (h h1 h2 : Heap.heap) (r1 r2 : result dict) :
  (temps < List.length h)%nat ->
  (values < List.length h)%nat ->
  Heap.analyze_channel sp temps values low_range high_range smooth_params
    slope_offset outlier_params h = (r1, h1) ->
  Heap.analyze_channel sp temps values low_range high_range smooth_params
    slope_offset outlier_params h1 = (r2, h2) ->
  r1 = r2 /\
  r1 = analyze_channel sp (Heap.load h temps) (Heap.load h values)
         low_range high_range smooth_params slope_offset outlier_params /\
  Heap.load h1 temps = Heap.load h temps /\
  Heap.load h1 values = Heap.load h values.
Proof.
  intros Ht Hv H1 H2.
  destruct (heap_analyze_channel _ _ _ _ _ _ _ _ _ _ _ Ht Hv H1) as (E1 & Hf & Hl).
  assert (Ht1 : (temps < List.length h1)%nat) by lia.
  assert (Hv1 : (values < List.length h1)%nat) by lia.
  destruct (heap_analyze_channel _ _ _ _ _ _ _ _ _ _ _ Ht1 Hv1 H2) as (E2 & _ & _).
  rewrite (Hf temps Ht), (Hf values Hv) in E2.
  repeat split; auto; congruence.
Qed.

Lemma analyze_channel_deterministic_witness :
  fst spike_run1 = fst spike_run2 /\
  fst spike_run1
    = analyze_channel scipy_ref (Heap.load spike_heap 0%nat) (Heap.load spike_heap 1%nat)
        (F64.of_Z 0, F64.of_Z 2) (F64.of_Z 9, F64.of_Z 11) (1, 0) 0
        (5, F64.ratio 3 2) /\
  Heap.load (snd spike_run1) 0%nat = Heap.load spike_heap 0%nat /\
  Heap.load (snd spike_run1) 1%nat = Heap.load spike_heap 1%nat.
Proof.
  apply (analyze_channel_deterministic scipy_ref 0%nat 1%nat
           (F64.of_Z 0, F64.of_Z 2) (F64.of_Z 9, F64.of_Z 11) (1, 0) 0
           (5, F64.ratio 3 2) spike_heap (snd spike_run1) (snd spike_run2)).
  - simpl. lia.
  - simpl. lia.
  - apply surjective_pairing.
  - apply surjective_pairing.
Defined.

(** The first call on the spike succeeds, and allocates the cleaned values
    as a third array next to the two of the caller. *)
Lemma spike_run1_heap :
  is_ok (fst spike_run1) = true /\
  snd spike_run1 = [spike_temps; spike_values; spike_cleaned].
Proof. split; vm_compute; reflexivity. Qed.

(** * Further properties of the core *)

(** ** The derivative estimator *)

Lemma compute_derivative_ok {A : Type} `{Arith A} (temps values derivatives : list A) :
  compute_derivative temps values = Ok derivatives ->
  List.length temps = List.length values /\
  (2 <= List.length temps)%nat /\
  List.length derivatives = List.length temps.
Proof.
  unfold compute_derivative, len.
  destruct (Z.of_nat (List.length temps) =? Z.of_nat (List.length values)) eqn:Hl;
    simpl; [|discriminate].
  apply Z.eqb_eq, Nat2Z.inj in Hl.
  destruct (Z.of_nat (List.length temps) <? 2) eqn:Hn; [discriminate|].
  apply Z.ltb_ge in Hn. intros [= <-].
  assert (Hn' : (2 <= List.length temps)%nat) by lia.
  repeat split; auto.
  rewrite length_gradient; auto; congruence.
Qed.

Lemma compute_derivative_error {A : Type} `{Arith A} (temps values : list A) (e : exn) :
  compute_derivative temps values = Err e ->
  (e = ValueError LengthMismatch /\ List.length temps <> List.length values) \/
  (e = ValueError InsufficientPoints /\
   List.length temps = List.length values /\ (List.length temps < 2)%nat).
Proof.
  unfold compute_derivative, len.
  destruct (Z.of_nat (List.length temps) =? Z.of_nat (List.length values)) eqn:Hl; simpl.
  - apply Z.eqb_eq, Nat2Z.inj in Hl.
    destruct (Z.of_nat (List.length temps) <? 2) eqn:Hn; [|discriminate].
    apply Z.ltb_lt in Hn. intros [= <-]. right. repeat split; auto. lia.
  - apply Z.eqb_neq in Hl. intros [= <-]. left. split; [reflexivity|].
    intros E. apply Hl. now rewrite E.
Qed.

(** [compute_derivative] returns one derivative per point.  It fails on
    arrays of different lengths, and otherwise on fewer than two points, and
    on nothing else. *)
Theorem compute_derivative_shape {A : Type} `{Arith A} (temps values : list A) :
  match compute_derivative temps values with
  | Ok derivatives =>
      List.length temps = List.length values /\
      (2 <= List.length temps)%nat /\
      List.length derivatives = List.length temps
  | Err e =>
      (e = ValueError LengthMismatch /\ List.length temps <> List.length values) \/
      (e = ValueError InsufficientPoints /\
       List.length temps = List.length values /\ (List.length temps < 2)%nat)
  end.
Proof.
  destruct (compute_derivative temps values) as [derivatives|e] eqn:E.
  - apply compute_derivative_ok. exact E.
  - apply compute_derivative_error. exact E.
Qed.

(** ** The max-slope locator *)

Lemma find_max_slope_index_ok (derivatives : list float) (offset idx : Z) :
  find_max_slope_index derivatives offset = Ok idx ->
  0 < len derivatives /\
  idx = Z.max 0 (Z.min (np.argmax (map F64.abs derivatives) + offset)
                       (len derivatives - 1)).
Proof.
  unfold find_max_slope_index.
  destruct (len derivatives =? 0) eqn:H0; [discriminate|].
  apply Z.eqb_neq in H0. intros [= <-].
  assert (0 <= len derivatives) by (unfold len; lia). split; [lia | reflexivity].
Qed.

(** Whatever the derivatives and the offset, NaN included, the index
    [find_max_slope_index] returns is an index of the array. *)
Theorem find_max_slope_index_in_bounds (derivatives : list float) (offset idx : Z) :
  find_max_slope_index derivatives offset = Ok idx ->
  0 <= idx < len derivatives.
Proof.
  intros H. apply find_max_slope_index_ok in H. lia.
Qed.

Lemma find_max_slope_index_in_bounds_witness : 0 <= 4 < len doc_derivatives.
Proof.
  apply (find_max_slope_index_in_bounds doc_derivatives 10 4).
  vm_compute. reflexivity.
Defined.

Lemma argmax_from_nan (pre : list float) :
  forall mp best i x post,
    Forall (fun y => F64.is_nan y = false) pre ->
    F64.is_nan x = true ->
    np.argmax_from mp best i (pre ++ x :: post) = i + len pre.
Proof.
  induction pre as [|y pre IH]; intros mp best i x post Hpre Hx; simpl.
  - destruct x; try discriminate Hx. simpl.
    replace (F64.leb S754_nan mp) with false by (destruct mp; reflexivity).
    unfold len. simpl. lia.
  - inversion Hpre as [|? ? Hy Hpre']; subst.
    replace (len (y :: pre)) with (len pre + 1)
      by (unfold len; simpl List.length; lia).
    destruct (F64.leb y mp).
    + rewrite IH by assumption. lia.
    + rewrite Hy, IH by assumption. lia.
Qed.

(** A NaN among the derivatives takes the place of the maximum: the index
    found is that of the first NaN, plus the offset, clipped. *)
Theorem find_max_slope_index_nan (pre post : list float) (d : float) (offset : Z) :
  Forall (fun y => F64.is_nan y = false) pre ->
  F64.is_nan d = true ->
  find_max_slope_index (pre ++ d :: post) offset
  = Ok (Z.max 0 (Z.min (len pre + offset) (len (pre ++ d :: post) - 1))).
Proof.
  intros Hpre Hd. unfold find_max_slope_index.
  replace (len (pre ++ d :: post) =? 0) with false
    by (symmetry; apply Z.eqb_neq; unfold len; rewrite length_app; simpl; lia).
  replace (np.argmax (map F64.abs (pre ++ d :: post))) with (len pre); [reflexivity|].
  rewrite map_app. simpl map.
  assert (Hd' : F64.is_nan (F64.abs d) = true) by (destruct d; auto).
  assert (Hpre' : Forall (fun y => F64.is_nan y = false) (map F64.abs pre)).
  { apply Forall_map. eapply Forall_impl; [|exact Hpre].
    intros y Hy. destruct y; simpl in *; congruence. }
  destruct pre as [|y pre]; simpl.
  - now rewrite Hd'.
  - inversion Hpre' as [|? ? Hy Hrest]; subst. rewrite Hy.
    rewrite argmax_from_nan by assumption.
    unfold len. simpl List.length. rewrite length_map. lia.
Qed.

Lemma find_max_slope_index_nan_witness :
  find_max_slope_index ([F64.of_Z 1; F64.of_Z 9] ++ F64.nan :: [F64.of_Z 100]) 0
  = Ok (Z.max 0 (Z.min (len [F64.of_Z 1; F64.of_Z 9] + 0)
                       (len ([F64.of_Z 1; F64.of_Z 9] ++ F64.nan :: [F64.of_Z 100]) - 1))).
Proof.
  apply (find_max_slope_index_nan [F64.of_Z 1; F64.of_Z 9] [F64.of_Z 100] F64.nan 0).
  - repeat constructor.
  - reflexivity.
Defined.

(** ** The tangent builder *)

Lemma getitem_nth {A : Type} (d : A) (a : list A) (i : Z) :
  0 <= i < len a -> getitem a i = Ok (nth (Z.to_nat i) a d).
Proof.
  intros Hi. unfold getitem.
  replace (i <? 0) with false by (symmetry; apply Z.ltb_ge; lia).
  replace (0 <=? i) with true by (symmetry; apply Z.leb_le; lia).
  replace (i <? len a) with true by (symmetry; apply Z.ltb_lt; lia).
  simpl. unfold len in Hi.
  rewrite (nth_error_nth' a d) by lia. reflexivity.
Qed.

Lemma compute_tangent_at_point_ok (temps values derivatives : list float)
    (index : Z) :
  0 <= index < len temps ->
  len temps = len values -> len temps = len derivatives ->
  compute_tangent_at_point temps values derivatives index
  = Ok (nth (Z.to_nat index) derivatives F64.nan,
        F64.sub (nth (Z.to_nat index) values F64.nan)
                (F64.mul (nth (Z.to_nat index) derivatives F64.nan)
                         (nth (Z.to_nat index) temps F64.nan))).
Proof.
  intros Hi Hv Hd. unfold compute_tangent_at_point.
  replace ((0 <=? index) && (index <? len temps)) with true
    by (symmetry; apply andb_true_iff; split; [apply Z.leb_le | apply Z.ltb_lt]; lia).
  rewrite <- Hv, <- Hd, Z.eqb_refl. simpl.
  rewrite (getitem_nth F64.nan derivatives) by lia.
  rewrite (getitem_nth F64.nan temps) by lia.
  rewrite (getitem_nth F64.nan values) by lia.
  reflexivity.
Qed.

(** [compute_tangent_at_point] rejects an index outside [0, n-1], a negative
    one included, before anything else, then arrays of different lengths;
    otherwise it returns the derivative at the index as slope and
    [value - slope * temperature] as intercept, and no indexing fails. *)
Theorem compute_tangent_at_point_spec (temps values derivatives : list float)
    (index : Z) :
  (~ 0 <= index < len temps ->
   compute_tangent_at_point temps values derivatives index = raise OutOfBounds) /\
  (0 <= index < len temps ->
   len temps <> len values \/ len temps <> len derivatives ->
   compute_tangent_at_point temps values derivatives index = raise LengthMismatch) /\
  (0 <= index < len temps ->
   len temps = len values -> len temps = len derivatives ->
   let slope := nth (Z.to_nat index) derivatives F64.nan in
   let x0 := nth (Z.to_nat index) temps F64.nan in
   let y0 := nth (Z.to_nat index) values F64.nan in
   compute_tangent_at_point temps values derivatives index
   = Ok (slope, F64.sub y0 (F64.mul slope x0))).
Proof.
  split; [|split]; [unfold compute_tangent_at_point ..|].
  - intros Hi.
    replace ((0 <=? index) && (index <? len temps)) with false; [reflexivity|].
    symmetry. apply andb_false_iff.
    destruct (Z.leb_spec 0 index); [right; apply Z.ltb_ge; lia | now left].
  - intros Hi Hl.
    replace ((0 <=? index) && (index <? len temps)) with true
      by (symmetry; apply andb_true_iff; split; [apply Z.leb_le | apply Z.ltb_lt]; lia).
    simpl.
    replace (negb (len temps =? len values) || negb (len temps =? len derivatives))
      with true; [reflexivity|].
    symmetry. apply orb_true_iff.
    destruct Hl as [Hl|Hl]; [left|right]; apply negb_true_iff, Z.eqb_neq, Hl.
  - intros Hi Hv Hd. cbv zeta. apply compute_tangent_at_point_ok; assumption.
Qed.

Lemma compute_tangent_at_point_spec_witness :
  compute_tangent_at_point step_temps step_values step_values (-1) = raise OutOfBounds /\
  compute_tangent_at_point step_temps step_values [] 3 = raise LengthMismatch /\
  compute_tangent_at_point step_temps step_values step_temps 5
  = Ok (F64.of_Z 5, F64.of_Z (-18)).
Proof.
  pose proof (compute_tangent_at_point_spec step_temps step_values step_values (-1))
    as (H1 & _).
  pose proof (compute_tangent_at_point_spec step_temps step_values [] 3)
    as (_ & H2 & _).
  pose proof (compute_tangent_at_point_spec step_temps step_values step_temps 5)
    as (_ & _ & H3).
  split; [|split].
  - apply H1. lia.
  - apply H2; [vm_compute; split; [discriminate | reflexivity]
              | right; vm_compute; discriminate].
  - rewrite H3; [reflexivity | vm_compute; split; [discriminate | reflexivity]
                 | reflexivity | reflexivity].
Defined.

(** ** The baseline fitter *)

Lemma ltb_not_leb (x y : float) : F64.ltb x y = true -> F64.leb y x = false.
Proof.
  unfold F64.leb, F64.ltb, SFleb, SFltb.
  destruct x as [[]|[]| |[] mx ex], y as [[]|[]| |[] my ey];
    simpl; try discriminate; try reflexivity; compare_cases.
Qed.

(** No temperature lies in a range whose end is below its start. *)
Lemma in_range_inverted (t_start t_end t : float) :
  F64.ltb t_end t_start = true -> in_range t_start t_end t = false.
Proof.
  intros Hinv. unfold in_range.
  destruct (F64.leb t_start t) eqn:H1; [|reflexivity].
  destruct (F64.leb t t_end) eqn:H2; [|reflexivity].
  pose proof (leb_ltb_trans _ _ _ H2 Hinv) as H3.
  apply ltb_not_leb in H3. congruence.
Qed.

(** Nor in a range with a NaN bound. *)
Lemma in_range_nan (t_start t_end t : float) :
  F64.is_nan t_start = true \/ F64.is_nan t_end = true ->
  in_range t_start t_end t = false.
Proof.
  unfold in_range. intros [H|H].
  - destruct t_start; try discriminate H. reflexivity.
  - destruct t_end; try discriminate H.
    replace (F64.leb t S754_nan) with false by (destruct t; reflexivity).
    apply andb_false_r.
Qed.

Lemma select_map_filter {A : Type} (f : A -> bool) (l : list A) :
  select (map f l) l = filter f l.
Proof.
  induction l as [|x l IH]; simpl; [reflexivity|].
  rewrite IH. reflexivity.
Qed.

Lemma select_map_combine {A B : Type} (f : A -> bool) (l : list A) :
  forall m : list B,
    List.length l = List.length m ->
    select (map f l) m = map snd (filter (fun p => f (fst p)) (combine l m)).
Proof.
  induction l as [|x l IH]; intros [|y m] Hl; simpl in *; try discriminate;
    [reflexivity|].
  rewrite IH by congruence. destruct (f x); reflexivity.
Qed.

Lemma filter_fst_combine {A B : Type} (f : A -> bool) (l : list A) :
  forall m : list B,
    List.length l = List.length m ->
    map fst (filter (fun p => f (fst p)) (combine l m)) = filter f l.
Proof.
  induction l as [|x l IH]; intros [|y m] Hl; simpl in *; try discriminate;
    [reflexivity|].
  destruct (f x); simpl; rewrite IH by congruence; reflexivity.
Qed.

Lemma fit_baseline_pairs (sp : SciPy) (temps values : list float)
    (t_start t_end : float) :
  List.length temps = List.length values ->
  let pairs := filter (fun p => in_range t_start t_end (fst p)) (combine temps values) in
  fit_baseline sp temps values t_start t_end
  = if len pairs =? 0 then raise EmptyRange
    else if len pairs <? 2 then raise InsufficientPoints
    else call (linregress sp (map fst pairs) (map snd pairs)).
Proof.
  intros Hl pairs.
  assert (Hfst : map fst pairs = filter (in_range t_start t_end) temps)
    by (apply filter_fst_combine, Hl).
  replace (len pairs) with (len (map fst pairs)) by (unfold len; now rewrite length_map).
  unfold fit_baseline, getmask.
  change (fun t => F64.leb t_start t && F64.leb t t_end) with (in_range t_start t_end).
  unfold len at 1 2. rewrite length_map, Hl, Z.eqb_refl. simpl.
  rewrite select_map_filter, <- Hfst.
  rewrite (select_map_combine _ temps values Hl). reflexivity.
Qed.

(** [fit_baseline] looks at the (temperature, value) pairs whose temperature
    lies in the closed range.  With none it raises the empty-range error,
    with one the too-few-points error; with two or more it hands their
    temperatures and their values, still paired, to [linregress]. *)
Theorem fit_baseline_spec (sp : SciPy) (temps values : list float)
    (t_start t_end : float) :
  List.length temps = List.length values ->
  let pairs := filter (fun p => in_range t_start t_end (fst p)) (combine temps values) in
  map fst pairs = filter (in_range t_start t_end) temps /\
  (pairs = [] ->
   fit_baseline sp temps values t_start t_end = raise EmptyRange) /\
  (List.length pairs = 1%nat ->
   fit_baseline sp temps values t_start t_end = raise InsufficientPoints) /\
  ((2 <= List.length pairs)%nat ->
   fit_baseline sp temps values t_start t_end
   = call (linregress sp (map fst pairs) (map snd pairs))).
Proof.
  intros Hl pairs.
  assert (Hfst : map fst pairs = filter (in_range t_start t_end) temps)
    by (apply filter_fst_combine, Hl).
  pose proof (fit_baseline_pairs sp temps values t_start t_end Hl) as Hfit.
  cbv zeta in Hfit. fold pairs in Hfit.
  split; [exact Hfst|]. rewrite Hfit. unfold len.
  split; [|split].
  - intros ->. reflexivity.
  - intros ->. reflexivity.
  - intros Hn.
    replace (Z.of_nat (List.length pairs) =? 0) with false
      by (symmetry; apply Z.eqb_neq; lia).
    replace (Z.of_nat (List.length pairs) <? 2) with false
      by (symmetry; apply Z.ltb_ge; lia).
    reflexivity.
Qed.

Lemma fit_baseline_spec_witness :
  fit_baseline scipy_ref step_temps step_values (F64.of_Z 7) (F64.of_Z 9)
  = call (linregress scipy_ref (map F64.of_Z [7; 8; 9]) (map F64.of_Z [10; 10; 10])).
Proof.
  pose proof (fit_baseline_spec scipy_ref step_temps step_values (F64.of_Z 7) (F64.of_Z 9)
                eq_refl) as (_ & _ & _ & H).
  rewrite H; [reflexivity | vm_compute; lia].
Defined.

(** A range given backwards, its end below its start, and a range with a
    NaN bound select nothing: [fit_baseline] raises the empty-range error
    whatever the series. *)
Theorem fit_baseline_inverted (sp : SciPy) (temps values : list float)
    (t_start t_end : float) :
  List.length temps = List.length values ->
  F64.ltb t_end t_start = true \/
  F64.is_nan t_start = true \/ F64.is_nan t_end = true ->
  fit_baseline sp temps values t_start t_end = raise EmptyRange.
Proof.
  intros Hl Hbad.
  rewrite (fit_baseline_pairs sp temps values t_start t_end Hl).
  assert (Hout : forall t, in_range t_start t_end t = false).
  { intros t. destruct Hbad as [H|H];
      [apply in_range_inverted, H | apply in_range_nan, H]. }
  replace (filter (fun p => in_range t_start t_end (fst p)) (combine temps values))
    with (@nil (float * float)); [reflexivity|].
  induction (combine temps values) as [|p l IH]; simpl; [reflexivity|].
  now rewrite Hout.
Qed.

Lemma fit_baseline_inverted_witness :
  fit_baseline scipy_ref step_temps step_values (F64.of_Z 9) (F64.of_Z 7)
  = raise EmptyRange.
Proof.
  apply (fit_baseline_inverted scipy_ref step_temps step_values (F64.of_Z 9) (F64.of_Z 7)).
  - reflexivity.
  - left. reflexivity.
Defined.

(** ** Parallel lines *)

Lemma eqb_refl (x : float) : F64.is_nan x = false -> F64.eqb x x = true.
Proof.
  unfold F64.eqb, SFeqb.
  destruct x as [[]|[]| |[] m e]; simpl; try discriminate; try reflexivity;
    intros _; rewrite Z.compare_refl;
    change (Pos.compare_cont Eq m m) with (Pos.compare m m);
    rewrite Pos.compare_refl; reflexivity.
Qed.

(** Two lines of the same slope, coincident ones included, have no
    intersection for [find_intersection]: the result is NaN whatever the
    slope and the intercepts, infinite and NaN ones included. *)
Theorem find_intersection_parallel (slope intercept1 intercept2 : float) :
  find_intersection slope intercept1 slope intercept2 = Ok F64.nan.
Proof.
  unfold find_intersection.
  destruct (F64.is_nan slope) eqn:Hs.
  - destruct slope; try discriminate Hs. simpl.
    destruct (F64.sub intercept2 intercept1); reflexivity.
  - now rewrite (isclose_of_eqb _ _ (eqb_refl slope Hs)).
Qed.

(** ** The outlier detector: boundary, window and iterations *)

Lemma nth_mapi_from {A B : Type} (f : Z -> A -> B) (d : B) (d' : A) (l : list A) :
  forall i j, (j < List.length l)%nat ->
    nth j (mapi_from f i l) d = f (i + Z.of_nat j) (nth j l d').
Proof.
  induction l as [|x l IH]; intros i j Hj; simpl in Hj; [lia|].
  destruct j as [|j]; simpl.
  - f_equal. lia.
  - rewrite IH by lia. f_equal. lia.
Qed.

Lemma nth_set_where_false (mask a : list bool) :
  forall j, nth j a false = false -> nth j (set_where mask false a) false = false.
Proof.
  unfold set_where. revert a.
  induction mask as [|m mask IH]; intros [|x a] [|j] Hj; simpl in *; auto.
  now destruct m.
Qed.

(** What [new_mask[:boundary] = False] and [new_mask[-boundary:] = False]
    leave at a position of the boundary. *)
Lemma nth_boundary_false (boundary : Z) (combined raw : list bool) (j : nat) :
  Z.of_nat j < boundary \/ len raw - boundary <= Z.of_nat j ->
  nth j (set_where combined false
           (set_tail boundary false (set_head boundary false raw))) false = false.
Proof.
  intros Hj. apply nth_set_where_false.
  destruct (Nat.lt_ge_cases j (List.length raw)) as [Hlt|Hge].
  - unfold set_tail, mapi.
    rewrite (nth_mapi_from _ false false) by (now rewrite length_set_head).
    unfold len at 1. rewrite length_set_head. fold (len raw). simpl.
    destruct (len raw - boundary <=? Z.of_nat j) eqn:Ht; [reflexivity|].
    apply Z.leb_gt in Ht.
    unfold set_head, mapi. rewrite (nth_mapi_from _ false false) by exact Hlt.
    simpl. replace (Z.of_nat j <? boundary) with true; [reflexivity|].
    symmetry. apply Z.ltb_lt. lia.
  - apply nth_overflow. now rewrite length_set_tail, length_set_head.
Qed.

(** A pass grows the mask, and not at the boundary. *)
Lemma outlier_pass_mask (window : Z) (threshold : float) (values : list float)
    (st st' : outlier_state) :
  outlier_inv values st ->
  outlier_pass window threshold values st = Some st' ->
  forall j,
    (nth j (combined_mask st) false = true -> nth j (combined_mask st') false = true) /\
    (Z.of_nat j < Z.max (window / 2) 3 \/
     len values - Z.max (window / 2) 3 <= Z.of_nat j ->
     nth j (combined_mask st) false = false ->
     nth j (combined_mask st') false = false).
Proof.
  intros (Hw & Hc & _). unfold outlier_pass. cbv zeta.
  set (deviations := map2 (fun v m => F64.abs (F64.sub v m)) (working_values st) _).
  set (boundary := Z.max (window / 2) 3).
  destruct (len _ =? 0); [discriminate|].
  set (thr := F64.mul threshold _).
  set (raw := map (fun d => F64.gtb d thr) deviations).
  set (new_mask := set_where (combined_mask st) false _).
  destruct (negb (np.any new_mask)); [discriminate|].
  intros [= <-] j. simpl.
  assert (Hraw : List.length raw = List.length values).
  { unfold raw, deviations. rewrite length_map, length_map2, length_rolling_median. lia. }
  assert (Hnew : List.length (combined_mask st) = List.length new_mask).
  { unfold new_mask.
    rewrite length_set_where, length_set_tail, length_set_head. lia. }
  rewrite nth_map2_orb by exact Hnew. split.
  - intros ->. reflexivity.
  - intros Hj ->. simpl. unfold new_mask. apply nth_boundary_false.
    unfold len in *. rewrite Hraw. exact Hj.
Qed.

Lemma outlier_loop_mask (iterations : nat) (window : Z) (threshold : float)
    (values : list float) :
  forall st, outlier_inv values st ->
    forall j,
      (nth j (combined_mask st) false = true ->
       nth j (combined_mask (outlier_loop iterations window threshold values st)) false
       = true) /\
      (Z.of_nat j < Z.max (window / 2) 3 \/
       len values - Z.max (window / 2) 3 <= Z.of_nat j ->
       nth j (combined_mask st) false = false ->
       nth j (combined_mask (outlier_loop iterations window threshold values st)) false
       = false).
Proof.
  induction iterations as [|k IH]; intros st Hst j; simpl; [tauto|].
  destruct (outlier_pass window threshold values st) as [st'|] eqn:Hp; [|tauto].
  destruct (outlier_pass_mask _ _ _ _ _ Hst Hp j) as (H1 & H2).
  destruct (IH st' (outlier_pass_inv _ _ _ _ _ Hst Hp) j) as (H3 & H4).
  split; auto.
Qed.

Lemma forced_window_bounds (window : Z) :
  11 <= forced_window window /\ window <= forced_window window /\
  forced_window window mod 2 = 1 /\
  Z.max (forced_window window / 2) 3 = forced_window window / 2 /\
  5 <= forced_window window / 2.
Proof.
  unfold forced_window.
  assert (H11 : 11 <= Z.max window 11) by lia.
  assert (Hw : window <= Z.max window 11) by lia.
  set (w := Z.max window 11) in *.
  pose proof (Z.mod_pos_bound w 2 ltac:(lia)) as Hm.
  assert (Hodd : (if w mod 2 =? 0 then w + 1 else w) mod 2 = 1).
  { destruct (w mod 2 =? 0) eqn:E.
    - apply Z.eqb_eq in E. rewrite Z.add_mod, E by lia. reflexivity.
    - apply Z.eqb_neq in E. lia. }
  assert (Hge : 11 <= (if w mod 2 =? 0 then w + 1 else w))
    by (destruct (w mod 2 =? 0); lia).
  assert (H5 : 5 <= (if w mod 2 =? 0 then w + 1 else w) / 2)
    by (apply Z.div_le_lower_bound; lia).
  repeat split; try assumption; [destruct (w mod 2 =? 0); lia | lia].
Qed.

(** The detector leaves the boundary alone: the first and the last
    [forced_window / 2] points, at least five at each end, are never
    flagged, so they keep their values. *)
Theorem remove_outliers_boundary (temps values : list float) (window : Z)
    (threshold : float) (max_iterations : Z)
    (temps_clean values_clean : list float) (outlier_mask : list bool) (i : nat) :
  remove_outliers temps values window threshold max_iterations
    = Ok (temps_clean, values_clean, outlier_mask) ->
  Z.of_nat i < forced_window window / 2 \/
  len values - forced_window window / 2 <= Z.of_nat i ->
  5 <= forced_window window / 2 /\
  nth i outlier_mask false = false /\
  nth i values_clean F64.nan = nth i values F64.nan.
Proof.
  intros Hr Hi.
  destruct (forced_window_bounds window) as (_ & _ & _ & Hmax & H5).
  split; [exact H5|].
  assert (Hm : nth i outlier_mask false = false).
  { revert Hr. unfold remove_outliers.
    destruct (negb _); [discriminate|].
    destruct (_ <? window + 2).
    - intros [= <- <- <-]. apply nth_all_false.
    - fold (forced_window window). intros [= <- <- <-].
      apply outlier_loop_mask.
      + apply outlier_inv_init.
      + rewrite Hmax. exact Hi.
      + apply nth_all_false. }
  split; [exact Hm|].
  apply remove_outliers_inv in Hr. destruct Hr as (_ & _ & _ & _ & Hv).
  apply Hv, Hm.
Qed.

Lemma remove_outliers_boundary_witness :
  5 <= forced_window 5 / 2 /\
  nth 4 spike_mask false = false /\
  nth 4 spike_cleaned F64.nan = nth 4 spike_values F64.nan.
Proof.
  apply (remove_outliers_boundary spike_temps spike_values 5 (F64.ratio 3 2) 3
           spike_temps spike_cleaned spike_mask 4).
  - vm_compute. reflexivity.
  - left. vm_compute. reflexivity.
Defined.

Lemma forced_window_idempotent (window : Z) :
  forced_window (forced_window window) = forced_window window.
Proof.
  destruct (forced_window_bounds window) as (H11 & _ & Hodd & _).
  unfold forced_window at 1. rewrite Z.max_l by lia.
  rewrite Hodd. reflexivity.
Qed.

(** On a series of at least [forced_window + 2] points the window argument
    counts only through its forced value: any window up to 11, the default 5
    of [analyze_channel] and the default 11 of [remove_outliers] among them,
    gives the same result on 13 points or more, and an even window the
    result of the next odd one. *)
Theorem remove_outliers_forced_window (temps values : list float) (window : Z)
    (threshold : float) (max_iterations : Z) :
  forced_window window + 2 <= len values ->
  remove_outliers temps values window threshold max_iterations
  = remove_outliers temps values (forced_window window) threshold max_iterations.
Proof.
  intros Hn. destruct (forced_window_bounds window) as (_ & Hle & _).
  unfold remove_outliers.
  destruct (negb _); [reflexivity|].
  replace (len values <? window + 2) with false by (symmetry; apply Z.ltb_ge; lia).
  replace (len values <? forced_window window + 2) with false
    by (symmetry; apply Z.ltb_ge; lia).
  fold (forced_window window). fold (forced_window (forced_window window)).
  rewrite forced_window_idempotent. reflexivity.
Qed.

Lemma remove_outliers_forced_window_witness :
  remove_outliers long_temps long_values 5 (F64.of_Z 5) 3
  = remove_outliers long_temps long_values (forced_window 5) (F64.of_Z 5) 3.
Proof.
  apply (remove_outliers_forced_window long_temps long_values 5 (F64.of_Z 5) 3).
  vm_compute. discriminate.
Defined.

Lemma outlier_loop_step_mask (iterations : nat) (window : Z) (threshold : float)
    (values : list float) :
  forall st, outlier_inv values st ->
    forall j,
      nth j (combined_mask (outlier_loop iterations window threshold values st)) false
      = true ->
      nth j (combined_mask (outlier_loop (S iterations) window threshold values st)) false
      = true.
Proof.
  induction iterations as [|k IH]; intros st Hst j.
  - simpl. destruct (outlier_pass window threshold values st) as [st'|] eqn:Hp; [|auto].
    apply (outlier_pass_mask _ _ _ _ _ Hst Hp j).
  - change (outlier_loop (S (S k)) window threshold values st)
      with (match outlier_pass window threshold values st with
            | None => st
            | Some st' => outlier_loop (S k) window threshold values st'
            end).
    change (outlier_loop (S k) window threshold values st)
      with (match outlier_pass window threshold values st with
            | None => st
            | Some st' => outlier_loop k window threshold values st'
            end).
    destruct (outlier_pass window threshold values st) as [st'|] eqn:Hp; [|auto].
    apply IH. eapply outlier_pass_inv; eassumption.
Qed.

Lemma outlier_loop_more_mask (extra iterations : nat) (window : Z)
    (threshold : float) (values : list float) (st : outlier_state) (j : nat) :
  outlier_inv values st ->
  nth j (combined_mask (outlier_loop iterations window threshold values st)) false
  = true ->
  nth j (combined_mask (outlier_loop (extra + iterations) window threshold values st))
      false = true.
Proof.
  intros Hst. induction extra as [|e IH]; intros Hj; [exact Hj|].
  change (S e + iterations)%nat with (S (e + iterations)).
  apply outlier_loop_step_mask; auto.
Qed.

(** More passes never take a flag back: a point flagged within
    [max_iterations] passes is flagged within any larger number of them. *)
Theorem remove_outliers_iterations_monotone (temps values : list float)
    (window : Z) (threshold : float) (max_iterations more_iterations : Z)
    (temps_clean values_clean temps_clean' values_clean' : list float)
    (outlier_mask outlier_mask' : list bool) (i : nat) :
  max_iterations <= more_iterations ->
  remove_outliers temps values window threshold max_iterations
    = Ok (temps_clean, values_clean, outlier_mask) ->
  remove_outliers temps values window threshold more_iterations
    = Ok (temps_clean', values_clean', outlier_mask') ->
  nth i outlier_mask false = true ->
  nth i outlier_mask' false = true.
Proof.
  intros Hle. unfold remove_outliers.
  destruct (negb _); [discriminate|].
  destruct (_ <? window + 2).
  - intros [= <- <- <-] [= <- <- <-]. auto.
  - intros [= <- <- <-] [= <- <- <-].
    replace (Z.to_nat more_iterations)
      with ((Z.to_nat more_iterations - Z.to_nat max_iterations)
            + Z.to_nat max_iterations)%nat by lia.
    apply outlier_loop_more_mask, outlier_inv_init.
Qed.

Lemma remove_outliers_iterations_monotone_witness :
  nth 5 spike_mask false = true.
Proof.
  apply (remove_outliers_iterations_monotone spike_temps spike_values 5 (F64.ratio 3 2)
           1 3 spike_temps spike_cleaned spike_temps spike_cleaned
           spike_mask spike_mask 5).
  - lia.
  - vm_compute. reflexivity.
  - vm_compute. reflexivity.
  - reflexivity.
Defined.

(** ** The orchestrator: what it raises and what it returns *)

Lemma remove_outliers_error (temps values : list float) (window : Z)
    (threshold : float) (max_iterations : Z) (e : exn) :
  remove_outliers temps values window threshold max_iterations = Err e ->
  e = ValueError LengthMismatch /\ List.length temps <> List.length values.
Proof.
  unfold remove_outliers.
  destruct (len temps =? len values) eqn:Hl; simpl.
  - destruct (_ <? window + 2); discriminate.
  - intros [= <-]. split; [reflexivity|].
    apply Z.eqb_neq in Hl. intros E. apply Hl. unfold len. now rewrite E.
Qed.

Lemma smooth_data_error (sp : SciPy) (temps values : list float)
    (window_length polyorder : Z) (e : exn) :
  smooth_data sp temps values window_length polyorder = Err e ->
  (e = ValueError LengthMismatch /\ List.length temps <> List.length values) \/
  e = ValueError InvalidParameter \/ e = ValueError Library.
Proof.
  unfold smooth_data.
  destruct (len temps =? len values) eqn:Hl; simpl.
  - destruct (len temps =? 0); [discriminate|].
    destruct (_ <=? polyorder); [intros [= <-]; auto|].
    destruct (len values <? _); [intros [= <-]; auto|].
    destruct (savgol_filter sp values _ polyorder); simpl; [discriminate|].
    intros [= <-]. auto.
  - intros [= <-]. left. split; [reflexivity|].
    apply Z.eqb_neq in Hl. intros E. apply Hl. unfold len. now rewrite E.
Qed.

(** [smooth_data] returns the temperatures it was given. *)
Lemma smooth_data_temps (sp : SciPy) (temps values : list float)
    (window_length polyorder : Z) (temps_smooth values_smooth : list float) :
  smooth_data sp temps values window_length polyorder
    = Ok (temps_smooth, values_smooth) ->
  temps_smooth = temps.
Proof.
  unfold smooth_data.
  destruct (negb _); [discriminate|].
  destruct (len temps =? 0) eqn:H0.
  - intros [= <- <-]. apply Z.eqb_eq in H0. unfold len in H0.
    destruct temps; [reflexivity | simpl in H0; lia].
  - destruct (_ <=? polyorder); [discriminate|].
    destruct (len values <? _); [discriminate|].
    destruct (savgol_filter sp values _ polyorder); simpl; [|discriminate].
    now intros [= <- <-].
Qed.

Lemma fit_baseline_error (sp : SciPy) (temps values : list float)
    (t_start t_end : float) (e : exn) :
  List.length temps = List.length values ->
  fit_baseline sp temps values t_start t_end = Err e ->
  e = ValueError EmptyRange \/ e = ValueError InsufficientPoints \/
  e = ValueError Library.
Proof.
  intros Hl.
  rewrite (fit_baseline_pairs sp temps values t_start t_end Hl).
  destruct (len _ =? 0); [intros [= <-]; auto|].
  destruct (len _ <? 2); [intros [= <-]; auto|].
  destruct (linregress sp _ _); simpl; [discriminate|]. intros [= <-]. auto.
Qed.

Lemma find_intersection_ok (slope1 intercept1 slope2 intercept2 : float) :
  exists x, find_intersection slope1 intercept1 slope2 intercept2 = Ok x.
Proof.
  unfold find_intersection.
  destruct (np.isclose slope1 slope2) eqn:H; [eexists; reflexivity|].
  unfold truediv. rewrite (divisor_nonzero _ _ H). eexists; reflexivity.
Qed.

(** What a successful run of steps 2 to 8 went through. *)
Lemma analyze_cleaned_inv (sp : SciPy) (temps_clean values_clean : list float)
    (outlier_mask : list bool) (low_range high_range : float * float)
    (smooth_params : Z * Z) (slope_offset : Z) (r : dict) :
  analyze_cleaned sp temps_clean values_clean outlier_mask low_range high_range
    smooth_params slope_offset = Ok r ->
  exists values_smooth derivatives max_slope_idx
         tangent_slope tangent_intercept low_slope low_intercept
         high_slope high_intercept As Af_tan,
    smooth_data sp temps_clean values_clean (fst smooth_params) (snd smooth_params)
      = Ok (temps_clean, values_smooth) /\
    compute_derivative temps_clean values_smooth = Ok derivatives /\
    find_max_slope_index derivatives slope_offset = Ok max_slope_idx /\
    0 <= max_slope_idx < len temps_clean /\
    compute_tangent_at_point temps_clean values_smooth derivatives max_slope_idx
      = Ok (tangent_slope, tangent_intercept) /\
    fit_baseline sp temps_clean values_smooth (fst low_range) (snd low_range)
      = Ok (low_slope, low_intercept) /\
    fit_baseline sp temps_clean values_smooth (fst high_range) (snd high_range)
      = Ok (high_slope, high_intercept) /\
    find_intersection tangent_slope tangent_intercept low_slope low_intercept = Ok As /\
    find_intersection tangent_slope tangent_intercept high_slope high_intercept
      = Ok Af_tan /\
    r = [("As", PyFloat As);
         ("Af_tan", PyFloat Af_tan);
         ("max_slope_temp",
          PyFloat (nth (Z.to_nat max_slope_idx) temps_clean F64.nan));
         ("low_baseline", PyTuple low_slope low_intercept);
         ("high_baseline", PyTuple high_slope high_intercept);
         ("tangent", PyTuple tangent_slope tangent_intercept);
         ("outlier_count", PyInt (np.count outlier_mask))]%string.
Proof.
  unfold analyze_cleaned.
  destruct smooth_params as [window_length polyorder].
  destruct low_range as [low_t_start low_t_end].
  destruct high_range as [high_t_start high_t_end]. simpl fst. simpl snd.
  destruct (smooth_data _ _ _ _ _) as [[temps_smooth values_smooth]|] eqn:Hs;
    simpl bind; [|discriminate].
  pose proof (smooth_data_temps _ _ _ _ _ _ _ Hs) as ->.
  destruct (compute_derivative temps_clean values_smooth) as [derivatives|] eqn:Hd;
    simpl bind; [|discriminate].
  destruct (compute_derivative_ok _ _ _ Hd) as (Hlv & Hn & Hld).
  destruct (find_max_slope_index derivatives slope_offset) as [idx|] eqn:Hi;
    simpl bind; [|discriminate].
  pose proof (find_max_slope_index_ok _ _ _ Hi) as Hb.
  assert (Hb' : 0 <= idx < len temps_clean) by (unfold len in *; lia).
  rewrite (getitem_nth F64.nan temps_clean idx Hb'). simpl bind.
  destruct (compute_tangent_at_point _ _ _ _) as [[ts ti]|] eqn:Ht;
    simpl bind; [|discriminate].
  destruct (fit_baseline sp _ _ low_t_start _) as [[ls li]|] eqn:Hlow;
    simpl bind; [|discriminate].
  destruct (fit_baseline sp _ _ high_t_start _) as [[hs hi]|] eqn:Hhigh;
    simpl bind; [|discriminate].
  destruct (find_intersection ts ti ls li) as [a|] eqn:Ha; simpl bind; [|discriminate].
  destruct (find_intersection ts ti hs hi) as [f|] eqn:Hf; simpl bind; [|discriminate].
  intros [= <-].
  exists values_smooth, derivatives, idx, ts, ti, ls, li, hs, hi, a, f.
  repeat split; auto; lia.
Qed.

(** The record [analyze_channel] returns is consistent with itself and with
    its input: the max-slope temperature is the input temperature at a valid
    index, and the two transformation temperatures are what
    [find_intersection] gives for the tangent and the baselines of the same
    record. *)
Theorem analyze_channel_consistent (sp : SciPy) (temps values : list float)
    (low_range high_range : float * float) (smooth_params : Z * Z)
    (slope_offset : Z) (outlier_params : Z * float) (r : dict) :
  analyze_channel sp temps values low_range high_range smooth_params
    slope_offset outlier_params = Ok r ->
  exists max_slope_idx As Af_tan tangent_slope tangent_intercept
         low_slope low_intercept high_slope high_intercept,
    0 <= max_slope_idx < len temps /\
    get r "max_slope_temp"
      = Some (PyFloat (nth (Z.to_nat max_slope_idx) temps F64.nan)) /\
    get r "tangent" = Some (PyTuple tangent_slope tangent_intercept) /\
    get r "low_baseline" = Some (PyTuple low_slope low_intercept) /\
    get r "high_baseline" = Some (PyTuple high_slope high_intercept) /\
    get r "As" = Some (PyFloat As) /\
    get r "Af_tan" = Some (PyFloat Af_tan) /\
    find_intersection tangent_slope tangent_intercept low_slope low_intercept = Ok As /\
    find_intersection tangent_slope tangent_intercept high_slope high_intercept
      = Ok Af_tan.
Proof.
  unfold analyze_channel.
  destruct (negb _); [discriminate|].
  destruct (len temps <? 10); [discriminate|].
  destruct outlier_params as [outlier_window outlier_threshold].
  destruct (remove_outliers _ _ _ _ _) as [[[tc vc] mask]|] eqn:Hr;
    simpl bind; [|discriminate].
  apply remove_outliers_inv in Hr. destruct Hr as (-> & _ & _).
  intros Hc. apply analyze_cleaned_inv in Hc.
  destruct Hc as (vs & d & idx & ts & ti & ls & li & hs & hi & a & f &
                  _ & _ & _ & Hb & _ & _ & _ & Ha & Hf & ->).
  exists idx, a, f, ts, ti, ls, li, hs, hi. repeat split; auto; lia.
Qed.

Lemma analyze_channel_consistent_witness :
  exists max_slope_idx As Af_tan tangent_slope tangent_intercept
         low_slope low_intercept high_slope high_intercept,
    0 <= max_slope_idx < len step_temps /\
    get step_result "max_slope_temp"
      = Some (PyFloat (nth (Z.to_nat max_slope_idx) step_temps F64.nan)) /\
    get step_result "tangent" = Some (PyTuple tangent_slope tangent_intercept) /\
    get step_result "low_baseline" = Some (PyTuple low_slope low_intercept) /\
    get step_result "high_baseline" = Some (PyTuple high_slope high_intercept) /\
    get step_result "As" = Some (PyFloat As) /\
    get step_result "Af_tan" = Some (PyFloat Af_tan) /\
    find_intersection tangent_slope tangent_intercept low_slope low_intercept = Ok As /\
    find_intersection tangent_slope tangent_intercept high_slope high_intercept
      = Ok Af_tan.
Proof.
  apply (analyze_channel_consistent scipy_ref step_temps step_values
           (F64.of_Z 0, F64.of_Z 2) (F64.of_Z 7, F64.of_Z 9) (1, 0) 0
           (5, F64.of_Z 5) step_result).
  vm_compute. reflexivity.
Defined.

Lemma analyze_cleaned_error (sp : SciPy) (temps_clean values_clean : list float)
    (outlier_mask : list bool) (low_range high_range : float * float)
    (smooth_params : Z * Z) (slope_offset : Z) (e : exn) :
  List.length temps_clean = List.length values_clean ->
  analyze_cleaned sp temps_clean values_clean outlier_mask low_range high_range
    smooth_params slope_offset = Err e ->
  (e = ValueError LengthMismatch /\
   exists values_smooth,
     smooth_data sp temps_clean values_clean (fst smooth_params) (snd smooth_params)
       = Ok (temps_clean, values_smooth) /\
     List.length values_smooth <> List.length values_clean) \/
  e = ValueError InsufficientPoints \/ e = ValueError InvalidParameter \/
  e = ValueError EmptyRange \/ e = ValueError Library.
Proof.
  intros Hl. unfold analyze_cleaned.
  destruct smooth_params as [window_length polyorder].
  destruct low_range as [low_t_start low_t_end].
  destruct high_range as [high_t_start high_t_end]. simpl fst. simpl snd.
  destruct (smooth_data _ _ _ _ _) as [[temps_smooth values_smooth]|e1] eqn:Hs;
    simpl bind.
  2:{ intros [= <-]. apply smooth_data_error in Hs.
      destruct Hs as [(_ & Hne) | [-> | ->]]; [contradiction | auto | auto 6]. }
  pose proof (smooth_data_temps _ _ _ _ _ _ _ Hs) as ->.
  destruct (compute_derivative temps_clean values_smooth) as [derivatives|e2] eqn:Hd;
    simpl bind.
  2:{ intros [= <-].
      destruct (compute_derivative_error _ _ _ Hd) as [(-> & Hne) | (-> & _)]; [|auto].
      left. split; [reflexivity|]. exists values_smooth. split; [reflexivity|].
      congruence. }
  destruct (compute_derivative_ok _ _ _ Hd) as (Hlv & Hn & Hld).
  destruct (find_max_slope_index derivatives slope_offset) as [idx|e3] eqn:Hi;
    simpl bind.
  2:{ exfalso. revert Hi. unfold find_max_slope_index.
      replace (len derivatives =? 0) with false; [discriminate|].
      symmetry. apply Z.eqb_neq. unfold len. lia. }
  pose proof (find_max_slope_index_ok _ _ _ Hi) as Hb.
  assert (Hb' : 0 <= idx < len temps_clean) by (unfold len in *; lia).
  rewrite (getitem_nth F64.nan temps_clean idx Hb'). simpl bind.
  rewrite compute_tangent_at_point_ok by (unfold len; auto; congruence). simpl bind.
  destruct (fit_baseline sp _ _ low_t_start _) as [[ls li]|e4] eqn:Hlow; simpl bind.
  2:{ intros [= <-]. apply fit_baseline_error in Hlow; [|exact Hlv].
      destruct Hlow as [-> | [-> | ->]]; auto 6. }
  destruct (fit_baseline sp _ _ high_t_start _) as [[hs hi]|e5] eqn:Hhigh; simpl bind.
  2:{ intros [= <-]. apply fit_baseline_error in Hhigh; [|exact Hlv].
      destruct Hhigh as [-> | [-> | ->]]; auto 6. }
  match goal with
  | |- context [find_intersection ?a ?b ls li] =>
      destruct (find_intersection_ok a b ls li) as (x & ->);
      destruct (find_intersection_ok a b hs hi) as (y & ->)
  end.
  simpl bind. discriminate.
Qed.

(** [analyze_channel] fails only with the length-mismatch, too-few-points,
    invalid-parameter or empty-range error of its own checks or with an
    error of scipy: no index is ever out of bounds, the derivatives are
    never empty and no division is by zero.  When the filter of scipy keeps
    the length of its input, the length mismatch is that of the two input
    arrays. *)
Theorem analyze_channel_errors (sp : SciPy) (temps values : list float)
    (low_range high_range : float * float) (smooth_params : Z * Z)
    (slope_offset : Z) (outlier_params : Z * float) (e : exn) :
  analyze_channel sp temps values low_range high_range smooth_params
    slope_offset outlier_params = Err e ->
  (e = ValueError LengthMismatch \/ e = ValueError InsufficientPoints \/
   e = ValueError InvalidParameter \/ e = ValueError EmptyRange \/
   e = ValueError Library) /\
  ((forall x w p y, savgol_filter sp x w p = Some y -> List.length y = List.length x) ->
   e = ValueError LengthMismatch -> List.length temps <> List.length values).
Proof.
  unfold analyze_channel.
  destruct (len temps =? len values) eqn:Hl; simpl.
  2:{ intros [= <-]. split; [auto|]. intros _ _.
      apply Z.eqb_neq in Hl. intros E. apply Hl. unfold len. now rewrite E. }
  destruct (len temps <? 10).
  { intros [= <-]. split; [auto|]. intros _ [=]. }
  destruct outlier_params as [outlier_window outlier_threshold].
  destruct (remove_outliers _ _ _ _ _) as [[[tc vc] mask]|e0] eqn:Hr; simpl bind.
  2:{ intros [= <-]. apply remove_outliers_error in Hr. destruct Hr as (-> & Hne).
      split; auto. }
  apply remove_outliers_inv in Hr. destruct Hr as (-> & Hlen & Hw & _). simpl in Hw.
  intros He. apply analyze_cleaned_error in He; [|congruence].
  split.
  - destruct He as [(-> & _) | [-> | [-> | [-> | ->]]]]; auto 6.
  - intros Hsp ->. exfalso.
    destruct He as [(_ & vs & Hs & Hne) | [[=] | [[=] | [[=] | [=]]]]].
    apply Hne. eapply smooth_data_length; eassumption.
Qed.

Lemma analyze_channel_errors_witness :
  (ValueError EmptyRange = ValueError LengthMismatch \/
   ValueError EmptyRange = ValueError InsufficientPoints \/
   ValueError EmptyRange = ValueError InvalidParameter \/
   ValueError EmptyRange = ValueError EmptyRange \/
   ValueError EmptyRange = ValueError Library) /\
  ((forall x w p y,
       savgol_filter scipy_ref x w p = Some y -> List.length y = List.length x) ->
   ValueError EmptyRange = ValueError LengthMismatch ->
   List.length step_temps <> List.length step_values).
Proof.
  apply (analyze_channel_errors scipy_ref step_temps step_values
           (F64.of_Z 20, F64.of_Z 30) (F64.of_Z 7, F64.of_Z 9) (1, 0) 0
           (5, F64.of_Z 5) (ValueError EmptyRange)).
  vm_compute. reflexivity.
Defined.

(** ** The differences of a parabola, in exact arithmetic *)

Section Parabola.

Local Open Scope Q_scope.

Variables a b c : Q.

Lemma interior_nonuniform_parabola (temps : list Q) :
  increasing temps ->
  Forall2 (fun d t => d == 2 * a * t + b)
          (interior_nonuniform (map (parabola a b c) temps) (diff temps))
          (removelast (tl temps)).
Proof.
  induction temps as [|t0 temps IH]; [constructor|].
  destruct temps as [|t1 temps]; [constructor|].
  destruct temps as [|t2 temps]; [constructor|].
  intros Hinc. pose proof Hinc as (H01 & H12 & _).
  rewrite diff_cons2. rewrite (diff_cons2 t1 t2).
  change (map (parabola a b c) (t0 :: t1 :: t2 :: temps))
    with (parabola a b c t0 :: parabola a b c t1 :: parabola a b c t2
            :: map (parabola a b c) temps).
  rewrite interior_nonuniform_cons.
  change (removelast (tl (t0 :: t1 :: t2 :: temps)))
    with (t1 :: removelast (tl (t1 :: t2 :: temps))).
  constructor.
  - unfold parabola. cbn [plus minus times divide negate Q_arith].
    field. repeat split; lra.
  - exact (IH (increasing_tail _ _ Hinc)).
Qed.

End Parabola.

(** The interior differences are of second order.  On doubles that are zero
    or of magnitude between [2^-100] and [2^100], with temperatures at
    least [d] apart, uniformly spaced or not, and values of magnitude at
    most [F] lying exactly on the parabola [a t^2 + b t + c],
    [compute_derivative] returns at every interior temperature [t] a finite
    double within [2^-47 F / d] of [2 a t + b]. *)
Theorem compute_derivative_parabola (a b c F d : Q) (ts : list Q)
    (temps values : list float) :
  (2 <= List.length ts)%nat ->
  Forall2 datum temps ts ->
  Forall2 datum values (map (parabola a b c) ts) ->
  (0 < d)%Q ->
  spaced d ts ->
  Forall (fun t => (Qabs (parabola a b c t) <= F)%Q) ts ->
  exists first interior last_,
    compute_derivative temps values = Ok (first :: interior ++ [last_]) /\
    Forall2 (fun x t => within (tolerance F d) x (2 * a * t + b)%Q)
            interior (removelast (tl ts)).
Proof.
  intros Hn HT HV Hd Hsp HB.
  destruct (data_shape _ _ _ _ Hn HT HV)
    as (T0 & T1 & temps' & F0 & F1 & values' & t0 & t1 & ts' & -> & -> & -> & Hl & Hn').
  rewrite compute_derivative_gradient by assumption.
  pose proof (spaced_increasing _ _ Hd Hsp) as Hinc.
  destruct (gradient_accurate F d Hd F0 F1 T0 T1 values' temps'
              (parabola a b c t0) (parabola a b c t1) t0 t1
              (map (parabola a b c) ts') ts'
              HT HV (length_map _ _) Hsp (Forall_map_bound _ _ _ HB))
    as (first & interior & last_ & -> & _ & Hint & _).
  exists first, interior, last_. split; [reflexivity|].
  apply (Forall2_within_at _ (fun t => (2 * a * t + b)%Q) _ _ _ Hint).
  apply (interior_nonuniform_parabola a b c (t0 :: t1 :: ts')), Hinc.
Qed.

Lemma compute_derivative_parabola_witness :
  exists first interior last_,
    compute_derivative grid_temps_f64 grid_parabola_f64
      = Ok (first :: interior ++ [last_]) /\
    Forall2 (fun x t => within (tolerance 49 1) x (2 * 1 * t + 0)%Q)
            interior [1; 3]%Q.
Proof.
  apply (compute_derivative_parabola 1 0 0 49 1 grid_temps).
  - simpl. lia.
  - repeat (apply Forall2_cons; [datum_of_Z|]). apply Forall2_nil.
  - repeat (apply Forall2_cons; [datum_of_Z|]). apply Forall2_nil.
  - reflexivity.
  - simpl. repeat split; qnum.
  - repeat (apply Forall_cons; [qnum|]). apply Forall_nil.
Defined.

(** * The data layer *)

(** ** Frames: labels and columns *)

Lemma contains_getitem (df : DataFrame) (col : string) :
  frame.contains df col = true <-> exists a, frame.getitem df col = Some a.
Proof.
  unfold frame.contains, frame.getitem, frame.columns.
  induction df as [|[k a] df IH]; simpl.
  - split; [discriminate | intros [a H]; discriminate].
  - rewrite (String.eqb_sym col k). destruct (String.eqb k col).
    + split; [intros _; exists a; reflexivity | reflexivity].
    + exact IH.
Qed.

Lemma getitem_not_contains (df : DataFrame) (col : string) :
  frame.contains df col = false -> frame.getitem df col = None.
Proof.
  intros H. destruct (frame.getitem df col) as [a|] eqn:E; [|reflexivity].
  assert (frame.contains df col = true) by (apply contains_getitem; eauto).
  congruence.
Qed.

(** ** The order of doubles, continued *)


Lemma ltb_not_nan (x y : float) :
  F64.ltb x y = true -> F64.is_nan x = false /\ F64.is_nan y = false.
Proof.
  unfold F64.ltb, SFltb.
  destruct x as [[]|[]| |[] mx ex], y as [[]|[]| |[] my ey];
    simpl; try discriminate; auto.
Qed.

Lemma leb_not_eqb_ltb (x y : float) :
  F64.leb x y = true -> F64.eqb y x = false -> F64.ltb x y = true.
Proof.
  unfold F64.eqb, F64.leb, F64.ltb, SFeqb, SFleb, SFltb.
  destruct x as [[]|[]| |[] mx ex], y as [[]|[]| |[] my ey];
    simpl; try discriminate; try reflexivity; compare_cases.
Qed.

Lemma ltb_trans (a b c : float) :
  F64.ltb a b = true -> F64.ltb b c = true -> F64.ltb a c = true.
Proof. intros H1 H2. eapply leb_ltb_trans; [apply ltb_leb|]; eassumption. Qed.

(** ** The keys of a grouping *)

Lemma Forall_filter {A : Type} (P : A -> Prop) (p : A -> bool) (l : list A) :
  Forall P l -> Forall P (filter p l).
Proof.
  induction 1 as [|x l Hx Hl IH]; simpl; [constructor|].
  destruct (p x); [constructor|]; assumption.
Qed.


Lemma distinct_filter (p : float -> bool) (keys : list float) :
  distinct keys -> distinct (filter p keys).
Proof.
  induction keys as [|k keys IH]; simpl; [trivial|].
  intros [Hk Hd]. destruct (p k); simpl; auto using Forall_filter.
Qed.

Lemma uniques_spec (keys : list float) :
  distinct (frame.uniques keys) /\
  Forall (fun k => F64.is_nan k = false /\ In k keys) (frame.uniques keys).
Proof.
  induction keys as [|k keys [IHd IHf]]; simpl; [split; [trivial | constructor]|].
  assert (Hin : Forall (fun k' => F64.is_nan k' = false /\ (k = k' \/ In k' keys))
                  (frame.uniques keys)).
  { eapply Forall_impl; [|exact IHf]. simpl. intros a [Ha Hb]. auto. }
  destruct (F64.is_nan k) eqn:Hk; [split; assumption|].
  split.
  - simpl. split; [|apply distinct_filter; assumption].
    apply Forall_forall. intros k' Hk'. apply filter_In in Hk'.
    destruct Hk' as [_ Hk']. apply negb_true_iff in Hk'. exact Hk'.
  - constructor; [auto|]. apply Forall_filter; assumption.
Qed.

Lemma length_filter_le {A : Type} (p : A -> bool) (l : list A) :
  (List.length (filter p l) <= List.length l)%nat.
Proof.
  induction l as [|x l IH]; simpl; [lia|]. destruct (p x); simpl; lia.
Qed.

Lemma length_uniques (keys : list float) :
  (List.length (frame.uniques keys) <= List.length keys)%nat.
Proof.
  induction keys as [|k keys IH]; simpl; [lia|].
  destruct (F64.is_nan k); simpl; [lia|].
  pose proof (length_filter_le (fun k' => negb (F64.eqb k' k)) (frame.uniques keys)).
  lia.
Qed.


(** ** Sorting keys *)

Lemma In_insert (x y : float) (s : list float) :
  In y (np.insert x s) <-> y = x \/ In y s.
Proof.
  induction s as [|z s IH]; simpl.
  - intuition.
  - destruct (F64.leb x z); simpl; [intuition|]. rewrite IH. intuition.
Qed.

Lemma In_sort (y : float) (l : list float) : In y (np.sort l) <-> In y l.
Proof.
  unfold np.sort. induction l as [|x l IH]; simpl; [reflexivity|].
  rewrite In_insert, IH. intuition.
Qed.

Lemma length_insert (x : float) (s : list float) :
  List.length (np.insert x s) = S (List.length s).
Proof.
  induction s as [|z s IH]; simpl; [reflexivity|].
  destruct (F64.leb x z); simpl; [reflexivity|]. rewrite IH. reflexivity.
Qed.

Lemma length_sort (l : list float) : List.length (np.sort l) = List.length l.
Proof.
  unfold np.sort. induction l as [|x l IH]; simpl; [reflexivity|].
  rewrite length_insert, IH. reflexivity.
Qed.

Lemma insert_ascending (x : float) (s : list float) :
  F64.is_nan x = false ->
  Forall (fun y => F64.is_nan y = false) s ->
  Forall (fun y => F64.eqb y x = false) s ->
  ascending s -> ascending (np.insert x s).
Proof.
  intros Hx. induction s as [|z s IH]; simpl; intros Hn He Ha.
  - split; [constructor | exact I].
  - inversion Hn as [|? ? Hz Hn']; subst. inversion He as [|? ? Hzx He']; subst.
    destruct Ha as [Hzs Ha].
    destruct (F64.leb x z) eqn:Hle; simpl.
    + assert (Hlt : F64.ltb x z = true) by (apply leb_not_eqb_ltb; assumption).
      repeat split; auto. constructor; [assumption|].
      eapply Forall_impl; [|exact Hzs]. simpl. intros t Ht.
      eapply ltb_trans; eassumption.
    + assert (Hlt : F64.ltb z x = true) by (apply leb_total; assumption).
      split; [|apply IH; assumption].
      apply Forall_forall. intros t Ht. apply In_insert in Ht.
      destruct Ht as [->|Ht]; [assumption|].
      rewrite Forall_forall in Hzs. auto.
Qed.

Lemma sort_ascending (l : list float) :
  Forall (fun y => F64.is_nan y = false) l -> distinct l ->
  ascending (np.sort l).
Proof.
  unfold np.sort. induction l as [|x l IH]; simpl; [trivial|].
  intros Hn [Hx Hd]. inversion Hn as [|? ? Hx0 Hn']; subst.
  apply insert_ascending; auto.
  - apply Forall_forall. intros y Hy. apply (proj1 (In_sort y l)) in Hy.
    rewrite Forall_forall in Hn'. auto.
  - apply Forall_forall. intros y Hy. apply (proj1 (In_sort y l)) in Hy.
    rewrite Forall_forall in Hx. auto.
Qed.


(** The keys of a grouping are strictly ascending entries of the key
    column, none of them NaN. *)
Lemma group_keys (keys : list float) :
  ascending (np.sort (frame.uniques keys)) /\
  Forall (fun k => F64.is_nan k = false /\ In k keys) (np.sort (frame.uniques keys)).
Proof.
  destruct (uniques_spec keys) as [Hd Hf]. split.
  - apply sort_ascending; [|assumption].
    eapply Forall_impl; [|exact Hf]. simpl. tauto.
  - apply Forall_forall. intros k Hk.
    apply (proj1 (In_sort k (frame.uniques keys))) in Hk.
    rewrite Forall_forall in Hf. destruct (Hf k Hk). auto.
Qed.

(** ** Rows in key order *)

Lemma sort_values_ascending (rows : list (float * float)) :
  ascending (map fst rows) -> frame.sort_values rows = rows.
Proof.
  unfold frame.sort_values. induction rows as [|r rows IH]; simpl; [reflexivity|].
  intros [Hr Ha]. rewrite (IH Ha). destruct rows as [|r' rows]; [reflexivity|].
  simpl. inversion Hr as [|? ? Hlt _]; subst.
  rewrite (ltb_leb _ _ Hlt). reflexivity.
Qed.

Lemma ascending_filter_rows (p : float * float -> bool) (rows : list (float * float)) :
  ascending (map fst rows) -> ascending (map fst (filter p rows)).
Proof.
  induction rows as [|r rows IH]; simpl; [trivial|].
  intros [Hr Ha]. destruct (p r); simpl; [|auto].
  split; [|auto].
  apply Forall_forall. intros t Ht. apply in_map_iff in Ht.
  destruct Ht as (r' & <- & Hr'). apply filter_In in Hr'.
  rewrite Forall_forall in Hr. apply Hr. apply in_map. tauto.
Qed.

Lemma map_fst_keyed {A B : Type} (f : A -> B) (l : list A) :
  map fst (map (fun k => (k, f k)) l) = l.
Proof. induction l as [|x l IH]; simpl; [|rewrite IH]; reflexivity. Qed.

Lemma groupby_mean_keys (pandas : Pandas) (keys values : list float) :
  map fst (frame.groupby_mean pandas keys values) = np.sort (frame.uniques keys).
Proof. unfold frame.groupby_mean. apply map_fst_keyed. Qed.

Lemma grouped_rows_spec (pandas : Pandas) (temperature values : list float) :
  let rows := grouped_rows pandas temperature values in
  ascending (map fst rows) /\
  Forall (fun t => F64.is_nan t = false /\ In t temperature) (map fst rows) /\
  Forall (fun v => F64.is_nan v = false) (map snd rows) /\
  (List.length rows <= List.length (frame.uniques temperature))%nat.
Proof.
  unfold grouped_rows. cbv zeta.
  destruct (group_keys temperature) as [Ha Hf].
  rewrite <- (groupby_mean_keys pandas temperature values) in Ha, Hf.
  rewrite (sort_values_ascending _ Ha). unfold frame.dropna.
  repeat split.
  - apply ascending_filter_rows. exact Ha.
  - apply Forall_forall. intros t Ht. apply in_map_iff in Ht.
    destruct Ht as (r & <- & Hr). apply filter_In in Hr.
    rewrite Forall_forall in Hf. apply Hf. apply in_map. tauto.
  - apply Forall_forall. intros v Hv. apply in_map_iff in Hv.
    destruct Hv as (r & <- & Hr). apply filter_In in Hr.
    destruct Hr as [_ Hr]. unfold frame.notna in Hr.
    apply negb_true_iff in Hr. exact Hr.
  - etransitivity; [apply length_filter_le|].
    rewrite <- (length_sort (frame.uniques temperature)).
    rewrite <- (groupby_mean_keys pandas temperature values).
    rewrite length_map. lia.
Qed.

Lemma group_by_temperature_rows (pandas : Pandas) (df : DataFrame)
    (channel : string) (grouped : DataFrame) :
  group_by_temperature pandas df channel = Returns grouped ->
  exists temperature values,
    frame.getitem df "Temperature" = Some temperature /\
    frame.getitem df channel = Some values /\
    grouped = [("Temperature"%string, map fst (grouped_rows pandas temperature values));
               (channel, map snd (grouped_rows pandas temperature values))].
Proof.
  unfold group_by_temperature.
  destruct (frame.contains df channel); simpl; [|discriminate].
  destruct (frame.contains df "Temperature"); simpl; [|discriminate].
  destruct (frame.getitem df "Temperature") as [temperature|]; [|discriminate].
  destruct (frame.getitem df channel) as [values|]; [|discriminate].
  intros H. injection H as <-. exists temperature, values. auto.
Qed.

Lemma getitem_grouped (channel : string) (temps values : list float) :
  channel <> "Temperature"%string ->
  let grouped := [("Temperature"%string, temps); (channel, values)] in
  frame.getitem grouped "Temperature" = Some temps /\
  frame.getitem grouped channel = Some values.
Proof.
  intros Hc. unfold frame.getitem. cbn [find fst snd].
  rewrite !String.eqb_refl.
  destruct (String.eqb_spec "Temperature" channel) as [E|_]; [congruence|].
  auto.
Qed.

(** ** The grouping *)







(** [group_by_temperature] checks the channel first and the temperature
    column second, and with both columns in the frame it returns: no lookup
    fails. *)
Theorem group_by_temperature_errors (pandas : Pandas) (df : DataFrame)
    (channel : string) :
  (frame.contains df channel = false ->
   group_by_temperature pandas df channel = Raises ChannelNotFound) /\
  (frame.contains df channel = true ->
   frame.contains df "Temperature" = false ->
   group_by_temperature pandas df channel = Raises NoTemperatureColumn) /\
  (frame.contains df channel = true ->
   frame.contains df "Temperature" = true ->
   exists grouped, group_by_temperature pandas df channel = Returns grouped).
Proof.
  unfold group_by_temperature. repeat split.
  - intros ->. reflexivity.
  - intros -> ->. reflexivity.
  - intros Hc Ht. rewrite Hc, Ht. simpl.
    apply contains_getitem in Hc, Ht.
    destruct Hc as [values ->], Ht as [temperature ->]. eauto.
Qed.

Lemma group_by_temperature_errors_witness :
  group_by_temperature pandas_ref sample_df "Space3" = Raises ChannelNotFound /\
  group_by_temperature pandas_ref [("Space1"%string, sample_values)] "Space1"
    = Raises NoTemperatureColumn /\
  exists grouped, group_by_temperature pandas_ref sample_df "Space1" = Returns grouped.
Proof.
  split; [|split].
  - apply (group_by_temperature_errors pandas_ref sample_df "Space3"). reflexivity.
  - apply (group_by_temperature_errors pandas_ref
             [("Space1"%string, sample_values)] "Space1"); reflexivity.
  - apply (group_by_temperature_errors pandas_ref sample_df "Space1"); reflexivity.
Defined.

(** The frame [group_by_temperature] returns has the two columns
    [Temperature] and [channel], of one length.  Its temperatures are
    temperatures of the input, none of them NaN, strictly ascending, hence
    each one once; none of its values is NaN. *)
Theorem group_by_temperature_ascending (pandas : Pandas) (df : DataFrame)
    (channel : string) (grouped : DataFrame) :
  channel <> "Temperature"%string ->
  group_by_temperature pandas df channel = Returns grouped ->
  exists temperature temps values,
    frame.getitem df "Temperature" = Some temperature /\
    grouped = [("Temperature"%string, temps); (channel, values)] /\
    frame.getitem grouped "Temperature" = Some temps /\
    frame.getitem grouped channel = Some values /\
    List.length temps = List.length values /\
    ascending temps /\
    Forall (fun t => F64.is_nan t = false /\ In t temperature) temps /\
    Forall (fun v => F64.is_nan v = false) values.
Proof.
  intros Hc H. apply group_by_temperature_rows in H.
  destruct H as (temperature & values & Ht & Hv & ->).
  destruct (grouped_rows_spec pandas temperature values) as (Ha & Hin & Hnan & _).
  destruct (getitem_grouped channel
              (map fst (grouped_rows pandas temperature values))
              (map snd (grouped_rows pandas temperature values)) Hc) as [G1 G2].
  exists temperature, (map fst (grouped_rows pandas temperature values)),
    (map snd (grouped_rows pandas temperature values)).
  repeat split; auto. rewrite !length_map. reflexivity.
Qed.

Lemma group_by_temperature_ascending_witness :
  exists temperature temps values,
    frame.getitem sample_df "Temperature" = Some temperature /\
    sample_grouped = [("Temperature"%string, temps); ("Space1"%string, values)] /\
    frame.getitem sample_grouped "Temperature" = Some temps /\
    frame.getitem sample_grouped "Space1" = Some values /\
    List.length temps = List.length values /\
    ascending temps /\
    Forall (fun t => F64.is_nan t = false /\ In t temperature) temps /\
    Forall (fun v => F64.is_nan v = false) values.
Proof.
  apply (group_by_temperature_ascending pandas_ref sample_df "Space1" sample_grouped).
  - discriminate.
  - vm_compute. reflexivity.
Defined.



(** ** The channel detector *)

Lemma detect_loop (df : DataFrame) (cols valid : list string) :
  Forall (fun col => frame.contains df col = true) cols ->
  fold_left
    (fun valid_channels col =>
       match valid_channels, frame.getitem df col with
       | Returns valid_channels, Some a =>
           if existsb frame.notna a
           then Returns (valid_channels ++ [col])
           else Returns valid_channels
       | Returns _, None => Raises KeyError
       | Raises e, _ => Raises e
       end)
    cols (Returns valid)
  = Returns (valid ++ filter (has_value df) cols).
Proof.
  intros H. revert valid.
  induction H as [|col cols Hc Hcols IH]; intros valid; simpl.
  - rewrite app_nil_r. reflexivity.
  - apply contains_getitem in Hc. destruct Hc as [a Ha].
    assert (Hv : has_value df col = existsb frame.notna a)
      by (unfold has_value; rewrite Ha; reflexivity).
    rewrite Ha, Hv. destruct (existsb frame.notna a); rewrite IH; [|reflexivity].
    rewrite <- app_assoc. reflexivity.
Qed.

Lemma filter_filter {A : Type} (p q : A -> bool) (l : list A) :
  filter q (filter p l) = filter (fun x => p x && q x) l.
Proof.
  induction l as [|x l IH]; simpl; [reflexivity|].
  destruct (p x); simpl; [destruct (q x)|]; rewrite IH; reflexivity.
Qed.

Lemma has_value_contains (df : DataFrame) (col : string) :
  has_value df col = true -> frame.contains df col = true.
Proof.
  unfold has_value. intros H. apply contains_getitem.
  destruct (frame.getitem df col) as [a|]; [eauto | discriminate].
Qed.

Lemma detect_valid_channels_filter (df : DataFrame) :
  frame.empty df = false ->
  (exists col, In col CHANNEL_COLUMNS /\ frame.contains df col = true) ->
  detect_valid_channels df = Returns (filter (has_value df) CHANNEL_COLUMNS).
Proof.
  intros He (col & Hin & Hc). unfold detect_valid_channels. rewrite He.
  destruct (filter (frame.contains df) CHANNEL_COLUMNS) as [|c cs] eqn:E.
  - assert (H : In col []) by (rewrite <- E; apply filter_In; auto).
    destruct H.
  - replace (len (c :: cs) =? 0) with false
      by (symmetry; apply Z.eqb_neq; unfold len; simpl; lia).
    rewrite <- E. rewrite detect_loop.
    + rewrite app_nil_l, filter_filter. f_equal. apply filter_ext.
      intros x. destruct (has_value df x) eqn:Hx.
      * rewrite (has_value_contains _ _ Hx). reflexivity.
      * apply andb_false_r.
    + apply Forall_forall. intros x Hx. apply filter_In in Hx. tauto.
Qed.

(** [detect_valid_channels] returns no channel for an empty frame, with or
    without channel columns.  For a frame with rows it raises when none of
    [Space1] to [Space6] is a column, and otherwise returns, in the order of
    [Space1] to [Space6], exactly the channels whose column holds an entry
    that is not NaN; no lookup fails. *)
Theorem detect_valid_channels_spec (df : DataFrame) :
  match detect_valid_channels df with
  | Returns valid =>
      (frame.empty df = true /\ valid = []) \/
      (frame.empty df = false /\
       (exists col, In col CHANNEL_COLUMNS /\ frame.contains df col = true) /\
       valid = filter (has_value df) CHANNEL_COLUMNS /\
       forall col,
         In col valid <->
         In col CHANNEL_COLUMNS /\
         exists a x, frame.getitem df col = Some a /\ In x a /\ F64.is_nan x = false)
  | Raises e =>
      e = NoSpaceColumn /\ frame.empty df = false /\
      forall col, In col CHANNEL_COLUMNS -> frame.contains df col = false
  end.
Proof.
  destruct (frame.empty df) eqn:He.
  - unfold detect_valid_channels. rewrite He. auto.
  - destruct (filter (frame.contains df) CHANNEL_COLUMNS) as [|c cs] eqn:E.
    + unfold detect_valid_channels. rewrite He, E. simpl.
      repeat split. intros col Hin.
      destruct (frame.contains df col) eqn:Hc; [|reflexivity].
      assert (H : In col []) by (rewrite <- E; apply filter_In; auto).
      destruct H.
    + assert (Hex : exists col, In col CHANNEL_COLUMNS /\ frame.contains df col = true).
      { exists c. apply filter_In. rewrite E. left. reflexivity. }
      rewrite (detect_valid_channels_filter df He Hex).
      right. split; [reflexivity|]. split; [exact Hex|]. split; [reflexivity|].
      intros col. split.
      * intros H. apply filter_In in H. destruct H as [Hin H].
        split; [assumption|]. unfold has_value in H.
        destruct (frame.getitem df col) as [a|]; [|discriminate].
        apply existsb_exists in H. destruct H as (x & Hx & Hn).
        exists a, x. repeat split; auto.
        unfold frame.notna in Hn. apply negb_true_iff in Hn. exact Hn.
      * intros (Hin & a & x & Ha & Hx & Hn). apply filter_In. split; [assumption|].
        unfold has_value. rewrite Ha. apply existsb_exists. exists x.
        split; [assumption|]. unfold frame.notna. rewrite Hn. reflexivity.
Qed.

Lemma detect_valid_channels_valid (df : DataFrame) (valid : list string)
    (channel : string) :
  detect_valid_channels df = Returns valid ->
  In channel valid ->
  In channel CHANNEL_COLUMNS /\ has_value df channel = true.
Proof.
  intros Hd Hin. destruct (frame.empty df) eqn:He.
  - unfold detect_valid_channels in Hd. rewrite He in Hd.
    injection Hd as <-. destruct Hin.
  - destruct (filter (frame.contains df) CHANNEL_COLUMNS) as [|c cs] eqn:E.
    + unfold detect_valid_channels in Hd. rewrite He, E in Hd. discriminate.
    + assert (Hex : exists col, In col CHANNEL_COLUMNS /\ frame.contains df col = true).
      { exists c. apply filter_In. rewrite E. left. reflexivity. }
      rewrite (detect_valid_channels_filter df He Hex) in Hd.
      assert (Hv : valid = filter (has_value df) CHANNEL_COLUMNS) by congruence.
      rewrite Hv in Hin. apply filter_In in Hin. exact Hin.
Qed.

(** A channel [detect_valid_channels] returns is one [group_by_temperature]
    accepts: with a temperature column in the frame the grouping returns,
    the temperatures next to the channel. *)
Theorem detected_channel_is_grouped (pandas : Pandas) (df : DataFrame)
    (valid : list string) (channel : string) :
  detect_valid_channels df = Returns valid ->
  In channel valid ->
  frame.contains df "Temperature" = true ->
  exists temps values,
    group_by_temperature pandas df channel
      = Returns [("Temperature"%string, temps); (channel, values)] /\
    List.length temps = List.length values.
Proof.
  intros Hd Hin Ht.
  destruct (detect_valid_channels_valid df valid channel Hd Hin) as [_ Hv].
  pose proof (has_value_contains df channel Hv) as Hc.
  destruct (group_by_temperature pandas df channel) as [grouped|e] eqn:E.
  - apply group_by_temperature_rows in E.
    destruct E as (temperature & values & _ & _ & ->).
    eexists _, _. split; [reflexivity|]. rewrite !length_map. reflexivity.
  - unfold group_by_temperature in E. rewrite Hc, Ht in E. simpl in E.
    apply contains_getitem in Ht, Hc. destruct Ht as [t Ht], Hc as [a Ha].
    rewrite Ht, Ha in E. discriminate.
Qed.

Lemma detected_channel_is_grouped_witness :
  exists temps values,
    group_by_temperature pandas_ref sample_df "Space1"
      = Returns [("Temperature"%string, temps); ("Space1"%string, values)] /\
    List.length temps = List.length values.
Proof.
  apply (detected_channel_is_grouped pandas_ref sample_df ["Space1"%string] "Space1").
  - vm_compute. reflexivity.
  - left. reflexivity.
  - reflexivity.
Defined.

(** ** The analysis of one channel of a frame *)

Lemma analyze_channel_inv (sp : SciPy) (temps values : list float)
    (low_range high_range : float * float) (smooth_params : Z * Z)
    (slope_offset : Z) (outlier_params : Z * float) (r : dict) :
  analyze_channel sp temps values low_range high_range smooth_params
    slope_offset outlier_params = Ok r ->
  10 <= len temps /\
  exists temps_clean values_clean outlier_mask,
    remove_outliers temps values (fst outlier_params) (snd outlier_params) 3
      = Ok (temps_clean, values_clean, outlier_mask) /\
    analyze_cleaned sp temps_clean values_clean outlier_mask low_range high_range
      smooth_params slope_offset = Ok r.
Proof.
  unfold analyze_channel. destruct outlier_params as [outlier_window outlier_threshold].
  destruct (negb (len temps =? len values)); [discriminate|].
  destruct (len temps <? 10) eqn:Hn; [discriminate|]. apply Z.ltb_ge in Hn.
  simpl fst. simpl snd.
  destruct (remove_outliers _ _ _ _ _) as [[[temps_clean values_clean] outlier_mask]|];
    simpl bind; [|discriminate].
  intros H. split; [assumption|]. eauto.
Qed.

Lemma remove_outliers_default_window (temps values : list float)
    (threshold : float) (max_iterations : Z) :
  13 <= len values ->
  remove_outliers temps values 5 threshold max_iterations
  = remove_outliers temps values 11 threshold max_iterations.
Proof.
  intros Hn. unfold remove_outliers.
  destruct (negb _); [reflexivity|].
  replace (len values <? 5 + 2) with false by (symmetry; apply Z.ltb_ge; lia).
  replace (len values <? 11 + 2) with false by (symmetry; apply Z.ltb_ge; lia).
  reflexivity.
Qed.

(** What a run of [perform_analysis] that returns a dictionary went
    through. *)
Lemma perform_analysis_inv (session_state : st.session_state) (pandas : Pandas)
    (sp : SciPy) (df : DataFrame) (channel : string) (r : list (string * entry)) :
  channel <> "Temperature"%string ->
  perform_analysis session_state pandas sp df channel = Some r ->
  exists temperature column analysis temps_clean values_clean outlier_mask
         temps_smooth values_smooth,
    let temps := map fst (grouped_rows pandas temperature column) in
    let values := map snd (grouped_rows pandas temperature column) in
    frame.getitem df "Temperature" = Some temperature /\
    frame.getitem df channel = Some column /\
    analyze_channel sp temps values
      (fst (fst (get_tangent_params session_state)))
      (snd (fst (get_tangent_params session_state)))
      (get_smooth_params session_state)
      (snd (get_tangent_params session_state)) (5, F64.of_Z 5) = Ok analysis /\
    remove_outliers temps values 11 (F64.of_Z 5) 3
      = Ok (temps_clean, values_clean, outlier_mask) /\
    smooth_data sp temps_clean values_clean
      (fst (get_smooth_params session_state)) (snd (get_smooth_params session_state))
      = Ok (temps_smooth, values_smooth) /\
    r = chart analysis temps values temps_smooth values_smooth outlier_mask.
Proof.
  intros Hc. unfold perform_analysis.
  destruct (get_smooth_params session_state) as [smooth_window smooth_polyorder].
  destruct (get_tangent_params session_state) as [[low_range high_range] slope_offset].
  destruct (group_by_temperature pandas df channel) as [grouped|] eqn:Hg; [|discriminate].
  apply group_by_temperature_rows in Hg.
  destruct Hg as (temperature & column & Ht & Hv & ->).
  destruct (getitem_grouped channel
              (map fst (grouped_rows pandas temperature column))
              (map snd (grouped_rows pandas temperature column)) Hc) as [-> ->].
  destruct (analyze_channel _ _ _ _ _ _ _ _) as [analysis|] eqn:Ha; [|discriminate].
  destruct (remove_outliers _ _ _ _ _) as [[[temps_clean values_clean] outlier_mask]|]
    eqn:Hr; [|discriminate].
  destruct (smooth_data _ _ _ _ _) as [[temps_smooth values_smooth]|] eqn:Hs;
    [|discriminate].
  intros [= <-].
  exists temperature, column, analysis, temps_clean, values_clean, outlier_mask,
    temps_smooth, values_smooth.
  cbv zeta. simpl fst. simpl snd. auto 10.
Qed.

Lemma get_cons (k : string) (x : pyval) (d : dict) (key : string) :
  get ((k, x) :: d) key = if String.eqb k key then Some x else get d key.
Proof. unfold get. simpl. destruct (String.eqb k key); reflexivity. Qed.

Lemma chart_of_analysis (As Af_tan max_slope_temp : float)
    (low_baseline high_baseline tangent : float * float) (outlier_count : Z)
    (temps values temps_smooth values_smooth : list float) (outlier_mask : list bool) :
  let r := chart [("As", PyFloat As);
                  ("Af_tan", PyFloat Af_tan);
                  ("max_slope_temp", PyFloat max_slope_temp);
                  ("low_baseline", PyTuple (fst low_baseline) (snd low_baseline));
                  ("high_baseline", PyTuple (fst high_baseline) (snd high_baseline));
                  ("tangent", PyTuple (fst tangent) (snd tangent));
                  ("outlier_count", PyInt outlier_count)]%string
             temps values temps_smooth values_smooth outlier_mask in
  map fst r = chart_keys /\
  lookup r "As" = Some (Value (PyFloat As)) /\
  lookup r "Af_tan" = Some (Value (PyFloat Af_tan)) /\
  lookup r "max_slope_temp" = Some (Value (PyFloat max_slope_temp)) /\
  lookup r "low_baseline"
    = Some (Value (PyTuple (fst low_baseline) (snd low_baseline))) /\
  lookup r "high_baseline"
    = Some (Value (PyTuple (fst high_baseline) (snd high_baseline))) /\
  lookup r "tangent" = Some (Value (PyTuple (fst tangent) (snd tangent))) /\
  lookup r "outlier_count" = Some (Value (PyInt outlier_count)) /\
  lookup r "temps_smooth" = Some (Value (PyArray temps_smooth)) /\
  lookup r "values_smooth" = Some (Value (PyArray values_smooth)) /\
  lookup r "temps_raw" = Some (Value (PyArray temps)) /\
  lookup r "values_raw" = Some (Value (PyArray values)) /\
  lookup r "outlier_mask" = Some (BoolArray outlier_mask).
Proof. cbv zeta. repeat split. Qed.

(** A dictionary [perform_analysis] returns has the seven entries of
    [analyze_channel] and then the five series, in this order.  The raw
    series are the grouped ones: at least ten temperatures, strictly
    ascending, and as many values, none of them NaN.  The smoothed
    temperatures are the raw temperatures, and the mask has one entry per
    point. *)
Theorem perform_analysis_series (session_state : st.session_state)
    (pandas : Pandas) (sp : SciPy) (df : DataFrame) (channel : string)
    (r : list (string * entry)) :
  channel <> "Temperature"%string ->
  perform_analysis session_state pandas sp df channel = Some r ->
  map fst r = chart_keys /\
  exists temps values values_smooth outlier_mask,
    lookup r "temps_raw" = Some (Value (PyArray temps)) /\
    lookup r "values_raw" = Some (Value (PyArray values)) /\
    lookup r "temps_smooth" = Some (Value (PyArray temps)) /\
    lookup r "values_smooth" = Some (Value (PyArray values_smooth)) /\
    lookup r "outlier_mask" = Some (BoolArray outlier_mask) /\
    10 <= len temps /\
    List.length values = List.length temps /\
    List.length outlier_mask = List.length temps /\
    ascending temps /\
    Forall (fun t => F64.is_nan t = false) temps /\
    Forall (fun v => F64.is_nan v = false) values.
Proof.
  intros Hc H. apply perform_analysis_inv in H; [|exact Hc].
  destruct H as (temperature & column & analysis & temps_clean & values_clean &
                 outlier_mask & temps_smooth & values_smooth & H).
  cbv zeta in H. destruct H as (_ & _ & Ha & Hr & Hs & ->).
  set (temps := map fst (grouped_rows pandas temperature column)) in *.
  set (values := map snd (grouped_rows pandas temperature column)) in *.
  apply analyze_channel_inv in Ha. destruct Ha as (Hn & tc & vc & om & _ & Ha).
  apply analyze_cleaned_inv in Ha.
  destruct Ha as (vs & d & idx & ts & ti & ls & li & hs & hi & a & f & Ha).
  do 9 destruct Ha as [_ Ha]. subst analysis.
  apply remove_outliers_inv in Hr. destruct Hr as (-> & Hlen & Hlw & Hlm & _).
  apply smooth_data_temps in Hs. subst temps_smooth.
  simpl in Hlw, Hlm.
  destruct (grouped_rows_spec pandas temperature column) as (Hasc & Hin & Hnan & _).
  pose proof (chart_of_analysis a f (nth (Z.to_nat idx) tc F64.nan) (ls, li) (hs, hi)
                (ts, ti) (np.count om) temps values temps values_smooth outlier_mask)
    as Hk.
  cbv zeta in Hk. simpl fst in Hk. simpl snd in Hk.
  destruct Hk as (Hk & _ & _ & _ & _ & _ & _ & _ & K1 & K2 & K3 & K4 & K5).
  split; [exact Hk|].
  exists temps, values, values_smooth, outlier_mask.
  repeat split; try assumption.
  - congruence.
  - congruence.
  - eapply Forall_impl; [|exact Hin]. simpl. tauto.
Qed.

Lemma perform_analysis_series_witness :
  map fst sample_chart = chart_keys /\
  exists temps values values_smooth outlier_mask,
    lookup sample_chart "temps_raw" = Some (Value (PyArray temps)) /\
    lookup sample_chart "values_raw" = Some (Value (PyArray values)) /\
    lookup sample_chart "temps_smooth" = Some (Value (PyArray temps)) /\
    lookup sample_chart "values_smooth" = Some (Value (PyArray values_smooth)) /\
    lookup sample_chart "outlier_mask" = Some (BoolArray outlier_mask) /\
    10 <= len temps /\
    List.length values = List.length temps /\
    List.length outlier_mask = List.length temps /\
    ascending temps /\
    Forall (fun t => F64.is_nan t = false) temps /\
    Forall (fun v => F64.is_nan v = false) values.
Proof.
  apply (perform_analysis_series sample_session pandas_ref scipy_ref sample_df
           "Space1" sample_chart).
  - discriminate.
  - vm_compute. reflexivity.
Defined.

(** From thirteen grouped points on, the series [perform_analysis] plots
    are those the analysis was made on: the outlier mask, the cleaned and
    the smoothed series of the dictionary come from the pipeline that gives
    the seven analysis entries, steps 2 to 8 of [analyze_channel] on the
    same cleaned series, and the outlier count is the number of set entries
    of the mask. *)
Theorem perform_analysis_same_pipeline (session_state : st.session_state)
    (pandas : Pandas) (sp : SciPy) (df : DataFrame) (channel : string)
    (r : list (string * entry)) (temps : list float) :
  channel <> "Temperature"%string ->
  perform_analysis session_state pandas sp df channel = Some r ->
  lookup r "temps_raw" = Some (Value (PyArray temps)) ->
  13 <= len temps ->
  exists values temps_clean values_clean outlier_mask temps_smooth values_smooth
         analysis,
    lookup r "values_raw" = Some (Value (PyArray values)) /\
    remove_outliers temps values 11 (F64.of_Z 5) 3
      = Ok (temps_clean, values_clean, outlier_mask) /\
    smooth_data sp temps_clean values_clean
      (fst (get_smooth_params session_state)) (snd (get_smooth_params session_state))
      = Ok (temps_smooth, values_smooth) /\
    analyze_cleaned sp temps_clean values_clean outlier_mask
      (fst (fst (get_tangent_params session_state)))
      (snd (fst (get_tangent_params session_state)))
      (get_smooth_params session_state)
      (snd (get_tangent_params session_state)) = Ok analysis /\
    lookup r "outlier_mask" = Some (BoolArray outlier_mask) /\
    lookup r "temps_smooth" = Some (Value (PyArray temps_smooth)) /\
    lookup r "values_smooth" = Some (Value (PyArray values_smooth)) /\
    lookup r "outlier_count" = Some (Value (PyInt (np.count outlier_mask))) /\
    forall key v, get analysis key = Some v -> lookup r key = Some (Value v).
Proof.
  intros Hc H Hraw Hn. apply perform_analysis_inv in H; [|exact Hc].
  destruct H as (temperature & column & analysis & temps_clean & values_clean &
                 outlier_mask & temps_smooth & values_smooth & H).
  cbv zeta in H. destruct H as (_ & _ & Ha & Hr & Hs & ->).
  remember (map fst (grouped_rows pandas temperature column)) as temps0 eqn:Et.
  remember (map snd (grouped_rows pandas temperature column)) as values eqn:Ev.
  clear Et Ev.
  apply analyze_channel_inv in Ha. destruct Ha as (_ & tc & vc & om & Hr' & Ha).
  cbn [fst snd] in Hr'.
  pose proof Ha as Hshape. apply analyze_cleaned_inv in Hshape.
  destruct Hshape as (vs & d & idx & ts & ti & ls & li & hs & hi & a & f & Hshape).
  do 9 destruct Hshape as [_ Hshape].
  pose proof (chart_of_analysis a f (nth (Z.to_nat idx) tc F64.nan) (ls, li) (hs, hi)
                (ts, ti) (np.count om) temps0 values temps_smooth values_smooth
                outlier_mask) as Hk.
  cbv zeta in Hk. simpl fst in Hk. simpl snd in Hk. rewrite <- Hshape in Hk.
  destruct Hk as (_ & A1 & A2 & A3 & A4 & A5 & A6 & A7 & K1 & K2 & K3 & K4 & K5).
  assert (temps0 = temps) by congruence. subst temps0.
  assert (Hlen : len values = len temps).
  { apply remove_outliers_inv in Hr. destruct Hr as (_ & Hlen & _).
    unfold len. congruence. }
  rewrite remove_outliers_default_window in Hr' by lia.
  rewrite Hr in Hr'. injection Hr' as <- <- <-.
  exists values, temps_clean, values_clean, outlier_mask, temps_smooth,
    values_smooth, analysis.
  repeat split; try assumption.
  intros key v Hget. rewrite Hshape, !get_cons in Hget.
  repeat match type of Hget with
  | context [String.eqb ?k key] =>
      destruct (String.eqb_spec k key) as [<-|_];
        [injection Hget as <-; assumption|]
  end.
  discriminate Hget.
Qed.

Lemma perform_analysis_same_pipeline_witness :
  exists values temps_clean values_clean outlier_mask temps_smooth values_smooth
         analysis,
    lookup sample_chart "values_raw" = Some (Value (PyArray values)) /\
    remove_outliers sample_temps values 11 (F64.of_Z 5) 3
      = Ok (temps_clean, values_clean, outlier_mask) /\
    smooth_data scipy_ref temps_clean values_clean
      (fst (get_smooth_params sample_session)) (snd (get_smooth_params sample_session))
      = Ok (temps_smooth, values_smooth) /\
    analyze_cleaned scipy_ref temps_clean values_clean outlier_mask
      (fst (fst (get_tangent_params sample_session)))
      (snd (fst (get_tangent_params sample_session)))
      (get_smooth_params sample_session)
      (snd (get_tangent_params sample_session)) = Ok analysis /\
    lookup sample_chart "outlier_mask" = Some (BoolArray outlier_mask) /\
    lookup sample_chart "temps_smooth" = Some (Value (PyArray temps_smooth)) /\
    lookup sample_chart "values_smooth" = Some (Value (PyArray values_smooth)) /\
    lookup sample_chart "outlier_count" = Some (Value (PyInt (np.count outlier_mask))) /\
    forall key v, get analysis key = Some v -> lookup sample_chart key = Some (Value v).
Proof.
  apply (perform_analysis_same_pipeline sample_session pandas_ref scipy_ref sample_df
           "Space1" sample_chart sample_temps).
  - discriminate.
  - vm_compute. reflexivity.
  - reflexivity.
  - vm_compute. discriminate.
Defined.

(** [perform_analysis] returns [None] when the channel or the temperature
    column is not in the frame, and when the temperature column holds fewer
    than ten different temperatures, NaN not counted: so for every frame of
    fewer than ten rows. *)
Theorem perform_analysis_none (session_state : st.session_state)
    (pandas : Pandas) (sp : SciPy) (df : DataFrame) (channel : string) :
  channel <> "Temperature"%string ->
  (frame.contains df channel = false \/ frame.contains df "Temperature" = false ->
   perform_analysis session_state pandas sp df channel = None) /\
  (forall temperature,
     frame.getitem df "Temperature" = Some temperature ->
     len (frame.uniques temperature) < 10 \/ len temperature < 10 ->
     perform_analysis session_state pandas sp df channel = None).
Proof.
  intros Hc. split.
  - intros H. unfold perform_analysis.
    destruct (get_smooth_params session_state) as [smooth_window smooth_polyorder].
    destruct (get_tangent_params session_state) as [[low_range high_range] slope_offset].
    replace (group_by_temperature pandas df channel)
      with (@Raises DataFrame (if frame.contains df channel
                               then NoTemperatureColumn else ChannelNotFound));
      [reflexivity|].
    unfold group_by_temperature.
    destruct (frame.contains df channel); simpl; [|reflexivity].
    destruct H as [H|H]; [discriminate|]. rewrite H. reflexivity.
  - intros temperature Ht Hfew.
    destruct (perform_analysis session_state pandas sp df channel) as [r|] eqn:E;
      [exfalso | reflexivity].
    apply perform_analysis_inv in E; [|exact Hc].
    destruct E as (temperature' & column & analysis & tc & vc & om & ts & vs & E).
    cbv zeta in E. destruct E as (Ht' & _ & Ha & _).
    rewrite Ht in Ht'. injection Ht' as <-.
    apply analyze_channel_inv in Ha. destruct Ha as [Hn _].
    destruct (grouped_rows_spec pandas temperature column) as (_ & _ & _ & Hle).
    pose proof (length_uniques temperature) as Hu.
    unfold len in *. rewrite length_map in Hn. lia.
Qed.

Lemma perform_analysis_none_witness :
  perform_analysis sample_session pandas_ref scipy_ref sample_df "Space3" = None /\
  perform_analysis sample_session pandas_ref scipy_ref
    [("Temperature"%string, spike_values); ("Space1"%string, spike_temps)] "Space1"
  = None.
Proof.
  assert (H3 : "Space3"%string <> "Temperature"%string) by discriminate.
  assert (H1 : "Space1"%string <> "Temperature"%string) by discriminate.
  pose proof (perform_analysis_none sample_session pandas_ref scipy_ref sample_df
                "Space3" H3) as [Hmissing _].
  pose proof (perform_analysis_none sample_session pandas_ref scipy_ref
                [("Temperature"%string, spike_values); ("Space1"%string, spike_temps)]
                "Space1" H1) as [_ Hfew].
  split.
  - apply Hmissing. left. reflexivity.
  - apply (Hfew spike_values); [reflexivity|]. left. vm_compute. reflexivity.
Defined.
